(** * mlinkbd: title resolution, gate resolution and caches

    A shallow embedding of the resolution core of [movielinkbd_api.py] and
    of the mapping analyser [analyze_tv_mapping.py].

    Conventions of the embedding.
    - A Python [str] is a [text], a list of characters.  Non-ASCII text is
      held as its UTF-8 bytes.  Python's Unicode tables are embedded on the
      ASCII range only: [str.lower] maps [A-Z]; [\s], [str.strip] and
      [str.split] use the ten ASCII white-space characters; [\d] is [0-9];
      [\w] is [[A-Za-z0-9_]].  Bytes above 127 are caseless and belong to
      none of these classes.
    - A Python [float] is the rational number that the double denotes.  In
      the resolver every float operation rounds its exact result to the
      nearest double, ties to even ([Binary64.round64]), and a decimal
      literal is the double nearest to it, so that scores and threshold
      tests are those of the code bit for bit.  The analyser's one division
      and the caches' clock arithmetic are kept exact.
    - An exception is an explicit outcome: [int] refuses a string of more
      than 4300 digits (CPython's default limit), and the resolver's
      [except] clause turns that into the result [None].
    - What the code reads from the network (search pages, gate pages, the
      metadata title) is an explicit input; what it prints or fetches is an
      explicit event log. *)

From stdpp Require Import gmap strings list pretty.
From Stdlib Require Import QArith Lqa Ascii.
Import ListNotations.

Local Close Scope Q_scope.
Local Open Scope list_scope.

(** ** Characters and text *)

Module Text.

Definition text := list ascii.

Definition T (s : string) : text := String.list_ascii_of_string s.

Definition code (c : ascii) : N := N_of_ascii c.

Definition in_range (lo hi : N) (c : ascii) : bool :=
  ((lo <=? code c) && (code c <=? hi))%N.

Definition is_upper (c : ascii) : bool := in_range 65 90 c.
Definition is_lower (c : ascii) : bool := in_range 97 122 c.
Definition is_digit (c : ascii) : bool := in_range 48 57 c.

(** [str.isspace] on ASCII: TAB LF VT FF CR, FS GS RS US, and the space. *)
Definition is_space (c : ascii) : bool :=
  in_range 9 13 c || in_range 28 31 c || (code c =? 32)%N.

(** [\w] on ASCII. *)
Definition is_word (c : ascii) : bool :=
  is_upper c || is_lower c || is_digit c || (code c =? 95)%N.

Definition lower_char (c : ascii) : ascii :=
  if is_upper c then ascii_of_N (code c + 32) else c.

(** [s.lower()] *)
Definition lower (s : text) : text := map lower_char s.

Fixpoint lstrip (s : text) : text :=
  match s with
  | c :: s' => if is_space c then lstrip s' else s
  | [] => []
  end.

Definition rstrip (s : text) : text := rev (lstrip (rev s)).

(** [s.strip()] *)
Definition strip (s : text) : text := rstrip (lstrip s).

Definition ascii_eqb (a b : ascii) : bool := (code a =? code b)%N.

Fixpoint text_eqb (a b : text) : bool :=
  match a, b with
  | [], [] => true
  | x :: a', y :: b' => ascii_eqb x y && text_eqb a' b'
  | _, _ => false
  end.

(** [s.startswith(p)] *)
Fixpoint startswith (p s : text) : bool :=
  match p, s with
  | [], _ => true
  | x :: p', y :: s' => ascii_eqb x y && startswith p' s'
  | _ :: _, [] => false
  end.

(** [p in s] *)
Fixpoint contains (p s : text) : bool :=
  startswith p s ||
  match s with
  | [] => false
  | _ :: s' => contains p s'
  end.

(** [s.split(sep)] for a non-empty separator: the pieces between the
    non-overlapping occurrences of [sep], scanned from the left. *)
Fixpoint split_sep_go (n : nat) (sep : text) (cur_rev : text) (s : text) : list text :=
  match n with
  | O => [rev cur_rev]
  | S n' =>
    match s with
    | [] => [rev cur_rev]
    | c :: s' =>
      if startswith sep s
      then rev cur_rev :: split_sep_go n' sep [] (skipn (length sep) s)
      else split_sep_go n' sep (c :: cur_rev) s'
    end
  end.

Definition split_sep (sep s : text) : list text :=
  split_sep_go (S (length s)) sep [] s.

(** [s.split()]: the maximal runs of non-space characters. *)
Fixpoint split_ws_go (cur_rev : text) (s : text) : list text :=
  match s with
  | [] => match cur_rev with [] => [] | _ => [rev cur_rev] end
  | c :: s' =>
    if is_space c
    then match cur_rev with
         | [] => split_ws_go [] s'
         | _ => rev cur_rev :: split_ws_go [] s'
         end
    else split_ws_go (c :: cur_rev) s'
  end.

Definition split_ws (s : text) : list text := split_ws_go [] s.

(** [sys.int_info.default_max_str_digits] *)
Definition max_str_digits : nat := 4300.

(** [int(d)] for a run of ASCII digits; [None] is the [ValueError] raised
    for a run of more than 4300 digits. *)
Definition int_of_digits (d : text) : option Z :=
  if (max_str_digits <? length d)%nat then None
  else Some (fold_left (fun acc c => (acc * 10 + Z.of_N (code c - 48))%Z) d 0%Z).

End Text.

Import Text.

(** ** Floats: IEEE 754 binary64, round to nearest, ties to even *)

Module Binary64.

Local Open Scope Z_scope.

(** The integer nearest to [n / d], ties to the even one ([d > 0]). *)
Definition nearest_even (n d : Z) : Z :=
  let q := n / d in
  match 2 * (n mod d) ?= d with
  | Lt => q
  | Gt => q + 1
  | Eq => if Z.even q then q else q + 1
  end.

(** [floor (log2 (n / d))] for positive [n] and [d]. *)
Definition ilog2 (n d : Z) : Z :=
  let e := Z.log2 n - Z.log2 d in
  if n * 2 ^ Z.max 0 (- e) <? d * 2 ^ Z.max 0 e then e - 1 else e.

(** The exponent of the last place of the double nearest to [n / d]: 52
    places below the leading bit, and never below that of the subnormals. *)
Definition ulp_exponent (n d : Z) : Z := Z.max (ilog2 n d - 52) (-1074).

(** The multiple [m * 2 ^ t] as a rational. *)
Definition scaled (m t : Z) : Q :=
  if 0 <=? t then inject_Z (m * 2 ^ t) else Qmake m (Z.to_pos (2 ^ (- t))).

(** The double nearest to [x], in lowest terms; [x] is put in lowest terms
    first, so that equal rationals round to the same double.  Overflow to
    infinity is not represented: the values rounded here are scores and
    string lengths. *)
Definition round64 (x : Q) : Q :=
  let x := Qred x in
  let n := Z.abs (Qnum x) in
  let d := Zpos (Qden x) in
  if n =? 0 then 0%Q
  else
    let t := ulp_exponent n d in
    let m := nearest_even (n * 2 ^ Z.max 0 (- t)) (d * 2 ^ Z.max 0 t) in
    Qred (scaled (Z.sgn (Qnum x) * m) t).

(** A decimal literal of the source, and [float(n)] for an [int]. *)
Definition double (literal : Q) : Q := round64 literal.

Definition of_nat (n : nat) : Q := round64 (inject_Z (Z.of_nat n)).

(** [x + y], [x - y], [x * y] and [x / y] on floats. *)
Definition fadd (x y : Q) : Q := round64 (x + y).
Definition fsub (x y : Q) : Q := round64 (x - y).
Definition fmul (x y : Q) : Q := round64 (x * y).
Definition fdiv (x y : Q) : Q := round64 (x / y).

(** One unit in the 53rd place of a number below 2. *)
Definition u : Q := 1 # 9007199254740992.

End Binary64.

Import Binary64.

(** ** Regular expressions, with the backtracking semantics of Python's [re] *)

Module Re.

Inductive regex : Type :=
| REps
| RChar (p : ascii -> bool)
| RSeq (r1 r2 : regex)
| RAlt (r1 r2 : regex)
| RStar (r : regex)
| RWordB
| RGroup (n : nat) (r : regex).

Definition groups := list (nat * text).

Definition is_word_opt (o : option ascii) : bool :=
  match o with Some c => is_word c | None => false end.

(** One matcher step: run a pattern at the head of the text, hand what is
    left to the continuation. *)
Definition matcher (R : Type) : Type :=
  option ascii -> text -> groups ->
  (option ascii -> text -> groups -> option R) -> option R.

(** The greedy loop of [r*]: one more round of the body first, and only when
    everything after that fails, what follows the star.  A round that eats
    nothing is cut; [n] bounds the number of rounds by the length left. *)
Fixpoint star_loop {R : Type} (body : matcher R)
  (k : option ascii -> text -> groups -> option R)
  (n : nat) (prev : option ascii) (s : text) (g : groups) : option R :=
  match n with
  | O => k prev s g
  | S n' =>
    match body prev s g
            (fun prev' s' g' =>
               if (length s' <? length s)%nat then star_loop body k n' prev' s' g'
               else None) with
    | Some x => Some x
    | None => k prev s g
    end
  end.

(** The matcher runs [r] at the head of [s]; [prev] is the character just
    before.  Alternatives are tried left to right and [RStar] is greedy; the
    continuation [k] decides what follows, so that a failure further on makes
    the matcher come back and try the next choice. *)
Fixpoint rmatch {R : Type} (r : regex) (prev : option ascii) (s : text) (g : groups)
  (k : option ascii -> text -> groups -> option R) {struct r} : option R :=
  match r with
  | REps => k prev s g
  | RChar p =>
    match s with
    | c :: s' => if p c then k (Some c) s' g else None
    | [] => None
    end
  | RSeq r1 r2 =>
    rmatch r1 prev s g (fun prev' s' g' => rmatch r2 prev' s' g' k)
  | RAlt r1 r2 =>
    match rmatch r1 prev s g k with
    | Some x => Some x
    | None => rmatch r2 prev s g k
    end
  | RStar r1 => star_loop (rmatch r1) k (length s) prev s g
  | RWordB =>
    if xorb (is_word_opt prev) (is_word_opt (head s)) then k prev s g else None
  | RGroup n r1 =>
    rmatch r1 prev s g
      (fun prev' s' g' => k prev' s' ((n, firstn (length s - length s') s) :: g'))
  end.

Record rmatch_result : Type := MkMatch {
  m_before : text;
  m_text : text;
  m_after : text;
  m_last : option ascii;
  m_groups : groups
}.

(** A match of [r] starting exactly at the head of [s]. *)
Definition match_here (r : regex) (prev : option ascii) (s : text)
  : option (option ascii * text * groups) :=
  rmatch r prev s [] (fun p s' g => Some (p, s', g)).

(** [re.search(r, s)]: the leftmost match. *)
Fixpoint search_from (r : regex) (prev : option ascii) (pre_rev : text) (s : text)
  : option rmatch_result :=
  match match_here r prev s with
  | Some (p, rest, g) =>
    Some (MkMatch (rev pre_rev) (firstn (length s - length rest) s) rest p g)
  | None =>
    match s with
    | [] => None
    | c :: s' => search_from r (Some c) (c :: pre_rev) s'
    end
  end.

Definition search (r : regex) (s : text) : option rmatch_result :=
  search_from r None [] s.

(** [m.group(n)]; [None] when the group took no part in the match. *)
Fixpoint group (n : nat) (g : groups) : option text :=
  match g with
  | [] => None
  | (i, t) :: g' => if (i =? n)%nat then Some t else group n g'
  end.

(** [re.sub(r, repl, s)] for a pattern that cannot match the empty string
    (every pattern of the program consumes at least one character): the
    leftmost non-overlapping matches are replaced, the rest is copied. *)
Fixpoint sub_from (n : nat) (r : regex) (repl : text) (prev : option ascii) (s : text)
  : text :=
  match n with
  | O => s
  | S n' =>
    match s with
    | [] => []
    | c :: s' =>
      match match_here r prev s with
      | Some (p, rest, _) =>
        if (length rest <? length s)%nat
        then repl ++ sub_from n' r repl p rest
        else c :: sub_from n' r repl (Some c) s'
      | None => c :: sub_from n' r repl (Some c) s'
      end
    end
  end.

Definition sub (r : regex) (repl : text) (s : text) : text :=
  sub_from (S (length s)) r repl None s.

(** Pattern combinators. *)
Definition lit_char (c : ascii) : regex := RChar (ascii_eqb c).

Fixpoint lit (w : text) : regex :=
  match w with
  | [] => REps
  | c :: w' => RSeq (lit_char c) (lit w')
  end.

Definition rplus (r : regex) : regex := RSeq r (RStar r).

Fixpoint rseqs (rs : list regex) : regex :=
  match rs with
  | [] => REps
  | [r] => r
  | r :: rs' => RSeq r (rseqs rs')
  end.

Fixpoint ralts (rs : list regex) : regex :=
  match rs with
  | [] => RChar (fun _ => false)
  | [r] => r
  | r :: rs' => RAlt r (ralts rs')
  end.

Definition one_of (cs : text) : regex := RChar (fun c => existsb (ascii_eqb c) cs).
Definition none_of (cs : text) : regex := RChar (fun c => negb (existsb (ascii_eqb c) cs)).

Definition digit : regex := RChar is_digit.
Definition space : regex := RChar is_space.

End Re.

Import Re.

(** ** Title normaliser ([normalize_title], [base_title]) *)

Module Normalizer.

(** [r"\(\d{4}\)"] *)
Definition year_re : regex :=
  rseqs [lit_char "("; digit; digit; digit; digit; lit_char ")"].

(** [r"\b(season\s*\d+|s\d+|ep\s*\d+|e\d+)\b"] *)
Definition season_token_re : regex :=
  rseqs [RWordB;
         RGroup 1 (ralts [rseqs [lit (T "season"); RStar space; rplus digit];
                          rseqs [lit (T "s"); rplus digit];
                          rseqs [lit (T "ep"); RStar space; rplus digit];
                          rseqs [lit (T "e"); rplus digit]]);
         RWordB].

Definition noise : list text :=
  map T ["bangla dubbed"; "bangla"; "বাংলা"; "bd"; "hindi dubbed"; "hindi"; "हिंदी";
         "dual audio"; "english dubbed"; "english"; "web-dl"; "webdl"; "webrip";
         "hdrip"; "brrip"; "dvdrip"; "rip"; "480p"; "720p"; "1080p"; "4k"; "uhd";
         "hd"; "sd"]%string.

(** [rf"\b{re.escape(w)}\b"] *)
Definition noise_re (w : text) : regex := rseqs [RWordB; lit w; RWordB].

(** [r"[^a-z0-9\s]"] *)
Definition kept_char (c : ascii) : bool := is_lower c || is_digit c || is_space c.
Definition junk_re : regex := RChar (fun c => negb (kept_char c)).

(** [r"\s+"] *)
Definition spaces_re : regex := rplus space.

Definition strip_noise (s : text) : text :=
  fold_left (fun s w => sub (noise_re w) [] s) noise s.

Definition normalize_title (s : text) : text :=
  let s := strip (lower s) in
  let s := sub year_re [] s in
  let s := sub season_token_re [] s in
  let s := strip_noise s in
  let s := sub junk_re (T " ") s in
  strip (sub spaces_re (T " ") s).

(** [re.split(r"[:\-\(]", s, maxsplit=1)[0].strip()] *)
Definition base_title (s : text) : text :=
  strip (match search (one_of (T ":-(")) s with
         | Some m => m_before m
         | None => s
         end).

End Normalizer.

Import Normalizer.

(** ** Similarity: [difflib.SequenceMatcher(None, a, b).ratio()] and the
    analyser's [score_similarity] *)

Module Difflib.

Definition count_char (x : ascii) (b : text) : nat :=
  length (filter (fun y => ascii_eqb x y = true) b).

(** [__chain_b]: with [autojunk] on, an element of a [b] of 200 or more
    elements that occurs more than [n // 100 + 1] times is "popular" and
    loses its index list.  No junk predicate is given. *)
Definition popular (b : text) (x : ascii) : bool :=
  (200 <=? length b)%nat && (length b / 100 + 1 <? count_char x b)%nat.

Fixpoint indices_from (i : nat) (x : ascii) (b : text) : list nat :=
  match b with
  | [] => []
  | y :: b' => if ascii_eqb x y then i :: indices_from (S i) x b'
               else indices_from (S i) x b'
  end.

Definition b2j (b : text) (x : ascii) : list nat :=
  if popular b x then [] else indices_from 0 x b.

Fixpoint j2len_get (j : nat) (m : list (nat * nat)) : nat :=
  match m with
  | [] => 0
  | (j', k) :: m' => if (j' =? j)%nat then k else j2len_get j m'
  end.

Record best : Type := MkBest { besti : nat; bestj : nat; bestsize : nat }.

(** The inner [for j in b2j.get(a[i], nothing)] of [find_longest_match]. *)
Fixpoint scan_j (i blo bhi : nat) (j2len : list (nat * nat)) (js : list nat)
  (newj2len : list (nat * nat)) (bst : best) : list (nat * nat) * best :=
  match js with
  | [] => (newj2len, bst)
  | j :: js' =>
    if (j <? blo)%nat then scan_j i blo bhi j2len js' newj2len bst
    else if (bhi <=? j)%nat then (newj2len, bst)
    else
      let k := S (match j with O => 0 | S j' => j2len_get j' j2len end) in
      let bst' := if (bestsize bst <? k)%nat then MkBest (i + 1 - k) (j + 1 - k) k else bst in
      scan_j i blo bhi j2len js' ((j, k) :: newj2len) bst'
  end.

(** The outer [for i in range(alo, ahi)]. *)
Fixpoint scan_i (a b : text) (blo bhi : nat) (is_ : list nat)
  (j2len : list (nat * nat)) (bst : best) : best :=
  match is_ with
  | [] => bst
  | i :: is' =>
    match nth_error a i with
    | Some x =>
      let '(newj2len, bst') := scan_j i blo bhi j2len (b2j b x) [] bst in
      scan_i a b blo bhi is' newj2len bst'
    | None => bst
    end
  end.

Definition same_at (a b : text) (i j : nat) : bool :=
  match nth_error a i, nth_error b j with
  | Some x, Some y => ascii_eqb x y
  | _, _ => false
  end.

(** First extension loop: grow the block to the left. *)
Fixpoint extend_left (n : nat) (a b : text) (alo blo : nat) (bst : best) : best :=
  match n with
  | O => bst
  | S n' =>
    if (alo <? besti bst)%nat && (blo <? bestj bst)%nat
       && same_at a b (besti bst - 1) (bestj bst - 1)
    then extend_left n' a b alo blo
           (MkBest (besti bst - 1) (bestj bst - 1) (S (bestsize bst)))
    else bst
  end.

(** Second extension loop: grow the block to the right. *)
Fixpoint extend_right (n : nat) (a b : text) (ahi bhi : nat) (bst : best) : best :=
  match n with
  | O => bst
  | S n' =>
    if (besti bst + bestsize bst <? ahi)%nat && (bestj bst + bestsize bst <? bhi)%nat
       && same_at a b (besti bst + bestsize bst) (bestj bst + bestsize bst)
    then extend_right n' a b ahi bhi (MkBest (besti bst) (bestj bst) (S (bestsize bst)))
    else bst
  end.

(** [find_longest_match(alo, ahi, blo, bhi)]; the two loops over junk never
    run, the junk set being empty. *)
Definition find_longest_match (a b : text) (alo ahi blo bhi : nat) : best :=
  let bst := scan_i a b blo bhi (seq alo (ahi - alo)) [] (MkBest alo blo 0) in
  let bst := extend_left (length a) a b alo blo bst in
  extend_right (length a) a b ahi bhi bst.

(** [get_matching_blocks], as far as [ratio] needs it: the total size of the
    blocks found while the queue of windows is emptied. *)
Fixpoint matches_go (n : nat) (a b : text) (queue : list (nat * nat * nat * nat))
  (total : nat) : nat :=
  match n with
  | O => total
  | S n' =>
    match queue with
    | [] => total
    | (alo, ahi, blo, bhi) :: queue' =>
      let m := find_longest_match a b alo ahi blo bhi in
      let i := besti m in let j := bestj m in let k := bestsize m in
      if (0 <? k)%nat then
        let q1 := if (alo <? i)%nat && (blo <? j)%nat
                  then (alo, i, blo, j) :: queue' else queue' in
        let q2 := if (i + k <? ahi)%nat && (j + k <? bhi)%nat
                  then (i + k, ahi, j + k, bhi) :: q1 else q1 in
        matches_go n' a b q2 (total + k)
      else matches_go n' a b queue' total
    end
  end.

Definition matches (a b : text) : nat :=
  matches_go (2 * length a + 2) a b [(0, length a, 0, length b)]%nat 0.

(** [_calculate_ratio(matches, len(a) + len(b))]:
    [2.0 * matches / length] if [length], else [1.0] *)
Definition ratio (a b : text) : Q :=
  let len := (length a + length b)%nat in
  if (len =? 0)%nat then 1%Q
  else fdiv (fmul (double 2) (of_nat (matches a b))) (of_nat len).

End Difflib.

Module Analyzer.

(** [score_similarity(a, b)] of [analyze_tv_mapping.py] *)
Definition score_similarity (a b : text) : Q :=
  let at_ := split_ws a in
  let bt := split_ws b in
  match at_, bt with
  | [], _ | _, [] => 0%Q
  | _, _ =>
    let sa : gset text := list_to_set at_ in
    let sb : gset text := list_to_set bt in
    let inter := size (sa ∩ sb) in
    let union := size (sa ∪ sb) in
    if (union =? 0)%nat then 0%Q
    else (inject_Z (Z.of_nat inter) / inject_Z (Z.of_nat union))%Q
  end.

End Analyzer.

Module AnalyzerQueries.

(** The query list of [analyze_tv_mapping.main]:
    [for q in [name, title_base]:
       if q and q.lower() not in [qq.lower() for qq in queries]: queries.append(q)] *)
Definition add_query (queries : list text) (q : text) : list text :=
  match q with
  | [] => queries
  | _ => if existsb (text_eqb (lower q)) (map lower queries) then queries
         else queries ++ [q]
  end.

Definition queries (name : text) : list text :=
  fold_left add_query [name; base_title name] [].

(** The base score of [analyze_tv_mapping.main]:
    [max(score_similarity(nml, tmdb_norm_full), score_similarity(nml, tmdb_norm_base))] *)
Definition pymax (x y : Q) : Q := if Qle_bool y x then x else y.

Definition base_score (name cand_title : text) : Q :=
  let tmdb_norm_full := normalize_title name in
  let tmdb_norm_base := normalize_title (base_title name) in
  let nml := normalize_title cand_title in
  pymax (Analyzer.score_similarity nml tmdb_norm_full)
        (Analyzer.score_similarity nml tmdb_norm_base).

End AnalyzerQueries.

(** ** The series resolver [resolve_tmdb_tv_to_mlbd_url] *)

Module Resolver.

Import Difflib.

Definition pymax (x y : Q) : Q := AnalyzerQueries.pymax x y.

(** [x < y] and [x >= y] on floats. *)
Definition Qltb (x y : Q) : bool := negb (Qle_bool y x).
Definition Qgeb (x y : Q) : bool := Qle_bool y x.

(** A search page as BeautifulSoup hands it over: the [div.movie-card]
    elements in document order, each with its [a.title] (if any), that
    anchor's [href] attribute (if any) and stripped text, and the stripped
    text of its [span.type] (if any). *)
Record anchor : Type := MkAnchor { a_href : option text; a_text : text }.
Record card : Type := MkCard { card_a : option anchor; card_type : option text }.

Inductive response : Type :=
| FetchError
| Page (status_code : Z) (cards : list card).

(** What [session.get] answers for a mirror and a query. *)
Definition world := text -> text -> response.

Record candidate : Type := MkCandidate {
  href : text;
  score : Q;
  is_series : bool;
  title : text;
  season_match : bool;
  found_season : option Z
}.

Inductive event : Type :=
| ENoTitle
| ESearching (query : text)
| EFetch (host query : text)
| EHostError
| EBadStatus (status_code : Z)
| ENoCandidates (host : text)
| EFound (n : nat) (host : text)
| EBest (c : candidate)
| EImmediate (link : text)
| ENoBest
| EFinalPick (c : candidate)
| ELowScore (link : text)
| EReturning (link : text)
| EException.

Definition search_hosts : list text :=
  [T "https://moviexp.movielinkbd.sbs"; T "https://movielinkbd.shop"].

(** [[q for q in [tmdb_title, title_base] if q]] *)
Definition query_variants (tmdb_title : text) : list text :=
  filter (fun q => negb (text_eqb q []) = true) [tmdb_title; base_title tmdb_title].

(** [r"\b\d+\s*[-–]\s*\d+\b"] *)
Definition batch_re : regex :=
  rseqs [RWordB; rplus digit; RStar space; RAlt (lit_char "-") (lit (T "–"));
         RStar space; rplus digit; RWordB].

(** [r"\bs\s*\d+\b"] *)
Definition season_block_re : regex :=
  rseqs [RWordB; lit (T "s"); RStar space; rplus digit; RWordB].

(** The season-number pattern: a non-capturing alternative, [season\s*] or
    [s\s*], followed by the capturing group [(\d+)]. *)
Definition season_num_re : regex :=
  RSeq (RAlt (RSeq (lit (T "season")) (RStar space)) (RSeq (lit (T "s")) (RStar space)))
       (RGroup 1 (rplus digit)).

Definition is_match (r : regex) (s : text) : bool :=
  match search r s with Some _ => true | None => false end.

Definition has_episode_batch (title_lower : text) : bool :=
  contains (T "episode") title_lower && is_match batch_re title_lower.

Definition has_season_block (title_lower : text) : bool :=
  contains (T "season") title_lower || is_match season_block_re title_lower.

Definition is_bangla_dubbed (title_lower : text) : bool :=
  contains (T "bangla") title_lower || contains (T "বাংলা") title_lower.

(** What the search for the season-number pattern and
    [int(season_match_obj.group(1))] give: no match, the number, or the
    [ValueError] of [int]. *)
Inductive parsed : Type :=
| NoNumber
| Number (found_season : Z)
| ValueError.

Definition season_number (title_lower : text) : parsed :=
  match search season_num_re title_lower with
  | Some m => match group 1 (m_groups m) with
              | Some d => match int_of_digits d with
                          | Some n => Number n
                          | None => ValueError
                          end
              | None => NoNumber
              end
  | None => NoNumber
  end.

(** [type_span.get_text(strip=True).lower() == 'series' if type_span
     else '/series/' in href] *)
Definition is_series_type (type_span : option text) (link : text) : bool :=
  match type_span with
  | Some t => text_eqb (lower t) (T "series")
  | None => contains (T "/series/") link
  end.

(** [max(score_full, score_base)] over the two [SequenceMatcher] ratios. *)
Definition base_score (norm_tmdb_full norm_tmdb_base mlbd_title : text) : Q :=
  let norm_mlbd := normalize_title mlbd_title in
  pymax (ratio norm_mlbd norm_tmdb_full) (ratio norm_mlbd norm_tmdb_base).

(** The season-aware part of the scoring, from [season_match = False] to
    the end of [if has_season_block: ... else: ...]: the score, [season_match],
    [season_penalty] and the local variable [found_season]; [None] when
    [int] raises. *)
Definition season_step (season : Z) (title_lower : text) (score : Q)
  (fs_local : option Z) : option (Q * bool * Q * option Z) :=
  if has_season_block title_lower then
    match season_number title_lower with
    | Number found_season =>
      if (found_season =? season)%Z
      then Some (fadd score (double 0.15), true, 0%Q, Some found_season)
      else Some (score, false, double 0.2, Some found_season)
    | NoNumber => Some (fadd score (double 0.05), false, 0%Q, fs_local)
    | ValueError => None
    end
  else
    if (season =? 1)%Z && is_bangla_dubbed title_lower
    then Some (fadd score (double 0.1), false, 0%Q, fs_local)
    else Some (fadd score (double 0.02), false, 0%Q, fs_local).

(** The body of the card loop from [mlbd_title = ...] to
    [candidates.append(...)]: the score is updated statement by statement as
    in the source.  [fs_local] is the local variable [found_season], which
    keeps its value from one card to the next once it has been assigned.
    [None] is the [ValueError] of [int]. *)
Definition score_card (norm_tmdb_full norm_tmdb_base : text) (season : Z)
  (host : text) (fs_local : option Z) (link mlbd_title : text)
  (type_span : option text) : option (candidate * option Z) :=
  let score := base_score norm_tmdb_full norm_tmdb_base mlbd_title in
  let is_series_type := is_series_type type_span link in
  let title_lower := lower mlbd_title in
  let has_episode_batch := has_episode_batch title_lower in
  let has_season_block := has_season_block title_lower in
  match season_step season title_lower score fs_local with
  | None => None
  | Some (score, season_match, season_penalty, fs_local) =>
    let score := if is_series_type then fadd score (double 0.05) else score in
    let score := if has_season_block && negb season_match
                 then fadd score (double 0.03) else score in
    let score := if has_episode_batch then fsub score (double 0.07) else score in
    let score := fsub score season_penalty in
    Some (MkCandidate (if startswith (T "http") link then link else host ++ link)
                      score
                      (contains (T "/series/") link || is_series_type)
                      mlbd_title
                      season_match
                      fs_local,
          fs_local)
  end.

(** The sort key [(not c['is_series'], -c['score'])], compared as tuples. *)
Definition key_lt (c d : candidate) : bool :=
  let kc := negb (is_series c) in
  let kd := negb (is_series d) in
  if Bool.eqb kc kd then Qltb (- score c) (- score d)
  else negb kc && kd.

(** [list.sort] is stable: an element goes past those with a strictly
    smaller key only. *)
Fixpoint insert_sorted (c : candidate) (l : list candidate) : list candidate :=
  match l with
  | [] => [c]
  | d :: l' => if key_lt d c then d :: insert_sorted c l' else c :: d :: l'
  end.

Definition sort_candidates (l : list candidate) : list candidate :=
  fold_right insert_sorted [] l.

Record state : Type := MkState {
  soup : option (list card);
  candidates : list candidate;
  fs_local : option Z;
  best_overall : option candidate;
  log : list event
}.

Definition emit (e : event) (st : state) : state :=
  MkState (soup st) (candidates st) (fs_local st) (best_overall st) (log st ++ [e]).

(** One turn of [for host in search_hosts]. *)
Definition host_step (w : world) (query : text) (st : state) (host : text) : state :=
  let st := emit (EFetch host query) st in
  match w host query with
  | FetchError => emit EHostError st
  | Page status_code cards =>
    if (status_code =? 200)%Z
    then MkState (Some cards) [] (fs_local st) (best_overall st) (log st)
    else emit (EBadStatus status_code) st
  end.

(** The loop variable [host] once the host loop is over. *)
Definition last_host : text := List.last search_hosts [].

Inductive flow : Type :=
| Go (st : state)
| Stop (result : option text) (events : list event).

(** [best_overall is None or (best is series and best_overall is not) or
     best.score > best_overall.score] *)
Definition replaces (best : candidate) (best_overall : option candidate) : bool :=
  match best_overall with
  | None => true
  | Some bo => (is_series best && negb (is_series bo)) || Qltb (score bo) (score best)
  end.

(** One turn of [for card in soup.find_all('div', class_='movie-card')]. *)
Definition card_step (norm_tmdb_full norm_tmdb_base : text) (season : Z)
  (st : state) (c : card) : flow :=
  match card_a c with
  | None => Go st
  | Some a =>
    let link := match a_href a with Some h => h | None => [] end in
    match link with
    | [] => Go st
    | _ =>
      match score_card norm_tmdb_full norm_tmdb_base season last_host (fs_local st)
                       link (a_text a) (card_type c) with
      | None => Stop None (log st ++ [EException])
      | Some (cand, fs) =>
        let cands := candidates st ++ [cand] in
        match cands with
        | [] => Go (emit (ENoCandidates last_host)
                         (MkState (soup st) cands fs (best_overall st) (log st)))
        | _ =>
          let cands := sort_candidates cands in
          match cands with
          | [] => Stop None (log st ++ [EException])
          | best :: _ =>
            let st := MkState (soup st) cands fs (best_overall st)
                              (log st ++ [EFound (length cands) last_host; EBest best]) in
            if is_series best && Qgeb (score best) (double 0.65)
            then Stop (Some (href best)) (log st ++ [EImmediate (href best)])
            else if replaces best (best_overall st)
                 then Go (MkState (soup st) (candidates st) (fs_local st) (Some best)
                                  (log st))
                 else Go st
          end
        end
      end
    end
  end.

Fixpoint card_loop (norm_tmdb_full norm_tmdb_base : text) (season : Z)
  (st : state) (cards : list card) : flow :=
  match cards with
  | [] => Go st
  | c :: cards' =>
    match card_step norm_tmdb_full norm_tmdb_base season st c with
    | Go st' => card_loop norm_tmdb_full norm_tmdb_base season st' cards'
    | Stop r ev => Stop r ev
    end
  end.

(** One turn of [for query in query_variants]: the host loop runs to its
    end, then the card loop runs over the [soup] left by the last mirror that
    answered 200.  With [soup] never assigned the card loop raises
    [NameError], which the enclosing [try] turns into [None], as it does with
    the [ValueError] of a card. *)
Definition query_step (w : world) (norm_tmdb_full norm_tmdb_base : text) (season : Z)
  (st : state) (query : text) : flow :=
  let st := emit (ESearching query) st in
  let st := fold_left (host_step w query) search_hosts st in
  match soup st with
  | None => Stop None (log st ++ [EException])
  | Some cards => card_loop norm_tmdb_full norm_tmdb_base season st cards
  end.

Fixpoint query_loop (w : world) (norm_tmdb_full norm_tmdb_base : text) (season : Z)
  (st : state) (qs : list text) : flow :=
  match qs with
  | [] => Go st
  | q :: qs' =>
    match query_step w norm_tmdb_full norm_tmdb_base season st q with
    | Go st' => query_loop w norm_tmdb_full norm_tmdb_base season st' qs'
    | Stop r ev => Stop r ev
    end
  end.

(** The end of the function, after the loops. *)
Definition finish (st : state) : option text * list event :=
  match best_overall st with
  | None => (None, log st ++ [ENoBest])
  | Some bo =>
    if Qltb (score bo) (double 0.50)
    then (Some (href bo), log st ++ [EFinalPick bo; ELowScore (href bo)])
    else (Some (href bo), log st ++ [EFinalPick bo; EReturning (href bo)])
  end.

(** The metadata answer of [tmdb_get]: the fields [name] and
    [original_name], each possibly missing. *)
Record tv_data : Type := MkTv { tv_name : option text; tv_original_name : option text }.

Definition truthy (o : option text) : bool :=
  match o with Some (_ :: _) => true | _ => false end.

(** [(data.get('name') or data.get('original_name') or '').strip()] *)
Definition tmdb_title_of (data : tv_data) : text :=
  strip (if truthy (tv_name data) then default [] (tv_name data)
         else if truthy (tv_original_name data) then default [] (tv_original_name data)
         else []).

Definition init_state : state := MkState None [] None None [].

Definition resolve_tmdb_tv_to_mlbd_url (data : tv_data) (w : world)
  (season episode : Z) : option text * list event :=
  let tmdb_title := tmdb_title_of data in
  match tmdb_title with
  | [] => (None, [ENoTitle])
  | _ =>
    let title_base := base_title tmdb_title in
    let norm_tmdb_full := normalize_title tmdb_title in
    let norm_tmdb_base := normalize_title title_base in
    match query_loop w norm_tmdb_full norm_tmdb_base season init_state
                     (query_variants tmdb_title) with
    | Stop r ev => (r, ev)
    | Go st => finish st
    end
  end.

End Resolver.

(** ** [hashlib.md5(...).hexdigest()] *)

Module Md5.

Local Open Scope Z_scope.

Definition mask32 : Z := 0xffffffff.
Definition add32 (x y : Z) : Z := Z.land (x + y) mask32.
Definition not32 (x : Z) : Z := Z.lxor x mask32.
Definition rotl32 (x : Z) (c : Z) : Z :=
  Z.land (Z.lor (Z.shiftl x c) (Z.shiftr x (32 - c))) mask32.

Definition K : list Z :=
  [0xd76aa478; 0xe8c7b756; 0x242070db; 0xc1bdceee;
   0xf57c0faf; 0x4787c62a; 0xa8304613; 0xfd469501;
   0x698098d8; 0x8b44f7af; 0xffff5bb1; 0x895cd7be;
   0x6b901122; 0xfd987193; 0xa679438e; 0x49b40821;
   0xf61e2562; 0xc040b340; 0x265e5a51; 0xe9b6c7aa;
   0xd62f105d; 0x02441453; 0xd8a1e681; 0xe7d3fbc8;
   0x21e1cde6; 0xc33707d6; 0xf4d50d87; 0x455a14ed;
   0xa9e3e905; 0xfcefa3f8; 0x676f02d9; 0x8d2a4c8a;
   0xfffa3942; 0x8771f681; 0x6d9d6122; 0xfde5380c;
   0xa4beea44; 0x4bdecfa9; 0xf6bb4b60; 0xbebfbc70;
   0x289b7ec6; 0xeaa127fa; 0xd4ef3085; 0x04881d05;
   0xd9d4d039; 0xe6db99e5; 0x1fa27cf8; 0xc4ac5665;
   0xf4292244; 0x432aff97; 0xab9423a7; 0xfc93a039;
   0x655b59c3; 0x8f0ccc92; 0xffeff47d; 0x85845dd1;
   0x6fa87e4f; 0xfe2ce6e0; 0xa3014314; 0x4e0811a1;
   0xf7537e82; 0xbd3af235; 0x2ad7d2bb; 0xeb86d391].

Definition shifts : list Z :=
  [7; 12; 17; 22; 7; 12; 17; 22; 7; 12; 17; 22; 7; 12; 17; 22;
   5; 9; 14; 20; 5; 9; 14; 20; 5; 9; 14; 20; 5; 9; 14; 20;
   4; 11; 16; 23; 4; 11; 16; 23; 4; 11; 16; 23; 4; 11; 16; 23;
   6; 10; 15; 21; 6; 10; 15; 21; 6; 10; 15; 21; 6; 10; 15; 21].

Definition nthZ (l : list Z) (i : Z) : Z := nth (Z.to_nat i) l 0.

(** Little-endian bytes of the low [n] bytes of [x]. *)
Fixpoint le_bytes (n : nat) (x : Z) : list Z :=
  match n with
  | O => []
  | S n' => Z.land x 0xff :: le_bytes n' (Z.shiftr x 8)
  end.

Fixpoint le_word (bs : list Z) : Z :=
  match bs with
  | [] => 0
  | b :: bs' => Z.lor b (Z.shiftl (le_word bs') 8)
  end.

(** The message, the bit [1], zeros up to 56 modulo 64, the bit length on
    eight bytes. *)
Definition pad (msg : list Z) : list Z :=
  let len := Z.of_nat (length msg) in
  let zeros := Z.to_nat ((55 - len) mod 64) in
  msg ++ [0x80] ++ repeat 0 zeros ++ le_bytes 8 (Z.land (len * 8) 0xffffffffffffffff).

Fixpoint words (n : nat) (bs : list Z) : list Z :=
  match n with
  | O => []
  | S n' => le_word (firstn 4 bs) :: words n' (skipn 4 bs)
  end.

Definition round (M : list Z) (st : Z * Z * Z * Z) (i : Z) : Z * Z * Z * Z :=
  let '(A, B, C, D) := st in
  let '(F, g) :=
    if i <? 16 then (Z.lor (Z.land B C) (Z.land (not32 B) D), i)
    else if i <? 32 then (Z.lor (Z.land D B) (Z.land (not32 D) C), (5 * i + 1) mod 16)
    else if i <? 48 then (Z.lxor (Z.lxor B C) D, (3 * i + 5) mod 16)
    else (Z.lxor C (Z.lor B (not32 D)), (7 * i) mod 16) in
  let F := add32 (add32 (add32 F A) (nthZ K i)) (nthZ M g) in
  (D, add32 B (rotl32 F (nthZ shifts i)), B, C).

Definition chunk (h : Z * Z * Z * Z) (bs : list Z) : Z * Z * Z * Z :=
  let M := words 16 bs in
  let '(a0, b0, c0, d0) := h in
  let '(A, B, C, D) := fold_left (round M) (map Z.of_nat (seq 0 64)) h in
  (add32 a0 A, add32 b0 B, add32 c0 C, add32 d0 D).

Fixpoint chunks (n : nat) (h : Z * Z * Z * Z) (bs : list Z) : Z * Z * Z * Z :=
  match n with
  | O => h
  | S n' =>
    match bs with
    | [] => h
    | _ => chunks n' (chunk h (firstn 64 bs)) (skipn 64 bs)
    end
  end.

Definition digest (msg : list Z) : list Z :=
  let bs := pad msg in
  let '(a, b, c, d) :=
    chunks (length bs) (0x67452301, 0xefcdab89, 0x98badcfe, 0x10325476) bs in
  le_bytes 4 a ++ le_bytes 4 b ++ le_bytes 4 c ++ le_bytes 4 d.

Definition hex_digit (d : Z) : ascii :=
  ascii_of_N (Z.to_N (if d <? 10 then 48 + d else 87 + d)).

Definition hex_byte (b : Z) : text := [hex_digit (Z.shiftr b 4); hex_digit (Z.land b 0xf)].

(** [hashlib.md5(s.encode()).hexdigest()]; a [text] is already its UTF-8
    bytes. *)
Definition md5_hex (s : text) : text :=
  concat (map hex_byte (digest (map (fun c => Z.of_N (code c)) s))).

End Md5.

(** ** The caches *)

Module Cache.

(** [search_cache_ttl] and [video_cache_ttl] *)
Definition search_cache_ttl : Q := 1800%Q.
Definition video_cache_ttl : Q := 7200%Q.

(** [get_cache_key(query, host=None)]: [f"{query}:{host}" if host else query],
    hashed. *)
Definition key_string (query : text) (host : option text) : text :=
  match host with
  | Some (c :: h) => query ++ T ":" ++ (c :: h)
  | _ => query
  end.

Definition get_cache_key (query : text) (host : option text) : text :=
  Md5.md5_hex (key_string query host).

Section WithPayload.

(** The cached dictionary ([Dict[str, Any]]). *)
Context {payload : Type}.

(** [{'data': data, 'timestamp': time.time()}] *)
Record entry : Type := MkEntry { data : payload; timestamp : Q }.

(** [get_cached_search_result(cache_key)], with the clock read [now] and the
    global [search_cache] passed in and out. *)
Definition get_cached_search_result (now : Q) (cache_key : text)
  (search_cache : gmap text entry) : option payload * gmap text entry :=
  match search_cache !! cache_key with
  | Some cached_data =>
    if Resolver.Qltb (now - timestamp cached_data)%Q search_cache_ttl
    then (Some (data cached_data), search_cache)
    else (None, delete cache_key search_cache)
  | None => (None, search_cache)
  end.

(** [cache_search_result(cache_key, data)] *)
Definition cache_search_result (now : Q) (cache_key : text) (d : payload)
  (search_cache : gmap text entry) : gmap text entry :=
  <[cache_key := MkEntry d now]> search_cache.

End WithPayload.

Arguments entry : clear implicits.

End Cache.

(** ** The gate page: from the getWatch response to the final URL *)

Module Gate.

(** The getWatch response as the code looks at it: its status, its final
    URL, the [content] attribute of the first [meta http-equiv=refresh] (if
    there is such a tag, and if it has the attribute), and the [.string] of
    each [script] element in document order. *)
Record gate_page : Type := MkGate {
  status_code : Z;
  url : text;
  meta_refresh : option (option text);
  scripts : list (option text)
}.

Inductive outcome : Type :=
| Failure (error : text)
| ScrapeVideoPage (watch_url : text).

Definition truthy (o : option text) : bool :=
  match o with Some (_ :: _) => true | _ => false end.

(** [content.split('url=')[1]] when ['url=' in content] *)
Definition meta_target (page : gate_page) : option text :=
  match meta_refresh page with
  | Some c =>
    let content := default [] c in
    if contains (T "url=") content
    then nth_error (split_sep (T "url=") content) 1
    else None
  | None => None
  end.

Definition dq : ascii := Ascii.ascii_of_nat 34.
Definition sq : ascii := Ascii.ascii_of_nat 39.

(** The pattern of the series path: a double-quoted string holding [watch]
    or [episode] (groups 1 and 2), or a single-quoted one (groups 3 and 4). *)
Definition series_script_re : regex :=
  RAlt
    (rseqs [lit_char dq;
            RGroup 1 (rseqs [RStar (none_of [dq]);
                             RGroup 2 (RAlt (lit (T "watch")) (lit (T "episode")));
                             RStar (none_of [dq])]);
            lit_char dq])
    (rseqs [lit_char sq;
            RGroup 3 (rseqs [RStar (none_of [sq]);
                             RGroup 4 (RAlt (lit (T "watch")) (lit (T "episode")));
                             RStar (none_of [sq])]);
            lit_char sq]).

(** The pattern of the movie path: either quote, a string without quotes
    holding [watch] (group 1), either quote. *)
Definition movie_script_re : regex :=
  rseqs [one_of [dq; sq];
         RGroup 1 (rseqs [RStar (none_of [dq; sq]); lit (T "watch");
                          RStar (none_of [dq; sq])]);
         one_of [dq; sq]].

Definition navigates (s : text) : bool :=
  contains (T "window.location") s || contains (T "location.href") s.

(** [m.group(1) or m.group(3)] *)
Definition group_1_or_3 (g : groups) : option text :=
  if truthy (group 1 g) then group 1 g else group 3 g.

(** The script loop of the series path; it stops at the first script that
    navigates and holds a match. *)
Fixpoint series_script_target (ss : list (option text)) : option text :=
  match ss with
  | [] => None
  | s :: ss' =>
    if truthy s && navigates (default [] s) then
      match search series_script_re (default [] s) with
      | Some m => group_1_or_3 (m_groups m)
      | None => series_script_target ss'
      end
    else series_script_target ss'
  end.

(** The script loop of the movie path. *)
Fixpoint movie_script_target (ss : list (option text)) : option text :=
  match ss with
  | [] => None
  | s :: ss' =>
    if truthy s && navigates (default [] s) then
      match search movie_script_re (default [] s) with
      | Some m => group 1 (m_groups m)
      | None => movie_script_target ss'
      end
    else movie_script_target ss'
  end.

Definition absolute (base_host watch_url : text) : text :=
  if startswith (T "http") watch_url then watch_url else base_host ++ watch_url.

(** [scrape_series_episode_for_watch_url], from the getWatch response on. *)
Definition series_gate (base_host : text) (page : gate_page) : outcome :=
  if negb (status_code page =? 200)%Z
  then Failure (T "Failed to load getWatch page: " ++ T (pretty (status_code page)))
  else
    let watch_url : option text := None in
    let watch_url := match meta_target page with Some u => Some u | None => watch_url end in
    let watch_url :=
      if negb (truthy watch_url)
      then match series_script_target (scripts page) with
           | Some u => Some u
           | None => watch_url
           end
      else watch_url in
    let watch_url :=
      if negb (truthy watch_url)
         && (contains (T "/watch/") (url page) || contains (T "/episode/") (url page))
      then Some (url page) else watch_url in
    if negb (truthy watch_url)
    then Failure (T "Could not resolve final watch URL")
    else ScrapeVideoPage (absolute base_host (default [] watch_url)).

(** [scrape_movie_page_for_watch_url], from the getWatch response on. *)
Definition movie_gate (page : gate_page) : outcome :=
  if negb (status_code page =? 200)%Z
  then Failure (T "Failed to load getWatch page: " ++ T (pretty (status_code page)))
  else
    let watch_url : option text := None in
    let watch_url := match meta_target page with Some u => Some u | None => watch_url end in
    let watch_url :=
      match movie_script_target (scripts page) with
      | Some u => Some u
      | None => watch_url
      end in
    let watch_url :=
      if negb (truthy watch_url) && contains (T "/watch/") (url page)
      then Some (url page) else watch_url in
    if negb (truthy watch_url)
    then Failure (T "Could not find actual watch URL from getWatch page")
    else ScrapeVideoPage (absolute (T "https://playk8.movielinkbd.sbs") (default [] watch_url)).

End Gate.

(** ** The statements of the specification, in its own words *)

Module Spec.

Import Resolver.

(** Token-set overlap ratio: intersection size divided by union size. *)
Definition token_set (s : text) : gset text := list_to_set (split_ws s).

Definition overlap_ratio (A B : gset text) : Q :=
  (inject_Z (Z.of_nat (size (A ∩ B))) / inject_Z (Z.of_nat (size (A ∪ B))))%Q.

Definition larger (x y : Q) : Q := if Qlt_le_dec x y then y else x.

(** The base score as the specification words it: the overlap ratio against
    the normalized full title, the one against the normalized base title, and
    the larger of the two. *)
Definition claimed_base_score (name cand_title : text) : Q :=
  let cand := token_set (normalize_title cand_title) in
  larger (overlap_ratio cand (token_set (normalize_title name)))
         (overlap_ratio cand (token_set (normalize_title (base_title name)))).

(** The policy table of the adjustments.  The cases of the season
    handling, for a title whose season number [int] accepts: *)
Inductive season_case : Type :=
| SeasonMatches
| SeasonDiffers
| SeasonUnparsed
| NoSeasonBlock.

Definition classify (season : Z) (title_lower : text) : option season_case :=
  if has_season_block title_lower then
    match season_number title_lower with
    | Number n => Some (if (n =? season)%Z then SeasonMatches else SeasonDiffers)
    | NoNumber => Some SeasonUnparsed
    | ValueError => None
    end
  else Some NoSeasonBlock.

Definition series_bonus (series : bool) : Q := if series then 0.05%Q else 0%Q.

Definition season_bonus (k : season_case) (season : Z) (title_lower : text) : Q :=
  match k with
  | SeasonMatches => 0.15%Q
  | SeasonDiffers => 0%Q
  | SeasonUnparsed => 0.05%Q
  | NoSeasonBlock =>
    if (season =? 1)%Z && is_bangla_dubbed title_lower then 0.10%Q else 0.02%Q
  end.

Definition season_penalty (k : season_case) : Q :=
  match k with
  | SeasonDiffers => 0.2%Q
  | _ => 0%Q
  end.

Definition block_bonus (k : season_case) : Q :=
  match k with
  | SeasonDiffers | SeasonUnparsed => 0.03%Q
  | _ => 0%Q
  end.

Definition batch_malus (title_lower : text) : Q :=
  if contains (T "episode") title_lower && is_match batch_re title_lower
  then 0.07%Q else 0%Q.

(** The adjusted score as the specification words it: the base score plus
    the adjustments, the series bonus going to a candidate that is flagged as
    a series. *)
Definition claimed_score (base : Q) (flagged_series : bool) (k : season_case)
  (season : Z) (title_lower : text) : Q :=
  (base + series_bonus flagged_series + season_bonus k season title_lower
   + block_bonus k - batch_malus title_lower - season_penalty k)%Q.

(** The same table as the code applies it: one float operation for each
    adjustment that applies, in this order; the recorded season penalty, which
    may be zero, is subtracted at the end. *)
Inductive adjustment : Type :=
| Plus (literal : Q)
| Minus (literal : Q).

Definition adjust (score : Q) (a : adjustment) : Q :=
  match a with
  | Plus literal => fadd score (double literal)
  | Minus literal => fsub score (double literal)
  end.

Definition adjustments (k : season_case) (series_type : bool) (season : Z)
  (title_lower : text) : list adjustment :=
  match k with
  | SeasonDiffers => []
  | _ => [Plus (season_bonus k season title_lower)]
  end
  ++ (if series_type then [Plus 0.05%Q] else [])
  ++ match k with
     | SeasonDiffers | SeasonUnparsed => [Plus 0.03%Q]
     | _ => []
     end
  ++ (if contains (T "episode") title_lower && is_match batch_re title_lower
      then [Minus 0.07%Q] else []).

Definition recorded_penalty (k : season_case) : Q :=
  match k with
  | SeasonDiffers => double 0.2
  | _ => 0%Q
  end.

(** The first strategy that yields a non-empty URL. *)
Fixpoint first_truthy (l : list (option text)) : option text :=
  match l with
  | [] => None
  | Some (c :: u) :: _ => Some (c :: u)
  | _ :: l' => first_truthy l'
  end.





End Spec.

(** ** Concrete inputs used below *)

Module Inputs.

Import Resolver.

Definition mirror1 : text := T "https://moviexp.movielinkbd.sbs".
Definition mirror2 : text := T "https://movielinkbd.shop".

Definition mk_card (link title type : string) : card :=
  MkCard (Some (MkAnchor (Some (T link)) (T title))) (Some (T type)).

Definition tv (name : string) : tv_data := MkTv (Some (T name)) None.

(** First mirror: one series entry "Dark"; second mirror: an empty listing. *)
Definition strong_hit_world : world := fun host _ =>
  if text_eqb host mirror1 then Page 200 [mk_card "/series/dark" "Dark" "Series"]
  else Page 200 [].

(** The full-title query lists a series "Dark Matter", the base-title query a
    movie "Dark". *)
Definition two_variant_world : world := fun _ query =>
  if text_eqb query (T "Dark: Origins")
  then Page 200 [mk_card "/series/dark-matter" "Dark Matter" "Series"]
  else Page 200 [mk_card "/movie/dark" "Dark" "Movie"].

(** Every query lists one movie "Zebra Crossing". *)
Definition weak_world : world := fun _ _ =>
  Page 200 [mk_card "/movie/zebra" "Zebra Crossing" "Movie"].

(** Every query lists the series "Breaking Bad Season 1". *)
Definition breaking_bad_world : world := fun _ _ =>
  Page 200 [mk_card "/series/breaking-bad" "Breaking Bad Season 1" "Series"].

(** Every query lists one entry, flagged as a series by its link, whose
    adjustments add up to 0.65 in exact arithmetic. *)
Definition near_threshold_world : world := fun _ _ =>
  Page 200 [mk_card "/series/boys" "boys boys wars Episode 1-8" "TV"].

(** A title whose season number has 4301 digits. *)
Definition long_season_title : text := T "Season " ++ repeat "1"%char 4301.

(** Every query lists the movie "Zebra Crossing" and then an entry with
    that title. *)
Definition long_season_world : world := fun _ _ =>
  Page 200 [mk_card "/movie/zebra" "Zebra Crossing" "Movie";
            MkCard (Some (MkAnchor (Some (T "/series/long")) long_season_title))
                   (Some (T "Series"))].


Definition refresh_gate : Gate.gate_page :=
  Gate.MkGate 200 (T "https://h.example/getWatch/1")
              (Some (Some (T "0;url=/watch/abc")))
              [Some (T "window.location.href = '/watch/xyz';")].

End Inputs.

(** ** Invariants of the resolver loops *)

Module Invariants.

Import Resolver.

(** The run has scored a candidate: the "best candidate" line, printed after
    each scored card, is in the log. *)
Definition scored (ev : list event) : Prop := exists c, In (EBest c) ev.

(** Once a candidate is scored there is a best overall, the best overall is
    one of the scored candidates, and a listing has been parsed. *)
Definition inv (st : state) : Prop :=
  (scored (log st) -> exists bo, best_overall st = Some bo)
  /\ (forall bo, best_overall st = Some bo -> In (EBest bo) (log st))
  /\ (scored (log st) -> soup st <> None).

(** An early exit that has scored a candidate is an immediate acceptance,
    unless an exception ended the run. *)
Definition stop_ok (r : option text) (ev : list event) : Prop :=
  scored ev -> ~ In EException ev ->
  exists c, In (EBest c) ev /\ r = Some (href c) /\ In (EImmediate (href c)) ev.

Definition flow_ok (f : flow) : Prop :=
  match f with
  | Go st => inv st
  | Stop r ev => stop_ok r ev
  end.

End Invariants.

(** ** The shape of a normalized title *)

Module Shape.

(** What [re.sub(r"[^a-z0-9\s]", " ", s)] does to one character. *)
Definition keep_or_space (c : ascii) : ascii := if kept_char c then c else " "%char.

(** What [re.sub(r"\s+", " ", s)] does: each run of white space becomes one
    space; [in_run] tells that the run has begun. *)
Fixpoint squeeze_go (in_run : bool) (s : text) : text :=
  match s with
  | [] => []
  | c :: s' =>
    if is_space c
    then if in_run then squeeze_go true s' else " "%char :: squeeze_go true s'
    else c :: squeeze_go false s'
  end.

Definition head_ok (s : text) : Prop :=
  match s with
  | c :: _ => is_space c = false
  | [] => True
  end.

Fixpoint no_adjacent (s : text) : Prop :=
  match s with
  | c :: s' =>
    match s' with
    | d :: _ => is_space c && is_space d = false
    | [] => True
    end /\ no_adjacent s'
  | [] => True
  end.

Definition plain_spaces (s : text) : Prop :=
  Forall (fun c => is_space c = true -> c = " "%char) s.

(** Lower-case letters, digits and single spaces, no space at either end. *)
Definition tidy (s : text) : Prop :=
  Forall (fun c => kept_char c = true) s
  /\ plain_spaces s /\ no_adjacent s /\ head_ok s /\ head_ok (rev s).

End Shape.

(** ** Further definitions used by the properties *)

Module Cut.

(** The text before the first character of a class. *)
Fixpoint before (p : ascii -> bool) (s : text) : text :=
  match s with
  | [] => []
  | c :: s' => if p c then [] else c :: before p s'
  end.

(** The separators of [base_title]. *)
Definition is_sep (c : ascii) : bool := existsb (ascii_eqb c) (T ":-(").

(** Hexadecimal digits as [hexdigest] writes them. *)
Definition is_hex (c : ascii) : bool := is_digit c || in_range 97 102 c.

End Cut.

Module Ranking.

Import Resolver.

(** A list in the order [list.sort] leaves it in: no element has a key
    strictly smaller than an element before it. *)
Fixpoint ranked (l : list candidate) : Prop :=
  match l with
  | [] => True
  | c :: l' => Forall (fun d => key_lt d c = false) l' /\ ranked l'
  end.

End Ranking.

(** ** The video cache *)

Module VideoCache.

Section WithPayload.

Context {payload : Type}.

(** [get_cached_video_result(cache_key)], with the clock read [now] and the
    global [video_cache] passed in and out. *)
Definition get_cached_video_result (now : Q) (cache_key : text)
  (video_cache : gmap text (Cache.entry payload))
  : option payload * gmap text (Cache.entry payload) :=
  match video_cache !! cache_key with
  | Some cached_data =>
    if Resolver.Qltb (now - Cache.timestamp cached_data)%Q Cache.video_cache_ttl
    then (Some (Cache.data cached_data), video_cache)
    else (None, delete cache_key video_cache)
  | None => (None, video_cache)
  end.

(** [cache_video_result(cache_key, data)] *)
Definition cache_video_result (now : Q) (cache_key : text) (d : payload)
  (video_cache : gmap text (Cache.entry payload)) : gmap text (Cache.entry payload) :=
  <[cache_key := Cache.MkEntry d now]> video_cache.

End WithPayload.

End VideoCache.

(** ** Reading the event log, and invariants of the loops in general *)

Module Trace.

Import Resolver.

(** The search requests of a run, as (mirror, query) pairs in order. *)
Fixpoint fetched (ev : list event) : list (text * text) :=
  match ev with
  | [] => []
  | EFetch host query :: ev' => (host, query) :: fetched ev'
  | _ :: ev' => fetched ev'
  end.

(** A property of the running state and a property of an early exit. *)
Definition holds (P : state -> Prop) (S : option text -> list event -> Prop)
  (f : flow) : Prop :=
  match f with
  | Go st => P st
  | Stop r ev => S r ev
  end.

Definition is_http (u : text) : Prop := startswith (T "http") u = true.

(** The log so far, of a running state or of an early exit. *)
Definition log_of (f : flow) : list event :=
  match f with
  | Go st => log st
  | Stop _ ev => ev
  end.

(** Both mirrors, in the order of [search_hosts], for one query. *)
Definition both_mirrors (query : text) : list (text * text) :=
  map (fun host => (host, query)) search_hosts.

End Trace.

Module MoreInputs.

Import Resolver.

(** Both mirrors answer every query with status 503. *)
Definition down_world : world := fun _ _ => Page 503 [].

End MoreInputs.

(** ** The series landing page: which watch trigger is followed
    ([scrape_series_episode_for_watch_url], before the gate) *)

Module Landing.

(** An [a] or [button] element as the loop looks at it: its [href] and
    [onclick] attributes (if any), its stripped text, and the text of its
    parent (if it has one) with the pieces joined by a space. *)
Record element : Type := MkElement {
  el_href : option text;
  el_onclick : option text;
  el_text : text;
  el_parent_text : option text
}.

(** [sep.join(parts)] *)
Fixpoint join (sep : text) (parts : list text) : text :=
  match parts with
  | [] => []
  | [p] => p
  | p :: parts' => p ++ sep ++ join sep parts'
  end.

(** [' '.join(s.split())] *)
Definition one_spaced (s : text) : text := join (T " ") (split_ws s).

(** [str(n)] for an [int]. *)
Definition str (n : Z) : text := T (pretty n).

Definition season_tokens (season : Z) : list text :=
  [T "S" ++ str season; T "Season " ++ str season].

Definition episode_tokens (episode : Z) : list text :=
  [T "E" ++ str episode; T "Ep " ++ str episode; T "Episode " ++ str episode;
   T "EP" ++ str episode].

Definition lang_priority : list text :=
  map T ["Bangla"; "বাংলা"; "Bangla Dubbed"; "BD"; "Hindi"; "हिंदी"; "Hindi Dubbed";
         "English"]%string.

(** [(text + ' ' + container_text).lower()] *)
Definition block_text (e : element) : text :=
  lower (one_spaced (el_text e) ++ T " "
         ++ match el_parent_text e with
            | Some p => one_spaced p
            | None => []
            end).

(** The pattern [/getWatch/] followed by one or more characters that are
    not quotes. *)
Definition getwatch_re : regex :=
  RSeq (lit (T "/getWatch/")) (rplus (none_of [Gate.dq; Gate.sq])).

(** The value of [gw] for an element, [None] when it stays unset or empty. *)
Definition getwatch_of (e : element) : option text :=
  let href := default [] (el_href e) in
  let onclick := default [] (el_onclick e) in
  let gw :=
    if contains (T "/getWatch/") href then Some href
    else if contains (T "/getWatch/") onclick
         then match search getwatch_re onclick with
              | Some m => Some (m_text m)
              | None => None
              end
         else None in
  if Gate.truthy gw then gw else None.

(** [any(t.lower() in block_text for t in tokens)] *)
Definition any_token (tokens : list text) (block : text) : bool :=
  existsb (fun t => contains (lower t) block) tokens.

(** The loop over [enumerate(lang_priority)]: the index of the first token
    found, [len(lang_priority)] when none is. *)
Fixpoint first_token_index (idx : nat) (tokens : list text) (block : text) (none : nat)
  : nat :=
  match tokens with
  | [] => none
  | t :: tokens' =>
    if contains (lower t) block then idx
    else first_token_index (Datatypes.S idx) tokens' block none
  end.

Definition lang_weight (block : text) : nat :=
  first_token_index 0 lang_priority block (length lang_priority).

Record trigger : Type := MkTrigger { getwatch : text; weight : nat }.

(** One turn of [for a in soup.find_all(['a', 'button'])].  The season
    scope computed just before the loop ([scope_nodes], [search_roots]) is
    not used by it. *)
Definition trigger_of (season episode : Z) (e : element) : option trigger :=
  match getwatch_of e with
  | None => None
  | Some gw =>
    let block := block_text e in
    let match_season := any_token (season_tokens season) block in
    let match_episode := any_token (episode_tokens episode) block in
    if negb (match_season && match_episode) && negb match_episode then None
    else Some (MkTrigger gw (lang_weight block))
  end.

Definition triggers (season episode : Z) (els : list element) : list trigger :=
  omap (trigger_of season episode) els.

(** [candidates.sort(key=lambda c: c['lang_weight'])], a stable sort. *)
Fixpoint insert_by_weight (c : trigger) (l : list trigger) : list trigger :=
  match l with
  | [] => [c]
  | d :: l' => if (weight d <? weight c)%nat then d :: insert_by_weight c l'
               else c :: d :: l'
  end.

Definition sort_by_weight (l : list trigger) : list trigger :=
  fold_right insert_by_weight [] l.

(** The gate address that is requested, [None] when no trigger qualifies
    and the function goes on to its fallbacks. *)
Definition best_getwatch (base_host : text) (season episode : Z) (els : list element)
  : option text :=
  match sort_by_weight (triggers season episode els) with
  | [] => None
  | best :: _ => Some (Gate.absolute base_host (getwatch best))
  end.

End Landing.

(** ** The movie landing page ([scrape_movie_page_for_watch_url]) *)

Module MovieLanding.

(** An element as the CSS selectors and the loop look at it. *)
Record element : Type := MkElement {
  tag : text;
  el_href : option text;
  el_onclick : option text;
  classes : list text;
  el_id : option text
}.

Inductive selector : Type :=
| TagAttrContains (tag_name : text) (attr_is_href : bool) (needle : text)
| HasClass (class_name : text)
| HasId (id : text).

(** [watch_selectors] *)
Definition watch_selectors : list selector :=
  [TagAttrContains (T "a") true (T "/getWatch/");
   TagAttrContains (T "a") true (T "/watch/");
   TagAttrContains (T "button") false (T "getWatch");
   TagAttrContains (T "a") false (T "getWatch");
   HasClass (T "watch-btn");
   HasClass (T "play-btn");
   HasId (T "watch-btn");
   HasId (T "play-btn")].

Definition selects (s : selector) (e : element) : bool :=
  match s with
  | TagAttrContains tag_name attr_is_href needle =>
    text_eqb (tag e) tag_name
    && match (if attr_is_href then el_href e else el_onclick e) with
       | Some v => contains needle v
       | None => false
       end
  | HasClass class_name => existsb (text_eqb class_name) (classes e)
  | HasId id => match el_id e with Some i => text_eqb i id | None => false end
  end.

(** [soup.select(selector)]: the matching elements in document order. *)
Definition select (s : selector) (els : list element) : list element :=
  List.filter (selects s) els.

(** What one selected element adds to [watch_links]. *)
Definition link_of (e : element) : list text :=
  let href := default [] (el_href e) in
  let onclick := default [] (el_onclick e) in
  if contains (T "/getWatch/") href then [href]
  else if contains (T "/getWatch/") onclick
       then match search Landing.getwatch_re onclick with
            | Some m => [m_text m]
            | None => []
            end
       else [].

Definition watch_links (els : list element) : list text :=
  flat_map (fun s => flat_map link_of (select s els)) watch_selectors.

(** The whole function.  [landing] is the parsed movie page when the request
    for it gave a response; [fetch] is the request for the gate page, [None]
    when it gives no response, on which the code fails with an attribute
    error that the enclosing [try] reports. *)
Definition scrape_movie_page_for_watch_url (landing : option (list element))
  (fetch : text -> option Gate.gate_page) : Gate.outcome :=
  match landing with
  | None => Gate.Failure (T "Failed to load movie page: 403")
  | Some els =>
    match watch_links els with
    | [] => Gate.Failure (T "No watch button found on movie page")
    | getwatch_url :: _ =>
      let getwatch_url :=
        if startswith (T "http") getwatch_url then getwatch_url
        else T "https://playk8.movielinkbd.sbs" ++ getwatch_url in
      match fetch getwatch_url with
      | None =>
        Gate.Failure (T "Error scraping movie page: 'NoneType' object has no attribute 'status_code'")
      | Some page => Gate.movie_gate page
      end
    end
  end.

End MovieLanding.

(** ** Proxies ([get_proxy_list], [make_request_with_proxy_fallback]) *)

Module Proxy.

Definition newline : ascii := Ascii.ascii_of_nat 10.

(** [get_proxy_list], from the text of the response on: the stripped
    non-empty lines that do not start with [socks], the first 50 of them. *)
Definition proxies_of_text (body : text) : list text :=
  let proxies :=
    map strip (List.filter (fun line => negb (text_eqb (strip line) []))
                           (split_sep [newline] (strip body))) in
  let http_proxies := List.filter (fun p => negb (startswith (T "socks") p)) proxies in
  firstn 50 http_proxies.

(** [get_proxy_list()]: [None] stands for a request that raised. *)
Definition get_proxy_list (response_text : option text) : list text :=
  match response_text with
  | Some body => proxies_of_text body
  | None => []
  end.

(** [f'http://{proxy_ip_port}'], with [proxy_ip_port = proxy[7:]] when the
    proxy starts with [http://] and the proxy itself otherwise. *)
Definition proxy_address (proxy : text) : text :=
  T "http://" ++ (if startswith (T "http://") proxy then skipn 7 proxy else proxy).

(** A response as the function looks at it. *)
Record response : Type := MkResponse { status_code : Z; text_length : nat }.

Definition usable (r : response) : bool :=
  (status_code r =? 200)%Z && (1000 <? text_length r)%nat.

(** The loop over [test_proxies]; [via] answers a request through a proxy
    address, [None] when it raises. *)
Fixpoint try_proxies (via : text -> option response) (test_proxies : list text)
  : option response :=
  match test_proxies with
  | [] => None
  | proxy :: rest =>
    match via (proxy_address proxy) with
    | Some r => if usable r then Some r else try_proxies via rest
    | None => try_proxies via rest
    end
  end.

(** [make_request_with_proxy_fallback].  [direct] is the direct request
    ([None] when it raises), [proxy_list_text] the text the proxy list is
    read from, [sample] the choice made by [random.sample(proxies, min(3,
    len(proxies)))]. *)
Definition make_request_with_proxy_fallback (direct : option response)
  (proxy_list_text : option text) (sample : list text -> list text)
  (via : text -> option response) : option response :=
  let fallback :=
    match get_proxy_list proxy_list_text with
    | [] => None
    | proxies => try_proxies via (sample proxies)
    end in
  match direct with
  | Some r => if usable r then Some r else fallback
  | None => fallback
  end.

End Proxy.

Module LandingInputs.

(** Two buttons for episode 1, the first in English, the second in Bangla. *)
Definition two_languages : list Landing.element :=
  [Landing.MkElement (Some (T "/getWatch/en")) None (T "Watch") (Some (T "E1 English Watch"));
   Landing.MkElement (Some (T "/getWatch/bn")) None (T "Watch") (Some (T "E1 Bangla Watch"))].

End LandingInputs.

Module MovieInputs.

(** A button with an [onclick] handler first, an anchor with a gate link
    after it. *)
Definition button_then_anchor : list MovieLanding.element :=
  [MovieLanding.MkElement (T "button") None (Some (T "go('/getWatch/btn')")) [] None;
   MovieLanding.MkElement (T "a") (Some (T "/getWatch/anchor")) None [] None].

(** A page whose only link leads to a watch page directly. *)
Definition watch_link_only : list MovieLanding.element :=
  [MovieLanding.MkElement (T "a") (Some (T "/watch/abc")) None [T "watch-btn"] None].

(** Two ways of answering requests that differ on relative
    addresses only. *)
Definition answers_nothing : text -> option Gate.gate_page := fun _ => None.

Definition answers_relative : text -> option Gate.gate_page :=
  fun u => if startswith (T "http") u then None else Some Inputs.refresh_gate.

End MovieInputs.

Module ProxyInputs.

(** A full page answered with status 200, and a short block page. *)
Definition full_page : Proxy.response := Proxy.MkResponse 200 4096.

Definition block_page : Proxy.response := Proxy.MkResponse 403 120.

Definition proxy_listing : text :=
  T "10.0.0.1:8080" ++ [Proxy.newline] ++ T "socks5://10.0.0.2:1080".

End ProxyInputs.

(** ** Matching blocks and their windows *)

Module Matching.

Import Difflib.

(** A block that lies inside the window it was searched in. *)
Definition inside (alo ahi blo bhi : nat) (bst : best) : Prop :=
  (alo <= besti bst /\ besti bst + bestsize bst <= ahi
   /\ blo <= bestj bst /\ bestj bst + bestsize bst <= bhi)%nat.

(** A row of run lengths as it stands before the element at [i] of [a] is
    looked at: a run that ends at [j] in [b] starts neither before [alo] in
    [a] nor before [blo] in [b]. *)
Definition row_ok (i alo blo : nat) (m : list (nat * nat)) : Prop :=
  forall j k, In (j, k) m -> (k + alo <= i /\ k + blo <= j + 1)%nat.

(** The windows still to be searched, and the room they leave in [a] and
    in [b]. *)
Definition window_ok (w : nat * nat * nat * nat) : Prop :=
  let '(alo, ahi, blo, bhi) := w in (alo <= ahi /\ blo <= bhi)%nat.

Fixpoint room_a (queue : list (nat * nat * nat * nat)) : nat :=
  match queue with
  | [] => 0
  | (alo, ahi, _, _) :: queue' => (ahi - alo) + room_a queue'
  end.

Fixpoint room_b (queue : list (nat * nat * nat * nat)) : nat :=
  match queue with
  | [] => 0
  | (_, _, blo, bhi) :: queue' => (bhi - blo) + room_b queue'
  end.

(** A string short enough for its length, and twice its length, to be
    doubles. *)
Definition short (s : text) : Prop := (Z.of_nat (length s) < 2 ^ 52)%Z.

End Matching.

(** * Properties *)

Import Resolver.

(** ** The embedded library functions on known values *)

Lemma md5_hex_empty : Md5.md5_hex [] = T "d41d8cd98f00b204e9800998ecf8427e".
Proof. vm_compute. reflexivity. Qed.

Lemma md5_hex_abc : Md5.md5_hex (T "abc") = T "900150983cd24fb0d6963f7d28e17f72".
Proof. vm_compute. reflexivity. Qed.

Lemma ratio_dark_matter_origins :
  Difflib.matches (T "dark matter") (T "dark origins") = 6%nat
  /\ Difflib.ratio (T "dark matter") (T "dark origins") = round64 (12 # 23).
Proof. split; vm_compute; reflexivity. Qed.

(** ** Floats on known values: the doubles of the literals, and two sums
    whose result depends on the order of the additions *)

Lemma double_literals :
  (double 0.5 == 0.5
   /\ double 0.65 == 5854679515581645 # 9007199254740992
   /\ double 0.15 == 5404319552844595 # 36028797018963968
   /\ double 0.05 == 3602879701896397 # 72057594037927936)%Q.
Proof. repeat split; vm_compute; reflexivity. Qed.

Lemma threshold_065 : (0.65 <= double 0.65)%Q.
Proof. vm_compute. intros H. discriminate H. Qed.

Lemma threshold_050 : (double 0.50 == 0.50)%Q.
Proof. vm_compute. reflexivity. Qed.

(** ** Rounding *)

Section Rounding.

Local Open Scope Z_scope.

Lemma nearest_even_close (n d : Z) :
  0 < d -> - d <= 2 * (nearest_even n d * d - n) <= d.
Proof.
  intros Hd. unfold nearest_even.
  pose proof (Z.div_mod n d) as Hdm. pose proof (Z.mod_pos_bound n d Hd) as Hr.
  assert (n = d * (n / d) + n mod d) as E by (apply Hdm; lia).
  destruct (Z.compare_spec (2 * (n mod d)) d) as [He | Hl | Hg].
  - destruct (Z.even (n / d)); nia.
  - nia.
  - nia.
Qed.

Lemma ilog2_below_two (n d : Z) : 0 < n -> 0 < d -> n < 2 * d -> ilog2 n d <= 0.
Proof.
  intros Hn Hd Hlt. unfold ilog2.
  pose proof (Z.log2_spec n Hn) as [Hn1 Hn2].
  pose proof (Z.log2_spec d Hd) as [Hd1 Hd2].
  pose proof (Z.log2_nonneg n) as Hln. pose proof (Z.log2_nonneg d) as Hld.
  set (a := Z.log2 n) in *. set (b := Z.log2 d) in *.
  destruct (Z_le_gt_dec (a - b) 0) as [Hle | Hgt].
  - destruct (_ <? _); lia.
  - assert (a - b = 1) as E.
    { destruct (Z_le_gt_dec (a - b) 1) as [H1 | H2]; [lia |]. exfalso.
      assert (2 ^ (b + 2) <= 2 ^ a) as Hp by (apply Z.pow_le_mono_r; lia).
      rewrite Z.pow_add_r in Hp by lia. rewrite Z.pow_succ_r in Hd2 by lia.
      change (2 ^ 2) with 4 in Hp. lia. }
    rewrite E. change (Z.max 0 (- (1))) with 0. change (Z.max 0 1) with 1.
    change (2 ^ 0) with 1. change (2 ^ 1) with 2.
    destruct (n * 1 <? d * 2) eqn:Et; [lia |].
    apply Z.ltb_ge in Et. lia.
Qed.

(** Rounding a number below 2 in absolute value moves it by at most one
    unit in the 53rd place. *)
(** The rounding of a number in lowest terms. *)
Lemma round64_reduced (x : Q) :
  round64 x
  = let y := Qred x in
    if Z.abs (Qnum y) =? 0 then 0%Q
    else
      let t := ulp_exponent (Z.abs (Qnum y)) (Zpos (Qden y)) in
      Qred (scaled (Z.sgn (Qnum y)
                    * nearest_even (Z.abs (Qnum y) * 2 ^ Z.max 0 (- t))
                                   (Zpos (Qden y) * 2 ^ Z.max 0 t)) t).
Proof. reflexivity. Qed.

Lemma round64_error_reduced (xn : Z) (xd : positive) :
  (-2 < xn # xd < 2)%Q ->
  let x := (xn # xd)%Q in
  let t := ulp_exponent (Z.abs xn) (Zpos xd) in
  (x - u
   <= (if Z.abs xn =? 0 then 0
       else Qred (scaled (Z.sgn xn * nearest_even (Z.abs xn * 2 ^ Z.max 0 (- t))
                                                  (Zpos xd * 2 ^ Z.max 0 t)) t))
   <= x + u)%Q.
Proof.
  intros [Hlo Hhi]. cbv zeta.
  unfold Qlt in Hlo, Hhi. cbn [Qnum Qden] in Hlo, Hhi.
  destruct (Z.abs xn =? 0) eqn:E0.
  - apply Z.eqb_eq in E0. assert (xn = 0) as -> by lia.
    unfold u. split; unfold Qle; cbn; lia.
  - apply Z.eqb_neq in E0.
    set (d := Zpos xd) in *.
    assert (0 < d) as Hd by (unfold d; lia).
    assert (0 < Z.abs xn) as Hn by lia.
    assert (Z.abs xn < 2 * d) as Hnd by lia.
    pose proof (ilog2_below_two _ d Hn Hd Hnd) as He.
    set (t := ulp_exponent (Z.abs xn) d).
    assert (t <= -52) as Ht by (unfold t, ulp_exponent; lia).
    rewrite (Z.max_r 0 (- t)) by lia. rewrite (Z.max_l 0 t) by lia.
    change (2 ^ 0) with 1. rewrite Z.mul_1_r.
    unfold scaled. destruct (0 <=? t) eqn:Ele; [apply Z.leb_le in Ele; lia |].
    rewrite Qred_correct.
    pose proof (nearest_even_close (Z.abs xn * 2 ^ (- t)) d Hd) as Hm.
    set (m := nearest_even (Z.abs xn * 2 ^ (- t)) d) in *.
    assert (4503599627370496 <= 2 ^ (- t)) as Hp
        by (change 4503599627370496 with (2 ^ 52); apply Z.pow_le_mono_r; lia).
    set (p := 2 ^ (- t)) in *.
    assert (0 < p) as Hp0 by lia.
    assert (4503599627370496 * d <= p * d) as Hpd
        by (apply Z.mul_le_mono_nonneg_r; [lia | exact Hp]).
    unfold u, Qle, Qminus, Qplus, Qopp. cbn [Qnum Qden].
    rewrite !Pos2Z.inj_mul, Z2Pos.id by exact Hp0.
    fold d.
    destruct xn as [| q | q]; [lia | |].
    + change (Z.abs (Z.pos q)) with (Z.pos q) in *.
      change (Z.sgn (Z.pos q)) with 1. rewrite Z.mul_1_l.
      split; nia.
    + change (Z.abs (Z.neg q)) with (Z.pos q) in *.
      change (Z.sgn (Z.neg q)) with (-1).
      split; nia.
Qed.

(** Rounding a number below 2 in absolute value moves it by at most one
    unit in the 53rd place. *)
Lemma round64_error (x : Q) :
  (-2 < x < 2)%Q -> (x - u <= round64 x <= x + u)%Q.
Proof.
  intros Hx. rewrite round64_reduced. cbv zeta.
  pose proof (Qred_correct x) as Hy.
  destruct (Qred x) as [yn yd].
  rewrite <- Hy in Hx. rewrite <- Hy.
  exact (round64_error_reduced yn yd Hx).
Qed.

End Rounding.

(** Small integers and numbers between 0 and 1. *)

Section Exact.

Local Open Scope Z_scope.

Lemma Qred_inject_Z (n : Z) : Qred (inject_Z n) = inject_Z n.
Proof.
  unfold Qred, inject_Z.
  pose proof (Z.ggcd_gcd n 1) as Hg. pose proof (Z.ggcd_correct_divisors n 1) as Hd.
  destruct (Z.ggcd n 1) as [g [aa bb]]. cbn [fst snd] in *.
  rewrite Z.gcd_1_r in Hg. subst g. destruct Hd as [Ha Hb].
  assert (aa = n) as -> by lia. assert (bb = 1) as -> by lia. reflexivity.
Qed.

Lemma nearest_even_whole (n : Z) : nearest_even n 1 = n.
Proof.
  unfold nearest_even. rewrite Z.mod_1_r, Z.div_1_r. reflexivity.
Qed.

Lemma ilog2_whole (n : Z) : 0 < n -> ilog2 n 1 = Z.log2 n.
Proof.
  intros Hn. unfold ilog2. change (Z.log2 1) with 0. rewrite Z.sub_0_r.
  pose proof (Z.log2_nonneg n) as H0. pose proof (Z.log2_spec n Hn) as [H1 _].
  rewrite (Z.max_l 0 (- Z.log2 n)) by lia. rewrite (Z.max_r 0 (Z.log2 n)) by lia.
  change (2 ^ 0) with 1. rewrite Z.mul_1_r, Z.mul_1_l.
  destruct (n <? 2 ^ Z.log2 n) eqn:E; [apply Z.ltb_lt in E; lia | reflexivity].
Qed.

(** An integer below [2 ^ 53] is a double. *)
Lemma round64_whole (x : Q) (n : Z) :
  (x == inject_Z n)%Q -> 0 <= n < 2 ^ 53 -> (round64 x == inject_Z n)%Q.
Proof.
  intros Hx Hn. rewrite round64_reduced. cbv zeta.
  rewrite (Qred_complete _ _ Hx), Qred_inject_Z. cbn [inject_Z Qnum Qden].
  destruct (Z.abs n =? 0) eqn:E0.
  - apply Z.eqb_eq in E0. assert (n = 0) as -> by lia. reflexivity.
  - apply Z.eqb_neq in E0. assert (0 < n) as Hp by lia.
    rewrite (Z.abs_eq n) by lia. rewrite (Z.sgn_pos n) by lia. rewrite Z.mul_1_l.
    unfold ulp_exponent. rewrite (ilog2_whole n Hp).
    assert (Z.log2 n < 53) as Hl by (apply Z.log2_lt_pow2; lia).
    pose proof (Z.log2_nonneg n) as H0.
    rewrite (Z.max_l (Z.log2 n - 52) (-1074)) by lia.
    set (s := 52 - Z.log2 n).
    replace (Z.log2 n - 52) with (- s) by (unfold s; lia).
    assert (0 <= s) as Hs by (unfold s; lia).
    rewrite Z.opp_involutive.
    rewrite (Z.max_r 0 s) by lia. rewrite (Z.max_l 0 (- s)) by lia.
    change (2 ^ 0) with 1. rewrite Z.mul_1_l, nearest_even_whole.
    rewrite Qred_correct. unfold scaled.
    assert (0 < 2 ^ s) as Hps by (apply Z.pow_pos_nonneg; lia).
    destruct (0 <=? - s) eqn:El.
    + apply Z.leb_le in El. assert (s = 0) as -> by lia.
      cbn [Z.opp]. change (2 ^ 0) with 1. rewrite !Z.mul_1_r. reflexivity.
    + rewrite Z.opp_involutive. unfold Qeq, inject_Z. cbn [Qnum Qden].
      rewrite Z2Pos.id by exact Hps. lia.
Qed.

(** Rounding keeps a number between 0 and 1 there. *)
Lemma round64_unit_reduced (xn : Z) (xd : positive) :
  (0 <= xn # xd <= 1)%Q ->
  let t := ulp_exponent (Z.abs xn) (Zpos xd) in
  (0 <= (if Z.abs xn =? 0 then 0
         else Qred (scaled (Z.sgn xn * nearest_even (Z.abs xn * 2 ^ Z.max 0 (- t))
                                                    (Zpos xd * 2 ^ Z.max 0 t)) t))
   <= 1)%Q.
Proof.
  intros [Hlo Hhi]. cbv zeta.
  unfold Qle in Hlo, Hhi. cbn [Qnum Qden] in Hlo, Hhi.
  destruct (Z.abs xn =? 0) eqn:E0; [split; discriminate |].
  apply Z.eqb_neq in E0.
  set (d := Zpos xd) in *.
  assert (0 < d) as Hd by (unfold d; lia).
  assert (0 < xn) as Hn by lia.
  rewrite (Z.abs_eq xn) by lia. rewrite (Z.sgn_pos xn) by lia. rewrite Z.mul_1_l.
  assert (xn < 2 * d) as Hnd by lia.
  pose proof (ilog2_below_two _ d Hn Hd Hnd) as He.
  set (t := ulp_exponent xn d).
  assert (t <= -52) as Ht by (unfold t, ulp_exponent; lia).
  rewrite (Z.max_r 0 (- t)) by lia. rewrite (Z.max_l 0 t) by lia.
  change (2 ^ 0) with 1. rewrite Z.mul_1_r.
  unfold scaled. destruct (0 <=? t) eqn:Ele; [apply Z.leb_le in Ele; lia |].
  rewrite Qred_correct.
  pose proof (nearest_even_close (xn * 2 ^ (- t)) d Hd) as Hm.
  set (m := nearest_even (xn * 2 ^ (- t)) d) in *.
  assert (0 < 2 ^ (- t)) as Hp0 by (apply Z.pow_pos_nonneg; lia).
  set (p := 2 ^ (- t)) in *.
  unfold Qle. cbn [Qnum Qden]. rewrite Z2Pos.id by exact Hp0.
  split; nia.
Qed.

Lemma round64_unit (x : Q) : (0 <= x <= 1)%Q -> (0 <= round64 x <= 1)%Q.
Proof.
  intros Hx. rewrite round64_reduced. cbv zeta.
  pose proof (Qred_correct x) as Hy.
  destruct (Qred x) as [yn yd].
  rewrite <- Hy in Hx.
  exact (round64_unit_reduced yn yd Hx).
Qed.

End Exact.


Lemma fadd_error (x y : Q) :
  (-2 < x + y < 2)%Q -> (x + y - u <= fadd x y <= x + y + u)%Q.
Proof. apply round64_error. Qed.

Lemma fsub_error (x y : Q) :
  (-2 < x - y < 2)%Q -> (x - y - u <= fsub x y <= x - y + u)%Q.
Proof. apply round64_error. Qed.

(** The literals of the policy table are within [2 ^ -55] of their
    doubles. *)
Lemma literal_errors :
  (0.15 - (1 # 36028797018963968) <= double 0.15 <= 0.15 + (1 # 36028797018963968)
   /\ 0.05 - (1 # 36028797018963968) <= double 0.05 <= 0.05 + (1 # 36028797018963968)
   /\ 0.1 - (1 # 36028797018963968) <= double 0.1 <= 0.1 + (1 # 36028797018963968)
   /\ 0.02 - (1 # 36028797018963968) <= double 0.02 <= 0.02 + (1 # 36028797018963968)
   /\ 0.03 - (1 # 36028797018963968) <= double 0.03 <= 0.03 + (1 # 36028797018963968)
   /\ 0.07 - (1 # 36028797018963968) <= double 0.07 <= 0.07 + (1 # 36028797018963968)
   /\ 0.2 - (1 # 36028797018963968) <= double 0.2 <= 0.2 + (1 # 36028797018963968))%Q.
Proof. repeat split; vm_compute; intros H; discriminate H. Qed.

Lemma sum_depends_on_order :
  (fadd (fadd (double 0.4) (double 0.15)) (double 0.05)
   == 5404319552844596 # 9007199254740992)%Q
  /\ fadd (fadd (double 0.4) (double 0.05)) (double 0.15) = double 0.6
  /\ (double 0.6 == 5404319552844595 # 9007199254740992)%Q.
Proof. repeat split; vm_compute; reflexivity. Qed.

Lemma ratio_of_empty_titles : Difflib.ratio [] [] = 1%Q.
Proof. reflexivity. Qed.

Lemma season_tokens_need_word_boundaries :
  normalize_title (T "Breaking Bad: S01E02 [Hindi Dubbed] WEB-DL 1080p")
  = T "breaking bad s01e02".
Proof. vm_compute. reflexivity. Qed.

(** ** Cache keys and the search cache *)

Lemma key_string_joined (q h : text) :
  h <> [] -> Cache.key_string q (Some h) = q ++ T ":" ++ h.
Proof. destruct h; [congruence | reflexivity]. Qed.

(** C10, as amended: for every query [q] and every non-empty host [h], the
    key of the single query string [q + ':' + h] with no host equals the key
    of query [q] with host [h]. *)
Theorem cache_key_collision (q h : text) :
  h <> [] ->
  Cache.get_cache_key (q ++ T ":" ++ h) None = Cache.get_cache_key q (Some h).
Proof.
  intros Hh. unfold Cache.get_cache_key.
  rewrite (key_string_joined q h Hh). reflexivity.
Qed.

Lemma cache_key_collision_witness :
  T "shop" <> [] /\
  Cache.get_cache_key (T "dark" ++ T ":" ++ T "shop") None
  = Cache.get_cache_key (T "dark") (Some (T "shop")).
Proof.
  split; [discriminate | apply (cache_key_collision (T "dark") (T "shop")); discriminate].
Defined.

(** C10, as stated, fails for the empty host: the host is then dropped from
    the key string, the colon is not. *)
Lemma cache_key_empty_host :
  ~ (forall q h : text,
       Cache.get_cache_key (q ++ T ":" ++ h) None = Cache.get_cache_key q (Some h)).
Proof.
  intros H. specialize (H (T "a") []). vm_compute in H. discriminate H.
Qed.

Lemma Qltb_lt (x y : Q) : Qltb x y = true <-> (x < y)%Q.
Proof.
  unfold Qltb. rewrite Bool.negb_true_iff.
  split.
  - intros H. apply Qnot_le_lt. intros Hle. apply Qle_bool_iff in Hle. congruence.
  - intros H. destruct (Qle_bool y x) eqn:E; [| reflexivity].
    apply Qle_bool_iff in E. exfalso. exact (Qlt_not_le _ _ H E).
Qed.

Lemma Qltb_ge (x y : Q) : Qltb x y = false <-> (y <= x)%Q.
Proof.
  unfold Qltb. rewrite Bool.negb_false_iff. apply Qle_bool_iff.
Qed.

(** C8: an entry written at time [T] is returned unchanged by a lookup at
    any time strictly before [T + TTL]; a lookup at [T + TTL] or later misses
    and deletes the entry, which is then absent. *)
Theorem search_cache_ttl_window {payload : Type} (cache : gmap text (Cache.entry payload))
  (key : text) (d : payload) (written now : Q) :
  let cache' := Cache.cache_search_result written key d cache in
  Cache.get_cached_search_result now key cache'
  = (if Qlt_le_dec now (written + Cache.search_cache_ttl)
     then (Some d, cache')
     else (None, delete key cache'))
  /\ delete key cache' !! key = None.
Proof.
  intros cache'. split; [| apply lookup_delete_eq].
  unfold Cache.get_cached_search_result, cache', Cache.cache_search_result.
  rewrite lookup_insert_eq. cbn [Cache.timestamp Cache.data].
  destruct (Qlt_le_dec now (written + Cache.search_cache_ttl)) as [Hlt | Hge].
  - assert (Qltb (now - written) Cache.search_cache_ttl = true) as ->; [| reflexivity].
    apply Qltb_lt. lra.
  - assert (Qltb (now - written) Cache.search_cache_ttl = false) as ->; [| reflexivity].
    apply Qltb_ge. lra.
Qed.

(** ** Query variants *)

(** The analyser's list never holds two queries equal up to case. *)
Lemma analyzer_queries_same_case (name : text) :
  name <> [] -> text_eqb (lower (base_title name)) (lower name) = true ->
  AnalyzerQueries.queries name = [name].
Proof.
  intros Hne Heq. unfold AnalyzerQueries.queries. cbn [fold_left].
  unfold AnalyzerQueries.add_query at 2.
  destruct name as [| c name']; [congruence |].
  cbn [existsb map app].
  unfold AnalyzerQueries.add_query.
  destruct (base_title (c :: name')) as [| b bt] eqn:Eb; [reflexivity |].
  cbn [map existsb]. rewrite Heq. reflexivity.
Qed.

(** C7 at the title "Dark": the resolver builds the query "Dark" twice, and
    fetches each mirror once per copy, where the analyser builds it once. *)
Theorem api_variants_not_deduplicated :
  query_variants (T "Dark") = [T "Dark"; T "Dark"]
  /\ AnalyzerQueries.queries (T "Dark") = [T "Dark"]
  /\ filter (fun e => match e with EFetch _ _ => true | _ => false end = true)
            (snd (resolve_tmdb_tv_to_mlbd_url (Inputs.tv "Dark") Inputs.weak_world 1 1))
     = [EFetch Inputs.mirror1 (T "Dark"); EFetch Inputs.mirror2 (T "Dark");
        EFetch Inputs.mirror1 (T "Dark"); EFetch Inputs.mirror2 (T "Dark")].
Proof. repeat split; vm_compute; reflexivity. Qed.

(** ** Selection *)

(** The host loop keeps the listing of the last mirror that answers 200;
    what an earlier mirror listed is dropped unseen. *)
Lemma host_loop_keeps_last_page (w : world) (query : text) (st : state)
  (cards : list card) :
  w Inputs.mirror2 query = Page 200 cards ->
  soup (fold_left (host_step w query) search_hosts st) = Some cards
  /\ candidates (fold_left (host_step w query) search_hosts st) = [].
Proof.
  intros H. unfold search_hosts. cbn [fold_left].
  change (T "https://movielinkbd.shop") with Inputs.mirror2.
  generalize (host_step w query st (T "https://moviexp.movielinkbd.sbs")).
  intros st'. unfold host_step. rewrite H. split; reflexivity.
Qed.

(** The update of the best overall lets any higher score in, series or
    not. *)
Lemma replaces_on_higher_score (best kept : candidate) :
  (score kept < score best)%Q -> replaces best (Some kept) = true.
Proof.
  intros H. unfold replaces. apply orb_true_iff. right. apply Qltb_lt. exact H.
Qed.

(** The sort key never puts a non-series entry before a series entry. *)
Lemma key_lt_series_first (c d : candidate) :
  is_series c = true -> is_series d = false -> key_lt c d = true /\ key_lt d c = false.
Proof. intros Hc Hd. unfold key_lt. rewrite Hc, Hd. split; reflexivity. Qed.

(** The scenario of the specification: "Breaking Bad Season 1", a series
    entry, scores 1 + 0.15 + 0.05 for season 1 and is accepted at once. *)
Lemma breaking_bad_accepted_at_once :
  (exists c fs,
     score_card (T "breaking bad") (T "breaking bad") 1 Inputs.mirror2 None
                (T "/series/breaking-bad") (T "Breaking Bad Season 1")
                (Some (T "Series")) = Some (c, fs)
     /\ score c = double 1.2)
  /\ fst (resolve_tmdb_tv_to_mlbd_url (Inputs.tv "Breaking Bad") Inputs.breaking_bad_world 1 1)
     = Some (T "https://movielinkbd.shop/series/breaking-bad")
  /\ In (EImmediate (T "https://movielinkbd.shop/series/breaking-bad"))
        (snd (resolve_tmdb_tv_to_mlbd_url (Inputs.tv "Breaking Bad")
                                          Inputs.breaking_bad_world 1 1)).
Proof.
  split; [eexists _, _; split; vm_compute; reflexivity |].
  split; [vm_compute; reflexivity |].
  vm_compute. tauto.
Qed.

(** The acceptance test is made on the float: for the reference "boys boys
    wars" the entry "boys boys wars Episode 1-8" has the ratio 28/40, and
    0.7 + 0.02 - 0.07 is 0.6499999999999999 in floats, below the threshold
    that the exact sum 0.65 would meet.  The entry is not accepted at once;
    both query variants are searched and it is returned at the end. *)
Lemma acceptance_test_is_on_floats :
  (exists c fs,
     score_card (T "boys boys wars") (T "boys boys wars") 1 Inputs.mirror2 None
                (T "/series/boys") (T "boys boys wars Episode 1-8") (Some (T "TV"))
     = Some (c, fs)
     /\ is_series c = true
     /\ (score c == 5854679515581644 # 9007199254740992)%Q
     /\ Qgeb (score c) (double 0.65) = false)
  /\ Difflib.matches (T "boys boys wars episode 1 8") (T "boys boys wars") = 14%nat
  /\ filter (fun e => match e with EImmediate _ => true | _ => false end = true)
            (snd (resolve_tmdb_tv_to_mlbd_url (Inputs.tv "boys boys wars")
                    Inputs.near_threshold_world 1 1)) = []
  /\ length (Trace.fetched (snd (resolve_tmdb_tv_to_mlbd_url (Inputs.tv "boys boys wars")
                                   Inputs.near_threshold_world 1 1))) = 4%nat
  /\ fst (resolve_tmdb_tv_to_mlbd_url (Inputs.tv "boys boys wars")
            Inputs.near_threshold_world 1 1)
     = Some (T "https://movielinkbd.shop/series/boys").
Proof.
  split.
  - eexists _, _. split; [vm_compute; reflexivity |].
    repeat split; vm_compute; reflexivity.
  - repeat split; vm_compute; reflexivity.
Qed.

(** C3 at a first mirror that lists the series "Dark" and a second mirror
    that answers with an empty listing: the entry of the first mirror is a
    series entry scoring 1.07, yet the second mirror is fetched, only its
    listing is looked at, and nothing is returned. *)
Theorem strong_hit_on_first_mirror_lost :
  (exists c fs,
     score_card (T "dark") (T "dark") 1 Inputs.mirror1 None
                (T "/series/dark") (T "Dark") (Some (T "Series")) = Some (c, fs)
     /\ is_series c = true /\ score c = double 1.07 /\ (0.65 <= score c)%Q
     /\ Qgeb (score c) (double 0.65) = true)
  /\ fst (resolve_tmdb_tv_to_mlbd_url (Inputs.tv "Dark") Inputs.strong_hit_world 1 1) = None
  /\ In (EFetch Inputs.mirror2 (T "Dark"))
        (snd (resolve_tmdb_tv_to_mlbd_url (Inputs.tv "Dark") Inputs.strong_hit_world 1 1)).
Proof.
  split.
  - eexists _, _. split; [vm_compute; reflexivity |].
    split; [vm_compute; reflexivity |].
    split; [vm_compute; reflexivity |].
    split; [vm_compute; intros H; discriminate H |].
    vm_compute; reflexivity.
  - split; [vm_compute; reflexivity |].
    vm_compute. tauto.
Qed.

(** C4 at a title with two variants: the full-title query leaves the series
    "Dark Matter" (score 0.6033333333333334, the double nearest to 181/300)
    as best overall; the base-title query then brings the movie "Dark" (score
    1.02), which takes its place and is returned. *)
Theorem movie_displaces_kept_series :
  let nf := normalize_title (T "Dark: Origins") in
  let nb := normalize_title (base_title (T "Dark: Origins")) in
  exists st1 st2 kept final,
    query_step Inputs.two_variant_world nf nb 2 init_state (T "Dark: Origins") = Go st1
    /\ best_overall st1 = Some kept
    /\ is_series kept = true /\ score kept = round64 (181 # 300)
    /\ query_step Inputs.two_variant_world nf nb 2 st1 (T "Dark") = Go st2
    /\ best_overall st2 = Some final
    /\ is_series final = false /\ score final = double 1.02
    /\ fst (resolve_tmdb_tv_to_mlbd_url (Inputs.tv "Dark: Origins")
                                        Inputs.two_variant_world 2 1)
       = Some (href final)
    /\ href final = T "https://movielinkbd.shop/movie/dark".
Proof.
  cbv zeta. eexists _, _, _, _.
  split; [vm_compute; reflexivity |].
  split; [vm_compute; reflexivity |].
  split; [vm_compute; reflexivity |].
  split; [vm_compute; reflexivity |].
  split; [vm_compute; reflexivity |].
  split; [vm_compute; reflexivity |].
  split; [vm_compute; reflexivity |].
  split; [vm_compute; reflexivity |].
  split; vm_compute; reflexivity.
Qed.

(** ** Scoring *)

(** C2, as amended: the score of a scored candidate is obtained from the
    base score by the float operations of the policy table, one for each
    adjustment that applies and in this order: the season bonus (0.15 on a
    matching season block, 0.05 on a block without a number, and without a
    block 0.10 for season 1 with the dub marker, else 0.02; none on a block
    with another number); 0.05 for an entry of series type; 0.03 for a block
    that does not match; minus 0.07 for an episode batch; minus the recorded
    season penalty (0.2 on a block with another number, else zero). *)
Theorem adjusted_score_table (norm_full norm_base : text) (season : Z) (host : text)
  (fs fs' : option Z) (link mlbd_title : text) (type_span : option text) (c : candidate) :
  score_card norm_full norm_base season host fs link mlbd_title type_span = Some (c, fs') ->
  exists k,
    Spec.classify season (lower mlbd_title) = Some k
    /\ score c
       = fsub (fold_left Spec.adjust
                 (Spec.adjustments k (is_series_type type_span link) season (lower mlbd_title))
                 (base_score norm_full norm_base mlbd_title))
              (Spec.recorded_penalty k).
Proof.
  unfold score_card, season_step, Spec.classify, Spec.adjustments.
  fold (has_episode_batch (lower mlbd_title)).
  generalize (base_score norm_full norm_base mlbd_title). intros base.
  destruct (has_season_block (lower mlbd_title));
    [ destruct (season_number (lower mlbd_title)) as [| n |];
      [| destruct (n =? season)%Z |] |
      destruct ((season =? 1)%Z && is_bangla_dubbed (lower mlbd_title)) eqn:Eb ];
    try discriminate;
    destruct (is_series_type type_span link);
    destruct (has_episode_batch (lower mlbd_title));
    intros H; injection H as <- _; eexists; (split; [reflexivity |]);
    cbn [score andb negb app fold_left Spec.adjust Spec.season_bonus
         Spec.recorded_penalty];
    rewrite ?Eb; reflexivity.
Qed.

Lemma adjusted_score_table_witness :
  exists c,
    score_card (T "breaking bad") (T "breaking bad") 1 Inputs.mirror2 None
               (T "/series/breaking-bad") (T "Breaking Bad Season 1") (Some (T "Series"))
    = Some (c, Some 1%Z)
    /\ exists k,
      Spec.classify 1 (lower (T "Breaking Bad Season 1")) = Some k
      /\ score c
         = fsub (fold_left Spec.adjust
                   (Spec.adjustments k (is_series_type (Some (T "Series"))
                                                       (T "/series/breaking-bad"))
                                     1 (lower (T "Breaking Bad Season 1")))
                   (base_score (T "breaking bad") (T "breaking bad")
                               (T "Breaking Bad Season 1")))
                (Spec.recorded_penalty k).
Proof.
  eexists.
  split; [vm_compute; reflexivity |].
  apply (adjusted_score_table (T "breaking bad") (T "breaking bad") 1 Inputs.mirror2 None
           (Some 1%Z) (T "/series/breaking-bad") (T "Breaking Bad Season 1")
           (Some (T "Series"))).
  vm_compute; reflexivity.
Defined.

(** C2, as stated, fails for a candidate that is flagged as a series by its
    link alone: the entry "Dark" with the link [/series/dark] and the type
    tag "TV Series" is flagged as a series and scores 1.02, the base score 1
    plus 0.02, without the series bonus; the stated sum is 1.07, and the
    score does not come within a thousandth of it. *)
Lemma flagged_series_without_bonus :
  ~ (forall (norm_full norm_base : text) (season : Z) (host : text) (fs fs' : option Z)
            (link mlbd_title : text) (type_span : option text) (c : candidate)
            (k : Spec.season_case),
       score_card norm_full norm_base season host fs link mlbd_title type_span
       = Some (c, fs') ->
       Spec.classify season (lower mlbd_title) = Some k ->
       (Spec.claimed_score (base_score norm_full norm_base mlbd_title)
                           (is_series c) k season (lower mlbd_title)
        <= score c + (1 # 1000))%Q).
Proof.
  intros H.
  assert (exists c,
            score_card (T "dark") (T "dark") 5 Inputs.mirror2 None (T "/series/dark")
                       (T "Dark") (Some (T "TV Series")) = Some (c, None)
            /\ is_series c = true /\ score c = double 1.02) as (c & Hc & Hs & Hv).
  { eexists. split; [vm_compute; reflexivity |]. split; vm_compute; reflexivity. }
  specialize (H _ _ _ _ _ _ _ _ _ c Spec.NoSeasonBlock Hc).
  assert (Spec.classify 5 (lower (T "Dark")) = Some Spec.NoSeasonBlock) as Hk
      by (vm_compute; reflexivity).
  specialize (H Hk). rewrite Hs, Hv in H.
  assert (base_score (T "dark") (T "dark") (T "Dark") = 1%Q) as Hb
      by (vm_compute; reflexivity).
  rewrite Hb in H. vm_compute in H. apply H. reflexivity.
Qed.

Lemma overlap_ratio_empty_l (B : gset text) : (Spec.overlap_ratio ∅ B == 0)%Q.
Proof.
  unfold Spec.overlap_ratio. rewrite (left_absorb_L ∅ (∩)), size_empty.
  reflexivity.
Qed.

Lemma overlap_ratio_empty_r (A : gset text) : (Spec.overlap_ratio A ∅ == 0)%Q.
Proof.
  unfold Spec.overlap_ratio. rewrite (right_absorb_L ∅ (∩)), size_empty.
  reflexivity.
Qed.

(** The analyser's [score_similarity] is the overlap ratio of the two token
    sets; its guards only cover the cases where the ratio is zero anyway. *)
Lemma score_similarity_overlap (a b : text) :
  (Analyzer.score_similarity a b
   == Spec.overlap_ratio (Spec.token_set a) (Spec.token_set b))%Q.
Proof.
  unfold Analyzer.score_similarity, Spec.token_set.
  destruct (split_ws a) as [| x xs] eqn:Ea.
  - cbn [list_to_set]. symmetry. apply overlap_ratio_empty_l.
  - destruct (split_ws b) as [| y ys] eqn:Eb.
    + cbn [list_to_set]. symmetry. apply overlap_ratio_empty_r.
    + unfold Spec.overlap_ratio.
      destruct (size (list_to_set (x :: xs) ∪ list_to_set (y :: ys)) =? 0)%nat eqn:Eu;
        [| reflexivity].
      apply Nat.eqb_eq in Eu. rewrite Eu. cbn [Z.of_nat inject_Z].
      unfold Qdiv. rewrite Qmult_comm. reflexivity.
Qed.

Lemma pymax_larger (x y x' y' : Q) :
  (x == x')%Q -> (y == y')%Q -> (AnalyzerQueries.pymax x y == Spec.larger x' y')%Q.
Proof.
  intros Hx Hy. unfold AnalyzerQueries.pymax, Spec.larger.
  destruct (Qle_bool y x) eqn:E; destruct (Qlt_le_dec x' y') as [Hlt | Hge].
  - apply Qle_bool_iff in E. lra.
  - exact Hx.
  - exact Hy.
  - assert (~ (y <= x)%Q) by (intros H; apply Qle_bool_iff in H; congruence). lra.
Qed.

(** C1, as amended: the analyser's base score is the larger of the two
    token-set overlap ratios; the resolver's base score is the larger of the
    two [SequenceMatcher] ratios of the same normalized titles. *)
Theorem base_score_two_paths (name cand_title : text) :
  (AnalyzerQueries.base_score name cand_title == Spec.claimed_base_score name cand_title)%Q
  /\ base_score (normalize_title name) (normalize_title (base_title name)) cand_title
     = pymax (Difflib.ratio (normalize_title cand_title) (normalize_title name))
             (Difflib.ratio (normalize_title cand_title)
                            (normalize_title (base_title name))).
Proof.
  split; [| reflexivity].
  unfold AnalyzerQueries.base_score, Spec.claimed_base_score.
  apply pymax_larger; apply score_similarity_overlap.
Qed.

(** C1, as stated, fails in the resolver: for the reference "Dark" and the
    entry "Dark Matter" the overlap ratio is 1/2 and the resolver's base
    score 0.5333333333333333, the double nearest to 8/15. *)
Lemma resolver_base_score_not_overlap :
  ~ (forall name cand_title : text,
       (base_score (normalize_title name) (normalize_title (base_title name)) cand_title
        == Spec.claimed_base_score name cand_title)%Q).
Proof.
  intros H. specialize (H (T "Dark") (T "Dark Matter")).
  assert (base_score (normalize_title (T "Dark")) (normalize_title (base_title (T "Dark")))
                     (T "Dark Matter") = round64 (8 # 15)) as E1 by (vm_compute; reflexivity).
  assert (Spec.claimed_base_score (T "Dark") (T "Dark Matter") == 1 # 2)%Q as E2
      by (vm_compute; reflexivity).
  rewrite E1, E2 in H. vm_compute in H. discriminate H.
Qed.

(** ** The gate page *)

Lemma first_truthy_cons_falsy (o : option text) (l : list (option text)) :
  Gate.truthy o = false -> Spec.first_truthy (o :: l) = Spec.first_truthy l.
Proof. destruct o as [[| c u] |]; cbn; intros H; try discriminate H; reflexivity. Qed.

Lemma first_truthy_cons_truthy (o : option text) (l : list (option text)) :
  Gate.truthy o = true -> Spec.first_truthy (o :: l) = o.
Proof. destruct o as [[| c u] |]; cbn; intros H; try discriminate H; reflexivity. Qed.


(** ** No rejection below the threshold *)

Import Invariants.

Lemma scored_app (l l' : list event) : scored (l ++ l') <-> scored l \/ scored l'.
Proof.
  unfold scored. split.
  - intros [c Hc]. apply in_app_iff in Hc. destruct Hc; eauto.
  - intros [[c Hc] | [c Hc]]; exists c; apply in_app_iff; auto.
Qed.

Lemma scored_snoc_other (l : list event) (e : event) :
  (forall c, e <> EBest c) -> scored (l ++ [e]) -> scored l.
Proof.
  intros He H. apply scored_app in H. destruct H as [H | [c [Hc | []]]]; [exact H |].
  exfalso. exact (He c Hc).
Qed.

Lemma insert_sorted_length (c : candidate) (l : list candidate) :
  length (insert_sorted c l) = S (length l).
Proof.
  induction l as [| d l IH]; [reflexivity |].
  cbn [insert_sorted]. destruct (key_lt d c); cbn [length]; [rewrite IH |]; reflexivity.
Qed.

Lemma sort_candidates_length (l : list candidate) :
  length (sort_candidates l) = length l.
Proof.
  induction l as [| c l IH]; [reflexivity |].
  cbn [sort_candidates fold_right]. fold (sort_candidates l).
  rewrite insert_sorted_length, IH. reflexivity.
Qed.

Lemma inv_emit (e : event) (st : state) :
  (forall c, e <> EBest c) -> inv st -> inv (emit e st).
Proof.
  intros He (H1 & H2 & H3). unfold inv, emit. cbn [log best_overall soup].
  repeat split.
  - intros Hs. apply H1. exact (scored_snoc_other _ _ He Hs).
  - intros bo Hbo. apply in_app_iff. left. apply H2. exact Hbo.
  - intros Hs. apply H3. exact (scored_snoc_other _ _ He Hs).
Qed.

Lemma host_step_inv (w : world) (query : text) (st : state) (host : text) :
  inv st -> inv (host_step w query st host).
Proof.
  intros Hst. unfold host_step.
  assert (inv (emit (EFetch host query) st)) as H0
      by (apply inv_emit; [discriminate | exact Hst]).
  destruct (w host query) as [| status_code cards].
  - apply inv_emit; [discriminate | exact H0].
  - destruct (status_code =? 200)%Z.
    + destruct H0 as (H1 & H2 & H3). unfold inv. cbn [log best_overall soup].
      repeat split; [exact H1 | exact H2 | discriminate].
    + apply inv_emit; [discriminate | exact H0].
Qed.

Lemma host_loop_inv (w : world) (query : text) (hosts : list text) (st : state) :
  inv st -> inv (fold_left (host_step w query) hosts st).
Proof.
  revert st. induction hosts as [| h hosts IH]; intros st Hst; [exact Hst |].
  cbn [fold_left]. apply IH. apply host_step_inv. exact Hst.
Qed.

Lemma card_step_ok (nf nb : text) (season : Z) (st : state) (c : card) :
  inv st -> soup st <> None ->
  match card_step nf nb season st c with
  | Go st' => inv st' /\ soup st' = soup st
  | Stop r ev => stop_ok r ev
  end.
Proof.
  intros Hst Hsoup. unfold card_step.
  destruct (card_a c) as [a |]; [| split; [exact Hst | reflexivity]].
  destruct (match a_href a with Some h => h | None => [] end) as [| l0 link];
    [split; [exact Hst | reflexivity] |].
  destruct (score_card nf nb season last_host (fs_local st) (l0 :: link)
                       (a_text a) (card_type c)) as [[cand fs] |];
    [| intros _ Hx; exfalso; apply Hx, in_app_iff; right; cbn; auto].
  destruct (candidates st ++ [cand]) as [| c0 cs] eqn:Ecs.
  - exfalso. destruct (candidates st); discriminate Ecs.
  - destruct (sort_candidates (c0 :: cs)) as [| best rest] eqn:Esort.
    + exfalso. pose proof (sort_candidates_length (c0 :: cs)) as Hl.
      rewrite Esort in Hl. discriminate Hl.
    + destruct Hst as (H1 & H2 & H3).
      cbn [soup candidates fs_local best_overall log].
      destruct (is_series best && Qgeb (score best) (double 0.65)).
      * intros _ _. exists best. split; [| split; [reflexivity |]].
        -- apply in_app_iff. left. apply in_app_iff. right. cbn. auto.
        -- apply in_app_iff. right. cbn. auto.
      * destruct (replaces best (best_overall st)) eqn:Er.
        -- split; [| reflexivity]. unfold inv. cbn [soup best_overall log].
           repeat split.
           ++ intros _. eauto.
           ++ intros bo Hbo. injection Hbo as <-. apply in_app_iff. right. cbn. auto.
           ++ intros _. exact Hsoup.
        -- split; [| reflexivity]. unfold inv. cbn [soup best_overall log].
           destruct (best_overall st) as [bo |] eqn:Ebo; [| discriminate Er].
           repeat split.
           ++ intros _. eauto.
           ++ intros bo' Hbo'. apply in_app_iff. left. apply H2. exact Hbo'.
           ++ intros _. exact Hsoup.
Qed.

Lemma card_loop_ok (nf nb : text) (season : Z) (cards : list card) (st : state) :
  inv st -> soup st <> None -> flow_ok (card_loop nf nb season st cards).
Proof.
  revert st. induction cards as [| c cards IH]; intros st Hst Hsoup; [exact Hst |].
  cbn [card_loop]. pose proof (card_step_ok nf nb season st c Hst Hsoup) as Hc.
  destruct (card_step nf nb season st c) as [st' | r ev].
  - destruct Hc as [Hst' Hs']. apply IH; [exact Hst' | congruence].
  - exact Hc.
Qed.

Lemma query_step_ok (w : world) (nf nb : text) (season : Z) (st : state) (q : text) :
  inv st -> flow_ok (query_step w nf nb season st q).
Proof.
  intros Hst. unfold query_step.
  assert (inv (fold_left (host_step w q) search_hosts (emit (ESearching q) st))) as H0.
  { apply host_loop_inv. apply inv_emit; [discriminate | exact Hst]. }
  destruct (soup (fold_left (host_step w q) search_hosts (emit (ESearching q) st)))
    as [cards |] eqn:Esoup.
  - apply card_loop_ok; [exact H0 | congruence].
  - cbn [flow_ok]. intros Hs _. exfalso.
    apply scored_snoc_other in Hs; [| discriminate].
    destruct H0 as (_ & _ & H3). exact (H3 Hs Esoup).
Qed.

Lemma query_loop_ok (w : world) (nf nb : text) (season : Z) (qs : list text) (st : state) :
  inv st -> flow_ok (query_loop w nf nb season st qs).
Proof.
  revert st. induction qs as [| q qs IH]; intros st Hst; [exact Hst |].
  cbn [query_loop]. pose proof (query_step_ok w nf nb season st q Hst) as Hq.
  destruct (query_step w nf nb season st q) as [st' | r ev]; [apply IH |]; exact Hq.
Qed.

Lemma inv_init : inv init_state.
Proof.
  unfold inv, init_state, scored. cbn [log best_overall soup].
  repeat split.
  - intros [c []].
  - discriminate.
  - intros [c []].
Qed.

(** C5, as amended: a run that has scored at least one candidate and is not
    ended by an exception returns the link of a scored candidate: the one
    accepted at once, or the best overall, which is returned whatever its
    score; a score below 0.50 only adds the low-confidence line. *)
Theorem low_score_still_returned (data : tv_data) (w : world) (season episode : Z) :
  scored (snd (resolve_tmdb_tv_to_mlbd_url data w season episode)) ->
  ~ In EException (snd (resolve_tmdb_tv_to_mlbd_url data w season episode)) ->
  exists c,
    In (EBest c) (snd (resolve_tmdb_tv_to_mlbd_url data w season episode))
    /\ fst (resolve_tmdb_tv_to_mlbd_url data w season episode) = Some (href c)
    /\ (In (EImmediate (href c)) (snd (resolve_tmdb_tv_to_mlbd_url data w season episode))
        \/ (In (EFinalPick c) (snd (resolve_tmdb_tv_to_mlbd_url data w season episode))
            /\ ((score c < 0.50)%Q ->
                In (ELowScore (href c))
                   (snd (resolve_tmdb_tv_to_mlbd_url data w season episode))))).
Proof.
  unfold resolve_tmdb_tv_to_mlbd_url.
  destruct (tmdb_title_of data) as [| t0 title] eqn:Et.
  - cbn [fst snd]. intros [c [Hc | []]]. discriminate Hc.
  - pose proof (query_loop_ok w (normalize_title (t0 :: title))
                  (normalize_title (base_title (t0 :: title))) season
                  (query_variants (t0 :: title)) init_state inv_init) as Hq.
    destruct (query_loop w (normalize_title (t0 :: title))
                (normalize_title (base_title (t0 :: title))) season init_state
                (query_variants (t0 :: title))) as [st | r ev].
    + destruct Hq as (H1 & H2 & _). unfold finish.
      destruct (best_overall st) as [bo |] eqn:Ebo.
      * intros _ _. exists bo.
        destruct (Qltb (score bo) (double 0.50)) eqn:Elow; cbn [fst snd].
        -- split; [apply in_app_iff; left; apply H2; reflexivity |].
           split; [reflexivity |]. right.
           split; [apply in_app_iff; right; cbn; auto |].
           intros _. apply in_app_iff. right. cbn. auto.
        -- split; [apply in_app_iff; left; apply H2; reflexivity |].
           split; [reflexivity |]. right.
           split; [apply in_app_iff; right; cbn; auto |].
           intros Hlt. exfalso. apply Qltb_ge in Elow.
           rewrite threshold_050 in Elow. exact (Qlt_not_le _ _ Hlt Elow).
      * cbn [fst snd]. intros Hs _. apply scored_snoc_other in Hs; [| discriminate].
        destruct (H1 Hs) as [bo Hbo]. discriminate Hbo.
    + cbn [fst snd]. intros Hs Hx. destruct (Hq Hs Hx) as (c & Hc & Hr & Hi).
      exists c. auto.
Qed.

(** C5, as amended, at a listing whose only entry scores
    0.1311111111111111. *)
Lemma low_score_still_returned_witness :
  scored (snd (resolve_tmdb_tv_to_mlbd_url (Inputs.tv "Dark") Inputs.weak_world 1 1))
  /\ ~ In EException (snd (resolve_tmdb_tv_to_mlbd_url (Inputs.tv "Dark")
                                                        Inputs.weak_world 1 1))
  /\ exists c,
    In (EBest c) (snd (resolve_tmdb_tv_to_mlbd_url (Inputs.tv "Dark") Inputs.weak_world 1 1))
    /\ fst (resolve_tmdb_tv_to_mlbd_url (Inputs.tv "Dark") Inputs.weak_world 1 1)
       = Some (href c)
    /\ (In (EImmediate (href c))
           (snd (resolve_tmdb_tv_to_mlbd_url (Inputs.tv "Dark") Inputs.weak_world 1 1))
        \/ (In (EFinalPick c)
               (snd (resolve_tmdb_tv_to_mlbd_url (Inputs.tv "Dark") Inputs.weak_world 1 1))
            /\ ((score c < 0.50)%Q ->
                In (ELowScore (href c))
                   (snd (resolve_tmdb_tv_to_mlbd_url (Inputs.tv "Dark")
                                                     Inputs.weak_world 1 1))))).
Proof.
  assert (scored (snd (resolve_tmdb_tv_to_mlbd_url (Inputs.tv "Dark")
                                                   Inputs.weak_world 1 1))) as Hs.
  { unfold scored. eexists. vm_compute. do 4 right. left. reflexivity. }
  assert (~ In EException (snd (resolve_tmdb_tv_to_mlbd_url (Inputs.tv "Dark")
                                                            Inputs.weak_world 1 1))) as Hx.
  { vm_compute. intros H. repeat (destruct H as [H | H]; [discriminate H |]). exact H. }
  split; [exact Hs |]. split; [exact Hx |].
  exact (low_score_still_returned (Inputs.tv "Dark") Inputs.weak_world 1 1 Hs Hx).
Defined.

(** C5, as stated, fails when an exception ends the run: with a listing of
    the movie "Zebra Crossing" followed by an entry whose season number has
    4301 digits, the movie is scored and becomes the best overall, then [int]
    refuses the number of the second entry and nothing is returned. *)
Lemma exception_discards_best_overall :
  ~ (forall (data : tv_data) (w : world) (season episode : Z),
       scored (snd (resolve_tmdb_tv_to_mlbd_url data w season episode)) ->
       exists c,
         In (EBest c) (snd (resolve_tmdb_tv_to_mlbd_url data w season episode))
         /\ fst (resolve_tmdb_tv_to_mlbd_url data w season episode) = Some (href c)).
Proof.
  intros H. specialize (H (Inputs.tv "Dark") Inputs.long_season_world 1%Z 1%Z).
  assert (fst (resolve_tmdb_tv_to_mlbd_url (Inputs.tv "Dark") Inputs.long_season_world 1 1)
          = None) as Hn by (vm_compute; reflexivity).
  rewrite Hn in H.
  destruct H as (c & _ & Hc); [| discriminate Hc].
  unfold scored. eexists. vm_compute. do 4 right. left. reflexivity.
Qed.

(** ** The gate page, at concrete pages *)



(** On a page with both a meta-refresh target and a navigating script the
    series path follows the meta-refresh, the movie path the script. *)
Lemma movie_gate_script_over_refresh :
  Gate.series_gate (T "https://h.example") Inputs.refresh_gate
  = Gate.ScrapeVideoPage (T "https://h.example/watch/abc")
  /\ Gate.movie_gate Inputs.refresh_gate
     = Gate.ScrapeVideoPage (T "https://playk8.movielinkbd.sbs/watch/xyz").
Proof. split; vm_compute; reflexivity. Qed.
(** ** The normaliser *)

Import Shape.

(** C6, as stated, fails: "ep-1" normalizes to "ep 1", which is an episode
    token and normalizes to the empty title. *)
Lemma normalize_not_idempotent :
  ~ (forall x : text, normalize_title (normalize_title x) = normalize_title x).
Proof.
  intros H. specialize (H (T "ep-1")).
  assert (normalize_title (T "ep-1") = T "ep 1") as E by (vm_compute; reflexivity).
  rewrite E in H.
  assert (normalize_title (T "ep 1") = []) as E' by (vm_compute; reflexivity).
  rewrite E' in H. discriminate H.
Qed.

Lemma kept_char_not_upper (c : ascii) : kept_char c = true -> is_upper c = false.
Proof. destruct c as [[] [] [] [] [] [] [] []]; vm_compute; congruence. Qed.

Lemma kept_char_not_paren (c : ascii) : kept_char c = true -> ascii_eqb "(" c = false.
Proof. destruct c as [[] [] [] [] [] [] [] []]; vm_compute; congruence. Qed.

Lemma space_is_kept (c : ascii) : is_space c = true -> kept_char c = true.
Proof. unfold kept_char. intros ->. apply orb_true_r. Qed.

Lemma lower_kept (s : text) : Forall (fun c => kept_char c = true) s -> lower s = s.
Proof.
  induction 1 as [| c s Hc _ IH]; [reflexivity |].
  cbn [lower map]. fold (lower s). rewrite IH. unfold lower_char.
  rewrite (kept_char_not_upper c Hc). reflexivity.
Qed.

(** *** Stripping *)

Lemma lstrip_suffix (s : text) : exists pre, s = pre ++ lstrip s.
Proof.
  induction s as [| c s [pre IH]]; [exists []; reflexivity |].
  cbn [lstrip]. destruct (is_space c).
  - exists (c :: pre). cbn [app]. f_equal. exact IH.
  - exists []. reflexivity.
Qed.

Lemma rstrip_prefix (s : text) : exists suf, s = rstrip s ++ suf.
Proof.
  unfold rstrip. destruct (lstrip_suffix (rev s)) as [pre E].
  exists (rev pre). rewrite <- rev_app_distr, <- E, rev_involutive. reflexivity.
Qed.

Lemma lstrip_length (s : text) : (length (lstrip s) <= length s)%nat.
Proof.
  destruct (lstrip_suffix s) as [pre E]. apply (f_equal (@length ascii)) in E.
  rewrite length_app in E. lia.
Qed.

Lemma head_ok_lstrip (s : text) : head_ok (lstrip s).
Proof.
  induction s as [| c s IH]; [exact I |].
  cbn [lstrip]. destruct (is_space c) eqn:E; [exact IH | exact E].
Qed.

Lemma lstrip_id (s : text) : head_ok s -> lstrip s = s.
Proof. destruct s as [| c s]; [reflexivity |]. cbn. intros ->. reflexivity. Qed.

Lemma rstrip_id (s : text) : head_ok (rev s) -> rstrip s = s.
Proof. intros H. unfold rstrip. rewrite (lstrip_id _ H). apply rev_involutive. Qed.

Lemma head_ok_rev_rstrip (s : text) : head_ok (rev (rstrip s)).
Proof. unfold rstrip. rewrite rev_involutive. apply head_ok_lstrip. Qed.

Lemma head_ok_rstrip (s : text) : head_ok s -> head_ok (rstrip s).
Proof.
  intros H. destruct (rstrip_prefix s) as [suf E].
  destruct (rstrip s) as [| c r]; [exact I |].
  rewrite E in H. exact H.
Qed.

Lemma strip_id (s : text) : head_ok s -> head_ok (rev s) -> strip s = s.
Proof.
  intros H1 H2. unfold strip. rewrite (lstrip_id s H1). apply rstrip_id. exact H2.
Qed.

Lemma Forall_strip (P : ascii -> Prop) (s : text) : Forall P s -> Forall P (strip s).
Proof.
  intros H. unfold strip.
  destruct (lstrip_suffix s) as [pre E1].
  destruct (rstrip_prefix (lstrip s)) as [suf E2].
  rewrite E1 in H. apply Forall_app in H. destruct H as [_ H].
  rewrite E2 in H. apply Forall_app in H. destruct H as [H _]. exact H.
Qed.

Lemma no_adjacent_app_r (a b : text) : no_adjacent (a ++ b) -> no_adjacent b.
Proof.
  induction a as [| c a IH]; [auto |].
  cbn [app no_adjacent]. intros [_ H]. apply IH. exact H.
Qed.

Lemma no_adjacent_app_l (a b : text) : no_adjacent (a ++ b) -> no_adjacent a.
Proof.
  induction a as [| c a IH]; [intros _; exact I |].
  cbn [app]. intros [Hc H]. split; [| apply IH; exact H].
  destruct a as [| d a]; [exact I | exact Hc].
Qed.

Lemma no_adjacent_strip (s : text) : no_adjacent s -> no_adjacent (strip s).
Proof.
  intros H. unfold strip.
  destruct (lstrip_suffix s) as [pre E1].
  destruct (rstrip_prefix (lstrip s)) as [suf E2].
  rewrite E1 in H. apply no_adjacent_app_r in H.
  rewrite E2 in H. apply no_adjacent_app_l in H. exact H.
Qed.

(** *** Squeezing *)

Lemma squeeze_in_run (s : text) : squeeze_go true s = squeeze_go false (lstrip s).
Proof.
  induction s as [| c s IH]; [reflexivity |].
  cbn [squeeze_go lstrip]. destruct (is_space c) eqn:E; [exact IH |].
  cbn [squeeze_go]. rewrite E. reflexivity.
Qed.

Lemma squeeze_kept (b : bool) (s : text) :
  Forall (fun c => kept_char c = true) s ->
  Forall (fun c => kept_char c = true) (squeeze_go b s).
Proof.
  intros H. revert b. induction H as [| c s Hc _ IH]; intros b; [constructor |].
  cbn [squeeze_go]. destruct (is_space c); [destruct b |]; auto.
Qed.

Lemma squeeze_plain (b : bool) (s : text) : plain_spaces (squeeze_go b s).
Proof.
  unfold plain_spaces. revert b. induction s as [| c s IH]; intros b; [constructor |].
  cbn [squeeze_go]. destruct (is_space c) eqn:E; [destruct b |]; auto.
  constructor; [congruence | apply IH].
Qed.

Lemma squeeze_head (s : text) : head_ok (squeeze_go true s).
Proof.
  induction s as [| c s IH]; [exact I |].
  cbn [squeeze_go]. destruct (is_space c) eqn:E; [exact IH | exact E].
Qed.

Lemma squeeze_no_adjacent (b : bool) (s : text) : no_adjacent (squeeze_go b s).
Proof.
  revert b. induction s as [| c s IH]; intros b; [exact I |].
  cbn [squeeze_go]. destruct (is_space c) eqn:E; [destruct b |].
  - apply IH.
  - split; [| apply IH].
    pose proof (squeeze_head s) as Hh.
    destruct (squeeze_go true s) as [| d r]; [exact I |].
    cbn in Hh. rewrite Hh. apply andb_false_r.
  - split; [| apply IH].
    destruct (squeeze_go false s) as [| d r]; [exact I |].
    rewrite E. reflexivity.
Qed.

Lemma squeeze_id (s : text) : plain_spaces s -> no_adjacent s -> squeeze_go false s = s.
Proof.
  unfold plain_spaces. induction 1 as [| c s Hc _ IH]; [reflexivity |].
  intros [Hn Hs]. cbn [squeeze_go]. destruct (is_space c) eqn:E.
  - assert (lstrip s = s) as Hl.
    { apply lstrip_id. destruct s as [| d s]; [exact I |].
      cbn [head_ok]. exact Hn. }
    rewrite squeeze_in_run, Hl, (IH Hs), (Hc eq_refl). reflexivity.
  - rewrite (IH Hs). reflexivity.
Qed.

(** The last two steps always leave a tidy title. *)
Lemma strip_squeeze_tidy (s : text) :
  Forall (fun c => kept_char c = true) s -> tidy (strip (squeeze_go false s)).
Proof.
  intros H. unfold tidy. repeat split.
  - apply Forall_strip, squeeze_kept, H.
  - apply Forall_strip, squeeze_plain.
  - apply no_adjacent_strip, squeeze_no_adjacent.
  - unfold strip. apply head_ok_rstrip, head_ok_lstrip.
  - unfold strip. apply head_ok_rev_rstrip.
Qed.

(** *** The substitutions, one by one *)

(** A pattern that is found nowhere leaves the text as it is. *)
Lemma sub_from_no_match (r : regex) (repl s : text) :
  forall prev pre n, search_from r prev pre s = None -> sub_from n r repl prev s = s.
Proof.
  induction s as [| c s IH]; intros prev pre n H.
  - destruct n; reflexivity.
  - cbn [search_from] in H.
    destruct (match_here r prev (c :: s)) as [[[p rest] g] |] eqn:Em; [discriminate H |].
    destruct n as [| n]; [reflexivity |].
    cbn [sub_from]. rewrite Em. f_equal. exact (IH _ _ n H).
Qed.

Lemma sub_no_match (r : regex) (repl s : text) :
  search r s = None -> sub r repl s = s.
Proof. intros H. unfold sub. exact (sub_from_no_match r repl s None [] _ H). Qed.

Lemma strip_noise_no_match (ws : list text) (s : text) :
  Forall (fun w => search (noise_re w) s = None) ws ->
  fold_left (fun s w => sub (noise_re w) [] s) ws s = s.
Proof.
  induction 1 as [| w ws Hw _ IH]; [reflexivity |].
  cbn [fold_left]. rewrite (sub_no_match _ _ _ Hw). exact IH.
Qed.

Lemma year_not_here (prev : option ascii) (s : text) :
  Forall (fun c => kept_char c = true) s -> match_here year_re prev s = None.
Proof.
  intros H. unfold match_here, year_re. cbn [rseqs rmatch lit_char].
  destruct H as [| c s Hc _]; [reflexivity |].
  rewrite (kept_char_not_paren c Hc). reflexivity.
Qed.

Lemma year_nowhere (s : text) :
  Forall (fun c => kept_char c = true) s ->
  forall prev pre, search_from year_re prev pre s = None.
Proof.
  intros H. induction H as [| c s Hc Hs IH]; intros prev pre.
  - cbn [search_from]. rewrite (year_not_here prev []); [reflexivity | constructor].
  - cbn [search_from]. rewrite (year_not_here prev (c :: s)); [| constructor; assumption].
    apply IH.
Qed.

Lemma sub_junk (s : text) :
  forall n prev, (length s < n)%nat ->
  sub_from n junk_re (T " ") prev s = map keep_or_space s.
Proof.
  induction s as [| c s IH]; intros n prev Hn.
  - destruct n; reflexivity.
  - destruct n as [| n]; [cbn in Hn; lia |].
    cbn [length] in Hn. cbn [sub_from map].
    unfold match_here, junk_re. cbn [rmatch]. unfold keep_or_space at 1.
    destruct (kept_char c); cbn [negb].
    + f_equal. apply IH. lia.
    + assert ((length s <? length (c :: s))%nat = true) as ->
          by (apply Nat.ltb_lt; cbn [length]; lia).
      change (T " " ++ ?x) with (" "%char :: x). f_equal. apply IH. lia.
Qed.

Lemma star_space_final (n : nat) :
  forall prev s g, (length s <= n)%nat ->
  exists prev',
    star_loop (rmatch (RChar is_space)) (fun p s' g' => Some (p, s', g')) n prev s g
    = Some (prev', lstrip s, g).
Proof.
  set (body := rmatch (RChar is_space)).
  induction n as [| n IH]; intros prev s g Hn.
  - destruct s; [| cbn in Hn; lia]. exists prev. reflexivity.
  - cbn [star_loop]. destruct s as [| c s]; [exists prev; reflexivity |].
    unfold body at 1. cbn [rmatch lstrip]. destruct (is_space c).
    + assert ((length s <? length (c :: s))%nat = true) as ->
          by (apply Nat.ltb_lt; cbn [length]; lia).
      cbn [length] in Hn. destruct (IH (Some c) s g ltac:(lia)) as [p' ->].
      exists p'. reflexivity.
    + exists prev. reflexivity.
Qed.

Lemma spaces_not_here (prev : option ascii) (c : ascii) (s : text) :
  is_space c = false -> match_here spaces_re prev (c :: s) = None.
Proof.
  intros H. unfold match_here, spaces_re, rplus, space. cbn [rmatch]. rewrite H. reflexivity.
Qed.

Lemma spaces_here (prev : option ascii) (c : ascii) (s : text) :
  is_space c = true ->
  exists p', match_here spaces_re prev (c :: s) = Some (p', lstrip s, []).
Proof.
  intros H. unfold match_here, spaces_re, rplus, space. cbn [rmatch]. rewrite H.
  apply star_space_final. lia.
Qed.

Lemma sub_spaces (n : nat) :
  forall s prev, (length s < n)%nat ->
  sub_from n spaces_re (T " ") prev s = squeeze_go false s.
Proof.
  induction n as [| n IH]; intros s prev Hn; [lia |].
  destruct s as [| c s]; [reflexivity |].
  cbn [length] in Hn. cbn [sub_from squeeze_go].
  destruct (is_space c) eqn:E.
  - destruct (spaces_here prev c s E) as [p' ->].
    pose proof (lstrip_length s) as Hl.
    assert ((length (lstrip s) <? length (c :: s))%nat = true) as ->
        by (apply Nat.ltb_lt; cbn [length]; lia).
    change (T " " ++ ?x) with (" "%char :: x). f_equal.
    rewrite squeeze_in_run. apply IH. lia.
  - rewrite (spaces_not_here prev c s E). f_equal. apply IH. lia.
Qed.

(** *** The normaliser as a whole *)

Lemma keep_or_space_kept (s : text) :
  Forall (fun c => kept_char c = true) (map keep_or_space s).
Proof.
  induction s as [| c s IH]; [constructor |].
  cbn [map]. constructor; [| exact IH].
  unfold keep_or_space. destruct (kept_char c) eqn:E; [exact E | reflexivity].
Qed.

Lemma keep_or_space_id (s : text) :
  Forall (fun c => kept_char c = true) s -> map keep_or_space s = s.
Proof.
  induction 1 as [| c s Hc _ IH]; [reflexivity |].
  cbn [map]. rewrite IH. unfold keep_or_space. rewrite Hc. reflexivity.
Qed.

Lemma last_steps (s : text) :
  strip (sub spaces_re (T " ") (sub junk_re (T " ") s))
  = strip (squeeze_go false (map keep_or_space s)).
Proof.
  unfold sub. rewrite sub_spaces by lia. rewrite sub_junk by lia. reflexivity.
Qed.

(** Every normalized title is tidy. *)
Lemma normalize_tidy (x : text) : tidy (normalize_title x).
Proof.
  unfold normalize_title. rewrite last_steps.
  apply strip_squeeze_tidy, keep_or_space_kept.
Qed.

Lemma normalize_tidy_id (y : text) :
  tidy y ->
  search season_token_re y = None ->
  Forall (fun w => search (noise_re w) y = None) noise ->
  normalize_title y = y.
Proof.
  intros (Hk & Hp & Hn & Hh & Hr) Hseason Hnoise.
  unfold normalize_title. rewrite last_steps.
  rewrite (lower_kept y Hk), (strip_id y Hh Hr).
  rewrite (sub_no_match year_re [] y (year_nowhere y Hk None [])).
  rewrite (sub_no_match season_token_re [] y Hseason).
  unfold strip_noise. rewrite (strip_noise_no_match noise y Hnoise).
  rewrite (keep_or_space_id y Hk), (squeeze_id y Hp Hn).
  exact (strip_id y Hh Hr).
Qed.

(** C6, as amended: normalizing twice is normalizing once for every input
    whose normalized title holds no season or episode token and no noise
    word. *)
Theorem normalize_idempotent_when_clean (x : text) :
  search season_token_re (normalize_title x) = None ->
  Forall (fun w => search (noise_re w) (normalize_title x) = None) noise ->
  normalize_title (normalize_title x) = normalize_title x.
Proof.
  intros Hseason Hnoise.
  exact (normalize_tidy_id (normalize_title x) (normalize_tidy x) Hseason Hnoise).
Qed.

Lemma normalize_idempotent_when_clean_witness :
  search season_token_re
         (normalize_title (T "Money Heist (2017) Season 3 Bangla Dubbed 720p")) = None
  /\ Forall (fun w =>
               search (noise_re w)
                      (normalize_title (T "Money Heist (2017) Season 3 Bangla Dubbed 720p"))
               = None) noise
  /\ normalize_title (normalize_title (T "Money Heist (2017) Season 3 Bangla Dubbed 720p"))
     = normalize_title (T "Money Heist (2017) Season 3 Bangla Dubbed 720p").
Proof.
  assert (search season_token_re
            (normalize_title (T "Money Heist (2017) Season 3 Bangla Dubbed 720p")) = None)
    as H1 by (vm_compute; reflexivity).
  assert (Forall (fun w =>
                    search (noise_re w)
                      (normalize_title (T "Money Heist (2017) Season 3 Bangla Dubbed 720p"))
                    = None) noise) as H2.
  { unfold noise. cbn [map]. repeat (constructor; [vm_compute; reflexivity |]). constructor. }
  split; [exact H1 |]. split; [exact H2 |].
  exact (normalize_idempotent_when_clean _ H1 H2).
Defined.

(** The example of the specification. *)
Lemma normalize_money_heist :
  normalize_title (T "Money Heist (2017) Season 3 Bangla Dubbed 720p") = T "money heist".
Proof. vm_compute. reflexivity. Qed.

(** * Further properties of the code *)

Import Cut.

(** ** Text *)

Lemma ascii_eqb_eq (a b : ascii) : ascii_eqb a b = true <-> a = b.
Proof.
  unfold ascii_eqb, code. rewrite N.eqb_eq. split; [| intros ->; reflexivity].
  intros H. rewrite <- (ascii_N_embedding a), <- (ascii_N_embedding b), H. reflexivity.
Qed.

Lemma text_eqb_eq (a b : text) : text_eqb a b = true <-> a = b.
Proof.
  revert b. induction a as [| x a IH]; intros [| y b]; cbn [text_eqb];
    try (split; [discriminate | discriminate]); [tauto |].
  rewrite andb_true_iff, ascii_eqb_eq, IH. split.
  - intros [-> ->]. reflexivity.
  - intros H. injection H as -> ->. auto.
Qed.

Lemma lower_char_twice (c : ascii) : lower_char (lower_char c) = lower_char c.
Proof. destruct c as [[] [] [] [] [] [] [] []]; vm_compute; reflexivity. Qed.

Lemma lower_char_space (c : ascii) : is_space (lower_char c) = is_space c.
Proof. destruct c as [[] [] [] [] [] [] [] []]; vm_compute; reflexivity. Qed.

Lemma lower_twice (s : text) : lower (lower s) = lower s.
Proof.
  unfold lower. rewrite map_map. apply map_ext. intros c. apply lower_char_twice.
Qed.

Lemma lower_lstrip (s : text) : lower (lstrip s) = lstrip (lower s).
Proof.
  induction s as [| c s IH]; [reflexivity |].
  cbn [lstrip lower map]. rewrite lower_char_space.
  destruct (is_space c); [exact IH | reflexivity].
Qed.

Lemma lower_strip (s : text) : lower (strip s) = strip (lower s).
Proof.
  unfold strip, rstrip. unfold lower at 1. rewrite map_rev. fold (lower (lstrip (rev (lstrip s)))).
  rewrite lower_lstrip. unfold lower at 1. rewrite map_rev. fold (lower (lstrip s)).
  rewrite lower_lstrip. reflexivity.
Qed.

Lemma strip_strip (s : text) : strip (strip s) = strip s.
Proof.
  apply strip_id.
  - unfold strip. apply head_ok_rstrip, head_ok_lstrip.
  - unfold strip. apply head_ok_rev_rstrip.
Qed.

(** ** The normaliser and the base title *)

(** X1: whatever the title, its normalized form holds only lowercase
    letters, digits and plain spaces, never two spaces in a row, and no space
    at either end. *)
Theorem normalize_title_shape (x : text) :
  Forall (fun c => is_lower c || is_digit c = true \/ c = " "%char) (normalize_title x)
  /\ Shape.no_adjacent (normalize_title x)
  /\ Shape.head_ok (normalize_title x)
  /\ Shape.head_ok (rev (normalize_title x)).
Proof.
  destruct (normalize_tidy x) as (Hk & Hp & Hn & Hh & Hr).
  repeat split; try assumption.
  unfold Shape.plain_spaces in Hp. rewrite Forall_forall in *.
  intros c Hc. specialize (Hk c Hc). specialize (Hp c Hc).
  unfold kept_char in Hk. destruct (is_space c); [right; auto | left].
  rewrite orb_false_r in Hk. exact Hk.
Qed.

(** X2: the normalizer does not see the case of its input nor the white
    space around it: a title, its lowercase form and its stripped form
    normalize to the same string. *)
Theorem normalize_title_ignores_case_and_margins (x : text) :
  normalize_title (lower x) = normalize_title x
  /\ normalize_title (strip x) = normalize_title x.
Proof.
  unfold normalize_title. split.
  - rewrite lower_twice. reflexivity.
  - rewrite lower_strip, strip_strip. reflexivity.
Qed.

Lemma search_class_before (p : ascii -> bool) (s : text) :
  forall prev pre,
    match search_from (RChar p) prev pre s with
    | Some m => m_before m = rev pre ++ before p s
    | None => before p s = s
    end.
Proof.
  induction s as [| c s IH]; intros prev pre.
  - cbn. reflexivity.
  - cbn [search_from]. unfold match_here. cbn [rmatch before].
    destruct (p c).
    + cbn [m_before]. rewrite app_nil_r. reflexivity.
    + specialize (IH (Some c) (c :: pre)).
      destruct (search_from (RChar p) (Some c) (c :: pre) s) as [m |].
      * rewrite IH. cbn [rev]. rewrite <- app_assoc. reflexivity.
      * rewrite IH. reflexivity.
Qed.

Lemma base_title_before (s : text) : base_title s = strip (before is_sep s).
Proof.
  unfold base_title, search, one_of.
  pose proof (search_class_before is_sep s None []) as H. unfold is_sep in *.
  destruct (search_from _ None [] s) as [m |]; rewrite H; reflexivity.
Qed.

Lemma before_no_class (p : ascii -> bool) (s : text) :
  Forall (fun c => p c = false) (before p s).
Proof.
  induction s as [| c s IH]; [constructor |].
  cbn [before]. destruct (p c) eqn:E; constructor; assumption.
Qed.

Lemma before_id (p : ascii -> bool) (s : text) :
  Forall (fun c => p c = false) s -> before p s = s.
Proof.
  induction 1 as [| c s Hc _ IH]; [reflexivity |].
  cbn [before]. rewrite Hc, IH. reflexivity.
Qed.

(** X3: the base title holds none of the three separators (colon, hyphen,
    opening parenthesis), has no white space at either end, and taking the
    base title of a base title changes nothing. *)
Theorem base_title_clean_and_idempotent (s : text) :
  Forall (fun c => is_sep c = false) (base_title s)
  /\ strip (base_title s) = base_title s
  /\ base_title (base_title s) = base_title s.
Proof.
  assert (Forall (fun c => is_sep c = false) (base_title s)) as H.
  { rewrite base_title_before. apply Forall_strip, before_no_class. }
  split; [exact H |]. split.
  - rewrite base_title_before. apply strip_strip.
  - rewrite (base_title_before (base_title s)), (before_id _ _ H).
    rewrite base_title_before. apply strip_strip.
Qed.

(** X4: the analyser's query list holds no empty query, no two queries
    that are equal up to case, and at most two queries; a name that is not
    empty is its first query, and every query is the name or its base
    title. *)
Theorem analyzer_queries_distinct (name : text) :
  Forall (fun q => q <> []) (AnalyzerQueries.queries name)
  /\ NoDup (map lower (AnalyzerQueries.queries name))
  /\ (length (AnalyzerQueries.queries name) <= 2)%nat
  /\ (name <> [] -> head (AnalyzerQueries.queries name) = Some name)
  /\ Forall (fun q => q = name \/ q = base_title name) (AnalyzerQueries.queries name).
Proof.
  unfold AnalyzerQueries.queries. cbn [fold_left].
  destruct name as [| c name].
  - assert (base_title [] = []) as -> by reflexivity. cbn.
    split; [constructor |]. split; [constructor |]. split; [lia |].
    split; [congruence | constructor].
  - change (AnalyzerQueries.add_query [] (c :: name)) with [c :: name].
    unfold AnalyzerQueries.add_query.
    destruct (base_title (c :: name)) as [| b bt] eqn:Eb.
    + cbn [map length head].
      split; [repeat constructor; discriminate |].
      split; [apply NoDup_singleton |]. split; [lia |].
      split; [reflexivity | repeat constructor; auto].
    + cbn [map existsb]. rewrite orb_false_r.
      destruct (text_eqb (lower (b :: bt)) (lower (c :: name))) eqn:E.
      * cbn [map length head].
        split; [repeat constructor; discriminate |].
        split; [apply NoDup_singleton |]. split; [lia |].
        split; [reflexivity | repeat constructor; auto].
      * cbn [app map length head].
        split; [repeat constructor; discriminate |].
        split.
        { apply NoDup_cons. split; [| apply NoDup_singleton].
          rewrite list_elem_of_singleton. intros H. symmetry in H.
          apply text_eqb_eq in H. congruence. }
        split; [lia |].
        split; [reflexivity |].
        constructor; [left; reflexivity |].
        constructor; [right; reflexivity | constructor].
Qed.

Lemma analyzer_queries_distinct_witness :
  T "Dark: The Beginning" <> []
  /\ head (AnalyzerQueries.queries (T "Dark: The Beginning"))
     = Some (T "Dark: The Beginning").
Proof.
  split; [discriminate |].
  destruct (analyzer_queries_distinct (T "Dark: The Beginning")) as (_ & _ & _ & H & _).
  apply H. discriminate.
Defined.

(** ** Similarity *)

Lemma overlap_ratio_sym (A B : gset text) :
  Spec.overlap_ratio A B = Spec.overlap_ratio B A.
Proof.
  unfold Spec.overlap_ratio.
  rewrite (comm_L (∩) A B), (comm_L (∪) A B). reflexivity.
Qed.

Lemma overlap_ratio_bounds (A B : gset text) :
  (0 <= Spec.overlap_ratio A B <= 1)%Q.
Proof.
  unfold Spec.overlap_ratio.
  assert (size (A ∩ B) <= size (A ∪ B))%nat as Hle
      by (apply subseteq_size; set_solver).
  set (i := size (A ∩ B)) in *. set (u := size (A ∪ B)) in *.
  destruct u as [| u].
  - assert (i = 0%nat) as -> by lia. cbn. split; discriminate.
  - assert (0 < inject_Z (Z.of_nat (S u)))%Q as Hu
        by (rewrite <- (Zlt_Qlt 0); lia).
    assert (0 <= inject_Z (Z.of_nat i))%Q as Hi
        by (rewrite <- (Zle_Qle 0); lia).
    assert (inject_Z (Z.of_nat i) <= inject_Z (Z.of_nat (S u)))%Q as Hiu
        by (rewrite <- Zle_Qle; lia).
    split.
    + apply Qle_shift_div_l; [exact Hu | lra].
    + apply Qle_shift_div_r; [exact Hu | lra].
Qed.

(** X5: the analyser's similarity does not depend on the order of its two
    titles and lies between 0 and 1. *)
Theorem score_similarity_symmetric_bounded (a b : text) :
  (Analyzer.score_similarity a b == Analyzer.score_similarity b a)%Q
  /\ (0 <= Analyzer.score_similarity a b <= 1)%Q.
Proof.
  split.
  - rewrite (score_similarity_overlap a b), (score_similarity_overlap b a).
    rewrite overlap_ratio_sym. reflexivity.
  - rewrite (score_similarity_overlap a b). apply overlap_ratio_bounds.
Qed.

(** X6: a title with at least one token has similarity 1 to itself, and to
    any title with the same tokens in another order or repeated; a title
    without a token has similarity 0 to everything. *)
Theorem score_similarity_same_tokens (a b : text) :
  (split_ws a <> [] -> Spec.token_set a = Spec.token_set b ->
   Analyzer.score_similarity a b == 1)%Q
  /\ (split_ws a = [] -> Analyzer.score_similarity a b == 0)%Q.
Proof.
  split.
  - intros Hne Heq. rewrite (score_similarity_overlap a b).
    unfold Spec.overlap_ratio. rewrite <- Heq.
    rewrite (idemp_L (∩) (Spec.token_set a)), (idemp_L (∪) (Spec.token_set a)).
    assert (size (Spec.token_set a) <> 0)%nat as Hs.
    { unfold Spec.token_set. destruct (split_ws a) as [| x xs]; [congruence |].
      apply size_non_empty_iff. intros H.
      assert (x ∈ (list_to_set (x :: xs) : gset text)) as Hx by set_solver.
      rewrite H in Hx. set_solver. }
    apply Qmult_inv_r. intros H.
    unfold Qeq, inject_Z in H. cbn [Qnum Qden] in H. lia.
  - intros He. unfold Analyzer.score_similarity. rewrite He. reflexivity.
Qed.

Lemma score_similarity_same_tokens_witness :
  split_ws (T "bad breaking bad") <> []
  /\ Spec.token_set (T "bad breaking bad") = Spec.token_set (T "breaking  bad")
  /\ (Analyzer.score_similarity (T "bad breaking bad") (T "breaking  bad") == 1)%Q.
Proof.
  assert (split_ws (T "bad breaking bad") <> []) as H1 by (vm_compute; discriminate).
  assert (Spec.token_set (T "bad breaking bad") = Spec.token_set (T "breaking  bad")) as H2.
  { unfold Spec.token_set.
    assert (split_ws (T "bad breaking bad") = [T "bad"; T "breaking"; T "bad"]) as ->
        by (vm_compute; reflexivity).
    assert (split_ws (T "breaking  bad") = [T "breaking"; T "bad"]) as ->
        by (vm_compute; reflexivity).
    apply set_eq. intros x. rewrite !elem_of_list_to_set, !elem_of_cons, !elem_of_nil.
    tauto. }
  split; [exact H1 |]. split; [exact H2 |].
  exact (proj1 (score_similarity_same_tokens _ _) H1 H2).
Defined.

Lemma scan_i_empty_b (a : text) (blo bhi : nat) (is_ : list nat) :
  forall j2len bst, Difflib.scan_i a [] blo bhi is_ j2len bst = bst.
Proof.
  induction is_ as [| i is_ IH]; intros j2len bst; [reflexivity |].
  cbn [Difflib.scan_i]. destruct (nth_error a i) as [x |]; [| reflexivity].
  assert (Difflib.b2j [] x = []) as ->
      by (unfold Difflib.b2j; destruct (Difflib.popular [] x); reflexivity).
  cbn [Difflib.scan_j]. apply IH.
Qed.

Lemma extend_left_at_start (n : nat) (a b : text) (lo : nat) (k : nat) :
  Difflib.extend_left n a b lo lo (Difflib.MkBest lo lo k) = Difflib.MkBest lo lo k.
Proof.
  destruct n; [reflexivity |]. cbn [Difflib.extend_left Difflib.besti Difflib.bestj].
  rewrite Nat.ltb_irrefl. reflexivity.
Qed.

Lemma matches_empty_r (a : text) : Difflib.matches a [] = 0%nat.
Proof.
  unfold Difflib.matches. cbn [length Difflib.matches_go Nat.mul Nat.add].
  replace (length a + (length a + 0) + 2)%nat with (S (S (length a + length a)))%nat by lia.
  cbn [Difflib.matches_go]. unfold Difflib.find_longest_match.
  rewrite scan_i_empty_b, extend_left_at_start.
  destruct (length a) as [| n]; [reflexivity |].
  cbn [Difflib.extend_right Difflib.besti Difflib.bestj Difflib.bestsize Nat.add].
  rewrite andb_false_r. reflexivity.
Qed.

Lemma matches_empty_l (b : text) : Difflib.matches [] b = 0%nat.
Proof. reflexivity. Qed.

Lemma ratio_empty_r (a : text) : a <> [] -> (Difflib.ratio a [] == 0)%Q.
Proof.
  intros Ha. unfold Difflib.ratio. rewrite matches_empty_r.
  destruct a as [| c a]; [congruence |]. cbn [length Nat.add Nat.eqb]. reflexivity.
Qed.

Lemma ratio_empty_l (b : text) : b <> [] -> (Difflib.ratio [] b == 0)%Q.
Proof.
  intros Hb. unfold Difflib.ratio. rewrite matches_empty_l.
  destruct b as [| c b]; [congruence |]. cbn [length Nat.add Nat.eqb]. reflexivity.
Qed.

(** ** The matching blocks stay inside their windows *)

Import Difflib Matching.

Lemma j2len_get_in (j : nat) (m : list (nat * nat)) :
  j2len_get j m = 0%nat \/ In (j, j2len_get j m) m.
Proof.
  induction m as [| [j' k] m IH]; [left; reflexivity |].
  cbn [j2len_get]. destruct (j' =? j)%nat eqn:E.
  - apply Nat.eqb_eq in E. subst j'. right. left. reflexivity.
  - destruct IH as [IH | IH]; [left; exact IH | right; right; exact IH].
Qed.

Lemma scan_j_inside (i alo ahi blo bhi : nat) (j2len : list (nat * nat)) (js : list nat)
  (newj2len : list (nat * nat)) (bst : best) :
  (alo <= i < ahi)%nat ->
  row_ok i alo blo j2len -> row_ok (S i) alo blo newj2len -> inside alo ahi blo bhi bst ->
  row_ok (S i) alo blo (fst (scan_j i blo bhi j2len js newj2len bst))
  /\ inside alo ahi blo bhi (snd (scan_j i blo bhi j2len js newj2len bst)).
Proof.
  intros Hi Hrow. revert newj2len bst.
  induction js as [| j js IH]; intros newj2len bst Hnew Hb; [split; assumption |].
  cbn [scan_j].
  destruct (j <? blo)%nat eqn:E1; [apply IH; assumption |].
  destruct (bhi <=? j)%nat eqn:E2; [split; assumption |].
  apply Nat.ltb_ge in E1. apply Nat.leb_gt in E2.
  set (k := S (match j with O => 0 | S j' => j2len_get j' j2len end)%nat).
  assert (k + alo <= S i /\ k + blo <= j + 1)%nat as [Hk1 Hk2].
  { unfold k. destruct j as [| j'].
    - lia.
    - destruct (j2len_get_in j' j2len) as [-> | Hin]; [lia |].
      destruct (Hrow _ _ Hin). lia. }
  apply IH.
  - intros j0 k0 [H | H]; [injection H as <- <-; lia | exact (Hnew _ _ H)].
  - destruct (bestsize bst <? k)%nat; [| exact Hb].
    unfold inside. cbn [besti bestj bestsize]. lia.
Qed.

Lemma scan_i_inside (a b : text) (alo ahi blo bhi : nat) (n i : nat)
  (j2len : list (nat * nat)) (bst : best) :
  (alo <= i)%nat -> (i + n <= ahi)%nat ->
  row_ok i alo blo j2len -> inside alo ahi blo bhi bst ->
  inside alo ahi blo bhi (scan_i a b blo bhi (seq i n) j2len bst).
Proof.
  revert i j2len bst. induction n as [| n IH]; intros i j2len bst Hi Hn Hrow Hb;
    [exact Hb |].
  cbn [seq scan_i]. destruct (nth_error a i) as [x |]; [| exact Hb].
  pose proof (scan_j_inside i alo ahi blo bhi j2len (b2j b x) [] bst) as H.
  destruct (scan_j i blo bhi j2len (b2j b x) [] bst) as [newj2len bst'].
  destruct H as [H1 H2]; [lia | exact Hrow | intros j k [] | exact Hb |].
  apply IH; [lia | lia | exact H1 | exact H2].
Qed.

Lemma extend_left_inside (n : nat) (a b : text) (alo ahi blo bhi : nat) (bst : best) :
  inside alo ahi blo bhi bst -> inside alo ahi blo bhi (extend_left n a b alo blo bst).
Proof.
  revert bst. induction n as [| n IH]; intros bst Hb; [exact Hb |].
  cbn [extend_left].
  destruct ((alo <? besti bst)%nat && (blo <? bestj bst)%nat
            && same_at a b (besti bst - 1) (bestj bst - 1)) eqn:E; [| exact Hb].
  apply andb_true_iff in E. destruct E as [E _].
  apply andb_true_iff in E. destruct E as [E1 E2].
  apply Nat.ltb_lt in E1, E2. apply IH.
  unfold inside in *. cbn [besti bestj bestsize]. lia.
Qed.

Lemma extend_right_inside (n : nat) (a b : text) (alo ahi blo bhi : nat) (bst : best) :
  inside alo ahi blo bhi bst -> inside alo ahi blo bhi (extend_right n a b ahi bhi bst).
Proof.
  revert bst. induction n as [| n IH]; intros bst Hb; [exact Hb |].
  cbn [extend_right].
  destruct ((besti bst + bestsize bst <? ahi)%nat && (bestj bst + bestsize bst <? bhi)%nat
            && same_at a b (besti bst + bestsize bst) (bestj bst + bestsize bst)) eqn:E;
    [| exact Hb].
  apply andb_true_iff in E. destruct E as [E _].
  apply andb_true_iff in E. destruct E as [E1 E2].
  apply Nat.ltb_lt in E1, E2. apply IH.
  unfold inside in *. cbn [besti bestj bestsize]. lia.
Qed.

Lemma find_longest_match_inside (a b : text) (alo ahi blo bhi : nat) :
  (alo <= ahi)%nat -> (blo <= bhi)%nat ->
  inside alo ahi blo bhi (find_longest_match a b alo ahi blo bhi).
Proof.
  intros Ha Hb. unfold find_longest_match.
  apply extend_right_inside, extend_left_inside, scan_i_inside.
  - lia.
  - lia.
  - intros j k [].
  - unfold inside. cbn [besti bestj bestsize]. lia.
Qed.

Lemma matches_go_bound (n : nat) (a b : text) (queue : list (nat * nat * nat * nat))
  (total : nat) :
  Forall window_ok queue ->
  (matches_go n a b queue total <= total + room_a queue
   /\ matches_go n a b queue total <= total + room_b queue)%nat.
Proof.
  revert queue total. induction n as [| n IH]; intros queue total Hq; [cbn; lia |].
  cbn [matches_go]. destruct queue as [| [[[alo ahi] blo] bhi] queue]; [cbn; lia |].
  inversion Hq as [| w q' Hw Hq' E]. subst. destruct Hw as [Ha Hb].
  pose proof (find_longest_match_inside a b alo ahi blo bhi Ha Hb) as Hm.
  set (m := find_longest_match a b alo ahi blo bhi) in *.
  destruct Hm as (H1 & H2 & H3 & H4). cbv zeta. cbn [room_a room_b].
  destruct (0 <? bestsize m)%nat eqn:Ek.
  - set (c1 := (alo <? besti m)%nat && (blo <? bestj m)%nat).
    set (c2 := (besti m + bestsize m <? ahi)%nat && (bestj m + bestsize m <? bhi)%nat).
    set (q1 := if c1 then (alo, besti m, blo, bestj m) :: queue else queue).
    set (q2 := if c2 then (besti m + bestsize m, ahi, bestj m + bestsize m, bhi) :: q1
               else q1).
    assert (Forall window_ok q1) as Hq1.
    { unfold q1. destruct c1; [constructor; [cbn; lia | exact Hq'] | exact Hq']. }
    assert (Forall window_ok q2) as Hq2.
    { unfold q2. destruct c2; [constructor; [cbn; lia | exact Hq1] | exact Hq1]. }
    destruct (IH q2 (total + bestsize m)%nat Hq2) as [IHa IHb].
    assert (room_a q2 + bestsize m <= (ahi - alo) + room_a queue)%nat as Ea
        by (unfold q2, q1; destruct c1, c2; cbn [room_a]; lia).
    assert (room_b q2 + bestsize m <= (bhi - blo) + room_b queue)%nat as Eb
        by (unfold q2, q1; destruct c1, c2; cbn [room_b]; lia).
    lia.
  - destruct (IH queue total Hq') as [IHa IHb]. lia.
Qed.

Lemma matches_bound (a b : text) :
  (matches a b <= length a /\ matches a b <= length b)%nat.
Proof.
  unfold matches.
  destruct (matches_go_bound (2 * length a + 2) a b [(0, length a, 0, length b)]%nat 0)
    as [Ha Hb].
  - constructor; [cbn; lia | constructor].
  - cbn [room_a room_b] in *. lia.
Qed.


(** [ratio] lies between 0 and 1, for strings that are not astronomically
    long. *)
Lemma ratio_unit_interval (a b : text) :
  (Z.of_nat (length a + length b) < 2 ^ 53)%Z -> (0 <= ratio a b <= 1)%Q.
Proof.
  intros Hlen. unfold ratio.
  destruct (length a + length b =? 0)%nat eqn:E0; [split; discriminate |].
  apply Nat.eqb_neq in E0.
  destruct (matches_bound a b) as [Ha Hb].
  set (M := matches a b) in *. set (L := (length a + length b)%nat) in *.
  assert (of_nat M == inject_Z (Z.of_nat M))%Q as EM
      by (apply round64_whole; [reflexivity | lia]).
  assert (of_nat L == inject_Z (Z.of_nat L))%Q as EL
      by (apply round64_whole; [reflexivity | lia]).
  assert (double 2 == 2)%Q as E2 by (vm_compute; reflexivity).
  assert (fmul (double 2) (of_nat M) == inject_Z (2 * Z.of_nat M))%Q as EP.
  { apply round64_whole; [| lia].
    rewrite EM, E2. unfold Qeq, Qmult, inject_Z. cbn [Qnum Qden]. lia. }
  unfold fdiv. apply round64_unit.
  rewrite EP, EL.
  assert (0 < inject_Z (Z.of_nat L))%Q as HL
      by (unfold Qlt, inject_Z; cbn [Qnum Qden]; lia).
  split.
  - apply Qle_shift_div_l; [exact HL |]. rewrite Qmult_0_l.
    unfold Qle, inject_Z. cbn [Qnum Qden]. lia.
  - apply Qle_shift_div_r; [exact HL |]. rewrite Qmult_1_l.
    unfold Qle, inject_Z. cbn [Qnum Qden]. lia.
Qed.

Lemma pymax_unit (x y : Q) :
  (0 <= x <= 1)%Q -> (0 <= y <= 1)%Q -> (0 <= pymax x y <= 1)%Q.
Proof.
  intros Hx Hy. unfold pymax, AnalyzerQueries.pymax. destruct (Qle_bool y x); assumption.
Qed.

Lemma short_sum (a b : text) :
  short a -> short b -> (Z.of_nat (length a + length b) < 2 ^ 53)%Z.
Proof.
  unfold short. intros Ha Hb. rewrite Nat2Z.inj_add.
  change (2 ^ 53)%Z with (2 ^ 52 + 2 ^ 52)%Z. lia.
Qed.

(** X7: a listing entry whose title normalizes to nothing (a title made of
    noise words only) has base score 0 in the resolver, whatever the
    reference title, as long as the reference's two normalized titles are
    not empty too. *)
Theorem noise_only_title_scores_zero (norm_full norm_base mlbd_title : text) :
  normalize_title mlbd_title = [] -> norm_full <> [] -> norm_base <> [] ->
  (base_score norm_full norm_base mlbd_title == 0)%Q.
Proof.
  intros Hn Hf Hb. unfold base_score. rewrite Hn.
  unfold pymax, AnalyzerQueries.pymax.
  destruct (Qle_bool _ _); [apply ratio_empty_l | apply ratio_empty_l]; assumption.
Qed.

Lemma noise_only_title_scores_zero_witness :
  normalize_title (T "Bangla Dubbed 720p HD") = [] /\ T "dark" <> [] /\ T "dark" <> []
  /\ (base_score (T "dark") (T "dark") (T "Bangla Dubbed 720p HD") == 0)%Q.
Proof.
  assert (normalize_title (T "Bangla Dubbed 720p HD") = []) as H by (vm_compute; reflexivity).
  split; [exact H |]. split; [discriminate |]. split; [discriminate |].
  apply (noise_only_title_scores_zero (T "dark") (T "dark") _ H); discriminate.
Defined.

(** ** Scoring *)

(** With a base score between 0 and 1 the rounding of the at most five
    float operations stays below [2 ^ -50]. *)
Lemma score_near_exact_sum (norm_full norm_base : text) (season : Z)
  (host : text) (fs fs' : option Z) (link mlbd_title : text) (type_span : option text)
  (c : candidate) :
  (0 <= base_score norm_full norm_base mlbd_title <= 1)%Q ->
  score_card norm_full norm_base season host fs link mlbd_title type_span = Some (c, fs') ->
  (base_score norm_full norm_base mlbd_title - 0.24 - (1 # 1125899906842624) <= score c
   <= base_score norm_full norm_base mlbd_title + 0.20 + (1 # 1125899906842624))%Q.
Proof.
  unfold score_card, season_step.
  generalize (base_score norm_full norm_base mlbd_title). intros base Hb.
  destruct literal_errors as (L15 & L05 & L10 & L02 & L03 & L07 & L20).
  revert L15 L05 L10 L02 L03 L07 L20.
  generalize (double 0.15) (double 0.05) (double 0.1) (double 0.02) (double 0.03)
             (double 0.07) (double 0.2).
  intros d15 d05 d10 d02 d03 d07 d20 L15 L05 L10 L02 L03 L07 L20.
  destruct (has_season_block (lower mlbd_title));
    [ destruct (season_number (lower mlbd_title)) as [| n |];
      [| destruct (n =? season)%Z |] |
      destruct ((season =? 1)%Z && is_bangla_dubbed (lower mlbd_title)) ];
    try discriminate;
    destruct (is_series_type type_span link);
    destruct (has_episode_batch (lower mlbd_title));
    cbn [andb negb]; intros H; injection H as <- _; cbn [score];
    repeat match goal with
           | |- context [fadd ?x ?y] =>
             lazymatch x with
             | context [fadd _ _] => fail
             | context [fsub _ _] => fail
             | _ =>
               let H := fresh "E" in
               assert (-2 < x + y < 2)%Q as H by lra;
               apply fadd_error in H; unfold u in H;
               revert H; generalize (fadd x y); intros ? H
             end
           | |- context [fsub ?x ?y] =>
             lazymatch x with
             | context [fadd _ _] => fail
             | context [fsub _ _] => fail
             | _ =>
               let H := fresh "E" in
               assert (-2 < x - y < 2)%Q as H by lra;
               apply fsub_error in H; unfold u in H;
               revert H; generalize (fsub x y); intros ? H
             end
           end;
    lra.
Qed.

Lemma base_score_unit (norm_full norm_base mlbd_title : text) :
  short norm_full -> short norm_base -> short (normalize_title mlbd_title) ->
  (0 <= base_score norm_full norm_base mlbd_title <= 1)%Q.
Proof.
  intros Hf Hb Hm. unfold base_score.
  apply pymax_unit; apply ratio_unit_interval, short_sum; assumption.
Qed.

(** X8: the adjustments move the score by at most 0.20 upwards (series
    entry with the requested season) and at most 0.24 downwards (episode
    batch of another season, not a series entry), up to the rounding of the
    float operations, which stays below [2 ^ -50]; this for titles of fewer
    than [2 ^ 52] characters, whose lengths are doubles. *)
Theorem adjusted_score_within_bounds (norm_full norm_base : text) (season : Z)
  (host : text) (fs fs' : option Z) (link mlbd_title : text) (type_span : option text)
  (c : candidate) :
  short norm_full -> short norm_base -> short (normalize_title mlbd_title) ->
  score_card norm_full norm_base season host fs link mlbd_title type_span = Some (c, fs') ->
  (base_score norm_full norm_base mlbd_title - 0.24 - (1 # 1125899906842624) <= score c
   <= base_score norm_full norm_base mlbd_title + 0.20 + (1 # 1125899906842624))%Q.
Proof.
  intros Hf Hb Hm. apply score_near_exact_sum, base_score_unit; assumption.
Qed.

Lemma short_dark :
  short (T "dark") /\ short (normalize_title (T "Dark Matter Season 2")).
Proof. split; vm_compute; reflexivity. Qed.

Lemma adjusted_score_within_bounds_witness :
  exists c,
    short (T "dark") /\ short (normalize_title (T "Dark Matter Season 2"))
    /\ score_card (T "dark") (T "dark") 1 Inputs.mirror2 None (T "/movie/dark-matter")
                  (T "Dark Matter Season 2") (Some (T "Movie")) = Some (c, Some 2%Z)
    /\ (base_score (T "dark") (T "dark") (T "Dark Matter Season 2") - 0.24
        - (1 # 1125899906842624) <= score c
        <= base_score (T "dark") (T "dark") (T "Dark Matter Season 2") + 0.20
           + (1 # 1125899906842624))%Q.
Proof.
  eexists. destruct short_dark as [H1 H2].
  split; [exact H1 |]. split; [exact H2 |].
  split; [vm_compute; reflexivity |].
  apply (adjusted_score_within_bounds (T "dark") (T "dark") 1 Inputs.mirror2 None
           (Some 2%Z) (T "/movie/dark-matter") (T "Dark Matter Season 2")
           (Some (T "Movie")) _ H1 H1 H2).
  vm_compute; reflexivity.
Defined.

(** X30: the base score of the resolver, the larger of the two
    [SequenceMatcher] ratios, lies between 0 and 1: the matching blocks found
    never hold more characters than either string has.  This for titles of
    fewer than [2 ^ 52] characters, whose lengths are doubles. *)
Theorem base_score_in_unit_interval (norm_full norm_base mlbd_title : text) :
  short norm_full -> short norm_base -> short (normalize_title mlbd_title) ->
  (Difflib.matches (normalize_title mlbd_title) norm_full
   <= Nat.min (length (normalize_title mlbd_title)) (length norm_full))%nat
  /\ (0 <= base_score norm_full norm_base mlbd_title <= 1)%Q.
Proof.
  intros Hf Hb Hm. split.
  - destruct (matches_bound (normalize_title mlbd_title) norm_full). lia.
  - apply base_score_unit; assumption.
Qed.

Lemma base_score_in_unit_interval_witness :
  short (T "dark") /\ short (normalize_title (T "Dark Matter Season 2"))
  /\ (0 <= base_score (T "dark") (T "dark") (T "Dark Matter Season 2") <= 1)%Q.
Proof.
  destruct short_dark as [H1 H2].
  split; [exact H1 |]. split; [exact H2 |].
  exact (proj2 (base_score_in_unit_interval (T "dark") (T "dark")
                  (T "Dark Matter Season 2") H1 H1 H2)).
Defined.

(** ** Ranking inside one listing *)

Import Ranking.

Lemma key_lt_spec (c d : candidate) :
  key_lt c d = true <->
  (is_series c = true /\ is_series d = false)
  \/ (is_series c = is_series d /\ (score d < score c)%Q).
Proof.
  unfold key_lt.
  destruct (is_series c), (is_series d); cbn [negb Bool.eqb andb];
    rewrite ?Qltb_lt; split; try tauto; try discriminate.
  - intros H. right. split; [reflexivity | lra].
  - intros [[_ H] | [_ H]]; [discriminate H | lra].
  - intros H. right. split; [reflexivity | lra].
  - intros [[H _] | [_ H]]; [discriminate H | lra].
Qed.

Lemma key_lt_false_spec (c d : candidate) :
  key_lt c d = false <->
  (is_series c = true -> is_series d = true)
  /\ (is_series c = is_series d -> (score c <= score d)%Q).
Proof.
  destruct (key_lt c d) eqn:E.
  - apply key_lt_spec in E. split; [discriminate |].
    intros [H1 H2]. destruct E as [[Hc Hd] | [He Hlt]].
    + rewrite (H1 Hc) in Hd. discriminate Hd.
    + specialize (H2 He). lra.
  - split; [| reflexivity]. intros _.
    assert (~ ((is_series c = true /\ is_series d = false)
               \/ (is_series c = is_series d /\ (score d < score c)%Q))) as Hn
        by (rewrite <- key_lt_spec; congruence).
    split.
    + intros Hc. destruct (is_series d) eqn:Hd; [reflexivity |]. exfalso. apply Hn. auto.
    + intros He. apply Qnot_lt_le. intros Hlt. apply Hn. auto.
Qed.

Lemma key_lt_irrefl (c : candidate) : key_lt c c = false.
Proof. apply key_lt_false_spec. split; [auto | intros _; lra]. Qed.

Lemma key_lt_false_trans (a b c : candidate) :
  key_lt b a = false -> key_lt c b = false -> key_lt c a = false.
Proof.
  rewrite !key_lt_false_spec. intros [H1 H2] [H3 H4]. split; [auto |].
  intros He. destruct (is_series c) eqn:Ec.
  - pose proof (H3 eq_refl) as Eb. rewrite Eb in *. rewrite <- He in *.
    specialize (H2 eq_refl). specialize (H4 eq_refl). lra.
  - destruct (is_series b) eqn:Eb.
    + rewrite (H1 eq_refl) in He. discriminate He.
    + rewrite <- He in *. specialize (H2 eq_refl). specialize (H4 eq_refl). lra.
Qed.

Lemma key_lt_asym (c d : candidate) : key_lt c d = true -> key_lt d c = false.
Proof.
  intros H. apply key_lt_spec in H. apply key_lt_false_spec.
  destruct H as [[Hc Hd] | [He Hlt]].
  - rewrite Hc, Hd. split; [discriminate | discriminate].
  - rewrite He. split; [auto | intros _; lra].
Qed.

Lemma key_lt_true_false (c b r : candidate) :
  key_lt c b = true -> key_lt r b = false -> key_lt c r = true.
Proof.
  intros H1 H2. apply key_lt_spec in H1. apply key_lt_false_spec in H2.
  apply key_lt_spec. destruct H2 as [H2 H3].
  destruct H1 as [[Hc Hb] | [He Hlt]].
  - left. split; [exact Hc |]. destruct (is_series r); [| reflexivity].
    rewrite (H2 eq_refl) in Hb. discriminate Hb.
  - destruct (is_series r) eqn:Er.
    + right. rewrite (H2 eq_refl) in *. split; [exact He |].
      specialize (H3 eq_refl). lra.
    + destruct (is_series b) eqn:Eb.
      * left. auto.
      * right. split; [exact He |]. specialize (H3 eq_refl). lra.
Qed.

Lemma insert_sorted_perm (c : candidate) (l : list candidate) :
  Permutation (insert_sorted c l) (c :: l).
Proof.
  induction l as [| d l IH]; [reflexivity |].
  cbn [insert_sorted]. destruct (key_lt d c); [| reflexivity].
  rewrite IH. apply perm_swap.
Qed.

Lemma sort_candidates_perm (l : list candidate) : Permutation (sort_candidates l) l.
Proof.
  induction l as [| c l IH]; [reflexivity |].
  cbn [sort_candidates fold_right]. fold (sort_candidates l).
  rewrite insert_sorted_perm, IH. reflexivity.
Qed.

Lemma insert_sorted_ranked (c : candidate) (l : list candidate) :
  ranked l -> ranked (insert_sorted c l).
Proof.
  induction l as [| d l IH]; intros Hl.
  - cbn. auto.
  - cbn [insert_sorted]. destruct Hl as [Hd Hl]. destruct (key_lt d c) eqn:E.
    + cbn [ranked]. split; [| apply IH; exact Hl].
      rewrite (insert_sorted_perm c l). constructor; [| exact Hd].
      apply key_lt_asym. exact E.
    + cbn [ranked]. split; [| split; assumption].
      constructor; [exact E |].
      rewrite Forall_forall in *. intros x Hx.
      apply (key_lt_false_trans c d x); [exact E | apply Hd; exact Hx].
Qed.

Lemma sort_candidates_ranked (l : list candidate) : ranked (sort_candidates l).
Proof.
  induction l as [| c l IH]; [exact I |].
  cbn [sort_candidates fold_right]. fold (sort_candidates l).
  apply insert_sorted_ranked. exact IH.
Qed.

(** X9: sorting a listing's candidates loses none and invents none: the
    sorted list is a permutation of the list. *)
Theorem sort_keeps_every_candidate (l : list candidate) :
  Permutation (sort_candidates l) l /\ length (sort_candidates l) = length l.
Proof.
  split; [apply sort_candidates_perm |].
  apply Permutation_length, sort_candidates_perm.
Qed.

(** X10: the first candidate after the sort is top-ranked: if any candidate
    of the list is a series entry then so is the first, and no candidate of
    the first one's kind has a higher score. *)
Theorem sorted_head_is_top_ranked (l : list candidate) (best : candidate)
  (rest : list candidate) (c : candidate) :
  sort_candidates l = best :: rest -> In c l ->
  (is_series c = true -> is_series best = true)
  /\ (is_series c = is_series best -> (score c <= score best)%Q).
Proof.
  intros Hs Hc. apply key_lt_false_spec.
  pose proof (sort_candidates_ranked l) as Hr. rewrite Hs in Hr.
  destruct Hr as [Hr _].
  assert (In c (best :: rest)) as Hc'.
  { rewrite <- Hs. apply (Permutation_in c (Permutation_sym (sort_candidates_perm l))).
    exact Hc. }
  destruct Hc' as [<- | Hc']; [apply key_lt_irrefl |].
  rewrite Forall_forall in Hr. apply Hr. apply list_elem_of_In. exact Hc'.
Qed.

Lemma insert_sorted_head_stays (best : candidate) (l : list candidate) :
  Forall (fun d => key_lt d best = false) l -> head (insert_sorted best l) = Some best.
Proof.
  intros H. destruct H as [| d l Hd _]; [reflexivity |].
  cbn [insert_sorted]. rewrite Hd. reflexivity.
Qed.

Lemma fold_insert_head_stays (c : candidate) (rest tail : list candidate) :
  Forall (fun r => key_lt c r = true) rest ->
  exists tail', fold_right insert_sorted (c :: tail) rest = c :: tail'.
Proof.
  induction 1 as [| r rest Hr _ [tail' IH]]; [eauto |].
  cbn [fold_right]. rewrite IH. cbn [insert_sorted]. rewrite Hr. eauto.
Qed.

(** X11: appending a candidate to a ranked list and sorting again, as the
    card loop does, changes the first candidate only if the new one has a
    strictly smaller key; with an equal key the earlier candidate stays
    first. *)
Theorem appended_candidate_needs_better_key (best : candidate) (rest : list candidate)
  (c : candidate) :
  ranked (best :: rest) ->
  head (sort_candidates ((best :: rest) ++ [c]))
  = Some (if key_lt c best then c else best).
Proof.
  intros [Hb Hr]. cbn [app sort_candidates fold_right].
  fold (sort_candidates (rest ++ [c])).
  destruct (key_lt c best) eqn:E.
  - unfold sort_candidates. rewrite fold_right_app. cbn [fold_right insert_sorted].
    destruct (fold_insert_head_stays c rest []) as [tail' ->].
    + rewrite Forall_forall in *. intros r Hr'.
      apply (key_lt_true_false c best r E). apply Hb. exact Hr'.
    + cbn [insert_sorted]. rewrite E. reflexivity.
  - apply insert_sorted_head_stays.
    rewrite (sort_candidates_perm (rest ++ [c])).
    apply Forall_app. split; [exact Hb | constructor; [exact E | constructor]].
Qed.

Lemma sorted_head_is_top_ranked_witness :
  let a := MkCandidate (T "https://h/movie/a") 0.9%Q false (T "a") false None in
  let b := MkCandidate (T "https://h/series/b") 0.4%Q true (T "b") false None in
  sort_candidates [a; b] = [b; a] /\ In a [a; b]
  /\ (is_series a = true -> is_series b = true)
  /\ (is_series a = is_series b -> (score a <= score b)%Q).
Proof.
  cbv zeta.
  assert (sort_candidates
            [MkCandidate (T "https://h/movie/a") 0.9%Q false (T "a") false None;
             MkCandidate (T "https://h/series/b") 0.4%Q true (T "b") false None]
          = [MkCandidate (T "https://h/series/b") 0.4%Q true (T "b") false None;
             MkCandidate (T "https://h/movie/a") 0.9%Q false (T "a") false None]) as Hs
      by (vm_compute; reflexivity).
  assert (In (MkCandidate (T "https://h/movie/a") 0.9%Q false (T "a") false None)
             [MkCandidate (T "https://h/movie/a") 0.9%Q false (T "a") false None;
              MkCandidate (T "https://h/series/b") 0.4%Q true (T "b") false None]) as Hi
      by (left; reflexivity).
  split; [exact Hs |]. split; [exact Hi |].
  exact (sorted_head_is_top_ranked _ _ _ _ Hs Hi).
Defined.

Lemma appended_candidate_needs_better_key_witness :
  let a := MkCandidate (T "https://h/series/a") 0.5%Q true (T "a") false None in
  let b := MkCandidate (T "https://h/series/b") 0.5%Q true (T "b") false None in
  ranked [a]
  /\ head (sort_candidates ([a] ++ [b])) = Some (if key_lt b a then b else a).
Proof.
  cbv zeta.
  assert (ranked [MkCandidate (T "https://h/series/a") 0.5%Q true (T "a") false None]) as Hr
      by (split; [constructor | exact I]).
  split; [exact Hr |].
  exact (appended_candidate_needs_better_key _ [] _ Hr).
Defined.

(** ** The caches *)

(** X12: the video cache keeps an entry for 7200 seconds: a lookup strictly
    before the write time plus 7200 returns the payload and leaves the cache
    as it is, a later lookup misses and deletes the entry. *)
Theorem video_cache_ttl_window {payload : Type} (cache : gmap text (Cache.entry payload))
  (key : text) (d : payload) (written now : Q) :
  VideoCache.get_cached_video_result now key
    (VideoCache.cache_video_result written key d cache)
  = (if Qlt_le_dec now (written + 7200)
     then (Some d, VideoCache.cache_video_result written key d cache)
     else (None, delete key (VideoCache.cache_video_result written key d cache))).
Proof.
  unfold VideoCache.get_cached_video_result, VideoCache.cache_video_result.
  rewrite lookup_insert_eq. cbn [Cache.timestamp Cache.data].
  unfold Cache.video_cache_ttl.
  destruct (Qlt_le_dec now (written + 7200)) as [Hlt | Hge].
  - assert (Qltb (now - written) 7200 = true) as ->; [| reflexivity].
    apply Qltb_lt. lra.
  - assert (Qltb (now - written) 7200 = false) as ->; [| reflexivity].
    apply Qltb_ge. lra.
Qed.

(** X13: the search cache treats keys independently and a lookup never
    writes: a write under one key leaves every other key's entry as it was,
    and after a lookup every key holds what it held before, except that the
    looked-up key may have been deleted, which happens exactly when its
    entry is 1800 seconds old or older. *)
Theorem search_cache_keys_independent {payload : Type}
  (cache : gmap text (Cache.entry payload)) (key other : text) (d : payload) (now : Q) :
  other <> key ->
  Cache.cache_search_result now key d cache !! other = cache !! other
  /\ snd (Cache.get_cached_search_result now key cache) !! other = cache !! other
  /\ (snd (Cache.get_cached_search_result now key cache) !! key = cache !! key
      \/ (snd (Cache.get_cached_search_result now key cache) !! key = None
          /\ exists e, cache !! key = Some e /\ (Cache.timestamp e + 1800 <= now)%Q)).
Proof.
  intros Hne.
  unfold Cache.cache_search_result, Cache.get_cached_search_result.
  split; [apply lookup_insert_ne; congruence |].
  destruct (cache !! key) as [e |] eqn:E.
  - destruct (Qltb (now - Cache.timestamp e) Cache.search_cache_ttl) eqn:Et; cbn [snd].
    + split; [reflexivity | left; exact E].
    + split; [apply lookup_delete_ne; congruence |].
      right. split; [apply lookup_delete_eq |].
      exists e. split; [reflexivity |].
      apply Qltb_ge in Et. unfold Cache.search_cache_ttl in Et. lra.
  - cbn [snd]. split; [reflexivity | left; exact E].
Qed.

Lemma search_cache_keys_independent_witness :
  T "other" <> T "k"
  /\ Cache.cache_search_result 5%Q (T "k") 8%nat
       ({[ T "k" := Cache.MkEntry 7%nat 0%Q ]} : gmap text (Cache.entry nat)) !! T "other"
     = ({[ T "k" := Cache.MkEntry 7%nat 0%Q ]} : gmap text (Cache.entry nat)) !! T "other".
Proof.
  assert (T "other" <> T "k") as H by discriminate.
  split; [exact H |].
  exact (proj1 (search_cache_keys_independent
                  ({[ T "k" := Cache.MkEntry 7%nat 0%Q ]} : gmap text (Cache.entry nat))
                  (T "k") (T "other") 8%nat 5%Q H)).
Defined.

Lemma le_bytes_range (n : nat) (x : Z) :
  Forall (fun b => (0 <= b < 256)%Z) (Md5.le_bytes n x).
Proof.
  revert x. induction n as [| n IH]; intros x; [constructor |].
  cbn [Md5.le_bytes]. constructor; [| apply IH].
  change 255%Z with (Z.ones 8). rewrite Z.land_ones by lia.
  apply Z.mod_pos_bound. reflexivity.
Qed.

Lemma le_bytes_length (n : nat) (x : Z) : length (Md5.le_bytes n x) = n.
Proof.
  revert x. induction n as [| n IH]; intros x; [reflexivity |].
  cbn [Md5.le_bytes length]. rewrite IH. reflexivity.
Qed.

Lemma hex_digit_is_hex (d : Z) : (0 <= d < 16)%Z -> is_hex (Md5.hex_digit d) = true.
Proof.
  intros H.
  assert (d = 0 \/ d = 1 \/ d = 2 \/ d = 3 \/ d = 4 \/ d = 5 \/ d = 6 \/ d = 7 \/ d = 8
          \/ d = 9 \/ d = 10 \/ d = 11 \/ d = 12 \/ d = 13 \/ d = 14 \/ d = 15)%Z
    as Hd by lia.
  repeat (destruct Hd as [-> | Hd]; [vm_compute; reflexivity |]).
  subst d. vm_compute. reflexivity.
Qed.

Lemma hex_byte_is_hex (b : Z) :
  (0 <= b < 256)%Z -> Forall (fun c => is_hex c = true) (Md5.hex_byte b).
Proof.
  intros H. unfold Md5.hex_byte.
  constructor; [| constructor; [| constructor]]; apply hex_digit_is_hex.
  - rewrite Z.shiftr_div_pow2 by lia. change (2 ^ 4)%Z with 16%Z.
    split; [apply Z.div_pos; lia | apply Z.div_lt_upper_bound; lia].
  - change 15%Z with (Z.ones 4). rewrite Z.land_ones by lia.
    apply Z.mod_pos_bound. reflexivity.
Qed.

Lemma concat_hex_bytes (bs : list Z) :
  Forall (fun b => (0 <= b < 256)%Z) bs ->
  length (concat (map Md5.hex_byte bs)) = (2 * length bs)%nat
  /\ Forall (fun c => is_hex c = true) (concat (map Md5.hex_byte bs)).
Proof.
  induction 1 as [| b bs Hb _ [IH1 IH2]]; [split; [reflexivity | constructor] |].
  cbn [map concat]. split.
  - rewrite length_app, IH1. cbn [Md5.hex_byte length]. lia.
  - apply Forall_app. split; [apply hex_byte_is_hex; exact Hb | exact IH2].
Qed.

Lemma digest_bytes (msg : list Z) :
  length (Md5.digest msg) = 16%nat
  /\ Forall (fun b => (0 <= b < 256)%Z) (Md5.digest msg).
Proof.
  unfold Md5.digest.
  destruct (Md5.chunks _ _ _) as [[[a b] c] d].
  split.
  - rewrite !length_app, !le_bytes_length. reflexivity.
  - repeat (apply Forall_app; split); apply le_bytes_range.
Qed.

(** X14: every cache key is a string of exactly 32 characters, each a digit
    or a letter from [a] to [f], whatever the query and the host. *)
Theorem cache_key_is_32_hex_digits (query : text) (host : option text) :
  length (Cache.get_cache_key query host) = 32%nat
  /\ Forall (fun c => is_hex c = true) (Cache.get_cache_key query host).
Proof.
  unfold Cache.get_cache_key, Md5.md5_hex.
  destruct (digest_bytes (map (fun c => Z.of_N (code c)) (Cache.key_string query host)))
    as [Hl Hr].
  destruct (concat_hex_bytes _ Hr) as [H1 H2].
  split; [rewrite H1, Hl; reflexivity | exact H2].
Qed.

(** ** The resolver run *)

Import Trace.

Lemma fetched_app (l l' : list event) : fetched (l ++ l') = fetched l ++ fetched l'.
Proof.
  induction l as [| e l IH]; [reflexivity |].
  destruct e; cbn [app fetched]; rewrite ?IH; reflexivity.
Qed.

Section LoopInvariant.

Variable P : state -> Prop.
Variable S : option text -> list event -> Prop.
Variables (nf nb : text) (season : Z) (w : world).

Hypothesis card_ok : forall st c, P st -> soup st <> None ->
  holds (fun st' => P st' /\ soup st' = soup st) S (card_step nf nb season st c).
Hypothesis host_ok : forall q st h, P st -> P (host_step w q st h).
Hypothesis search_ok : forall q st, P st -> P (emit (ESearching q) st).
Hypothesis unbound_ok : forall st, P st -> soup st = None -> S None (log st ++ [EException]).

Lemma card_loop_holds (cards : list card) (st : state) :
  P st -> soup st <> None -> holds P S (card_loop nf nb season st cards).
Proof.
  revert st. induction cards as [| c cards IH]; intros st Hst Hsoup; [exact Hst |].
  cbn [card_loop]. pose proof (card_ok st c Hst Hsoup) as Hc.
  destruct (card_step nf nb season st c) as [st' | r ev].
  - destruct Hc as [Hst' Hs']. apply IH; [exact Hst' | congruence].
  - exact Hc.
Qed.

Lemma host_loop_holds (q : text) (hosts : list text) (st : state) :
  P st -> P (fold_left (host_step w q) hosts st).
Proof.
  revert st. induction hosts as [| h hosts IH]; intros st Hst; [exact Hst |].
  cbn [fold_left]. apply IH, host_ok, Hst.
Qed.

Lemma query_step_holds (st : state) (q : text) :
  P st -> holds P S (query_step w nf nb season st q).
Proof.
  intros Hst. unfold query_step.
  assert (P (fold_left (host_step w q) search_hosts (emit (ESearching q) st))) as H0
      by (apply host_loop_holds, search_ok, Hst).
  destruct (soup (fold_left (host_step w q) search_hosts (emit (ESearching q) st)))
    as [cards |] eqn:Esoup.
  - apply card_loop_holds; [exact H0 | congruence].
  - apply unbound_ok; assumption.
Qed.

Lemma query_loop_holds (qs : list text) (st : state) :
  P st -> holds P S (query_loop w nf nb season st qs).
Proof.
  revert st. induction qs as [| q qs IH]; intros st Hst; [exact Hst |].
  cbn [query_loop]. pose proof (query_step_holds st q Hst) as Hq.
  destruct (query_step w nf nb season st q) as [st' | r ev]; [apply IH |]; exact Hq.
Qed.

End LoopInvariant.

Lemma query_variants_head (t : text) :
  t <> [] -> exists qs, query_variants t = t :: qs /\ (length qs <= 1)%nat.
Proof.
  intros Ht. unfold query_variants. destruct t as [| c t]; [congruence |].
  rewrite filter_cons_True by reflexivity. rewrite filter_cons, filter_nil.
  destruct (decide (negb (text_eqb (base_title (c :: t)) []) = true));
    eexists; (split; [reflexivity | cbn [length]; lia]).
Qed.

Lemma host_step_not_200 (w : world) (q : text) (st : state) (h : text) :
  (forall cards, w h q <> Page 200 cards) -> soup st = None ->
  soup (host_step w q st h) = None
  /\ fetched (log (host_step w q st h)) = fetched (log st) ++ [(h, q)].
Proof.
  intros Hw Hs. unfold host_step.
  destruct (w h q) as [| status_code cards] eqn:E.
  - cbn [emit soup log]. split; [exact Hs |].
    rewrite !fetched_app. cbn [fetched]. rewrite app_nil_r. reflexivity.
  - destruct (status_code =? 200)%Z eqn:E200.
    + apply Z.eqb_eq in E200. subst status_code. exfalso. exact (Hw cards eq_refl).
    + cbn [emit soup log]. split; [exact Hs |].
      rewrite !fetched_app. cbn [fetched]. rewrite app_nil_r. reflexivity.
Qed.

(** X15: when neither mirror answers the first query with status 200, the
    run ends there: it has asked the two mirrors once each for the full
    title, it never tries the base-title variant, and it returns nothing. *)
Theorem no_answer_on_first_query (data : tv_data) (w : world) (season episode : Z) :
  tmdb_title_of data <> [] ->
  (forall h cards, w h (tmdb_title_of data) <> Page 200 cards) ->
  fst (resolve_tmdb_tv_to_mlbd_url data w season episode) = None
  /\ fetched (snd (resolve_tmdb_tv_to_mlbd_url data w season episode))
     = [(T "https://moviexp.movielinkbd.sbs", tmdb_title_of data);
        (T "https://movielinkbd.shop", tmdb_title_of data)].
Proof.
  intros Ht Hw. unfold resolve_tmdb_tv_to_mlbd_url.
  destruct (tmdb_title_of data) as [| c t] eqn:Et; [congruence |].
  destruct (query_variants_head (c :: t) Ht) as (qs & -> & _).
  cbn [query_loop]. unfold query_step, search_hosts. cbn [fold_left].
  set (st0 := emit (ESearching (c :: t)) init_state).
  destruct (host_step_not_200 w (c :: t) st0 (T "https://moviexp.movielinkbd.sbs")
              (Hw _) eq_refl) as [Hs1 Hf1].
  destruct (host_step_not_200 w (c :: t)
              (host_step w (c :: t) st0 (T "https://moviexp.movielinkbd.sbs"))
              (T "https://movielinkbd.shop") (Hw _) Hs1) as [Hs2 Hf2].
  rewrite Hs2. cbn [fst snd]. split; [reflexivity |].
  rewrite fetched_app, Hf2, Hf1. reflexivity.
Qed.

Lemma no_answer_on_first_query_witness :
  tmdb_title_of (Inputs.tv "Dark: Origins") <> []
  /\ (forall h cards,
        MoreInputs.down_world h (tmdb_title_of (Inputs.tv "Dark: Origins"))
        <> Page 200 cards)
  /\ fst (resolve_tmdb_tv_to_mlbd_url (Inputs.tv "Dark: Origins")
            MoreInputs.down_world 1 1) = None.
Proof.
  assert (tmdb_title_of (Inputs.tv "Dark: Origins") <> []) as H1
      by (vm_compute; discriminate).
  assert (forall h cards,
            MoreInputs.down_world h (tmdb_title_of (Inputs.tv "Dark: Origins"))
            <> Page 200 cards) as H2 by (intros h cards; discriminate).
  split; [exact H1 |]. split; [exact H2 |].
  exact (proj1 (no_answer_on_first_query (Inputs.tv "Dark: Origins")
                  MoreInputs.down_world 1 1 H1 H2)).
Defined.

Lemma not_immediate_snoc (l : list event) (e : event) (link : text) :
  (forall u, e <> EImmediate u) -> In (EImmediate link) (l ++ [e]) -> In (EImmediate link) l.
Proof.
  intros He H. apply in_app_iff in H. destruct H as [H | [H | []]]; [exact H |].
  exfalso. exact (He link H).
Qed.

(** X16: an immediate acceptance is never unfounded: when the log holds the
    immediate-return line for a link, that link is the result, and it is the
    link of a scored candidate that is a series entry with a score of at
    least 0.65. *)
Theorem immediate_acceptance_is_sound (data : tv_data) (w : world) (season episode : Z)
  (link : text) :
  In (EImmediate link) (snd (resolve_tmdb_tv_to_mlbd_url data w season episode)) ->
  fst (resolve_tmdb_tv_to_mlbd_url data w season episode) = Some link
  /\ exists c,
       In (EBest c) (snd (resolve_tmdb_tv_to_mlbd_url data w season episode))
       /\ href c = link /\ is_series c = true /\ (0.65 <= score c)%Q.
Proof.
  set (P := fun st : state => forall u, ~ In (EImmediate u) (log st)).
  set (S := fun (r : option text) (ev : list event) =>
              forall u, In (EImmediate u) ev ->
                r = Some u
                /\ exists c, In (EBest c) ev /\ href c = u /\ is_series c = true
                             /\ (0.65 <= score c)%Q).
  assert (forall e st, (forall u, e <> EImmediate u) -> P st -> P (emit e st)) as Hemit.
  { intros e st He Hst u Hu. cbn [emit log] in Hu.
    exact (Hst u (not_immediate_snoc _ _ _ He Hu)). }
  unfold resolve_tmdb_tv_to_mlbd_url.
  destruct (tmdb_title_of data) as [| t0 title].
  { cbn [fst snd]. intros [H | []]. discriminate H. }
  pose proof (query_loop_holds P S (normalize_title (t0 :: title))
                (normalize_title (base_title (t0 :: title))) season w) as Hloop.
  assert (holds P S (query_loop w (normalize_title (t0 :: title))
                       (normalize_title (base_title (t0 :: title))) season init_state
                       (query_variants (t0 :: title)))) as H.
  { apply Hloop.
    - intros st c Hst _. unfold card_step.
      destruct (card_a c) as [a |]; [| split; [exact Hst | reflexivity]].
      destruct (match a_href a with Some h => h | None => [] end) as [| l0 lk];
        [split; [exact Hst | reflexivity] |].
      destruct (score_card _ _ _ _ _ _ _ _) as [[cand fs] |];
        [| intros u Hu; exfalso;
           apply not_immediate_snoc in Hu; [exact (Hst u Hu) | discriminate]].
      destruct (candidates st ++ [cand]) as [| c0 cs];
        [split; [apply Hemit; [discriminate | exact Hst] | reflexivity] |].
      destruct (sort_candidates (c0 :: cs)) as [| best rest].
      + intros u Hu. exfalso. apply not_immediate_snoc in Hu; [exact (Hst u Hu) | discriminate].
      + cbn [soup candidates fs_local best_overall log].
        assert (forall u, ~ In (EImmediate u)
                            (log st ++ [EFound (length (best :: rest)) last_host; EBest best]))
          as Hq.
        { intros u Hu. apply in_app_iff in Hu. destruct Hu as [Hu | Hu]; [exact (Hst u Hu) |].
          destruct Hu as [Hu | [Hu | []]]; discriminate Hu. }
        destruct (is_series best && Qgeb (score best) (double 0.65)) eqn:Eimm.
        * intros u Hu. apply in_app_iff in Hu. destruct Hu as [Hu | Hu];
            [exfalso; exact (Hq u Hu) |].
          destruct Hu as [Hu | []]. injection Hu as <-.
          apply andb_true_iff in Eimm. destruct Eimm as [Es Eq].
          split; [reflexivity |]. exists best.
          split; [apply in_app_iff; left; apply in_app_iff; right; cbn; auto |].
          split; [reflexivity |]. split; [exact Es |].
          unfold Qgeb in Eq. apply Qle_bool_iff in Eq.
          exact (Qle_trans _ _ _ threshold_065 Eq).
        * destruct (replaces best (best_overall st)); (split; [exact Hq | reflexivity]).
    - intros q st h Hst. unfold host_step.
      assert (P (emit (EFetch h q) st)) as H0 by (apply Hemit; [discriminate | exact Hst]).
      destruct (w h q) as [| sc cards]; [apply Hemit; [discriminate | exact H0] |].
      destruct (sc =? 200)%Z; [exact H0 | apply Hemit; [discriminate | exact H0]].
    - intros q st Hst. apply Hemit; [discriminate | exact Hst].
    - intros st Hst _ u Hu. exfalso.
      apply not_immediate_snoc in Hu; [exact (Hst u Hu) | discriminate].
    - intros u [].
  }
  destruct (query_loop _ _ _ _ _ _) as [st | r ev].
  - cbn [holds] in H. intros Hi. exfalso. unfold finish in Hi.
    destruct (best_overall st) as [bo |]; [destruct (Qltb (score bo) (double 0.50)) |];
      cbn [snd] in Hi; apply in_app_iff in Hi; destruct Hi as [Hi | Hi];
      try exact (H link Hi);
      repeat (destruct Hi as [Hi | Hi]; [discriminate Hi |]); destruct Hi.
  - cbn [fst snd]. intros Hi. exact (H link Hi).
Qed.

Lemma immediate_acceptance_is_sound_witness :
  In (EImmediate (T "https://movielinkbd.shop/series/breaking-bad"))
     (snd (resolve_tmdb_tv_to_mlbd_url (Inputs.tv "Breaking Bad")
             Inputs.breaking_bad_world 1 1))
  /\ fst (resolve_tmdb_tv_to_mlbd_url (Inputs.tv "Breaking Bad")
            Inputs.breaking_bad_world 1 1)
     = Some (T "https://movielinkbd.shop/series/breaking-bad").
Proof.
  assert (In (EImmediate (T "https://movielinkbd.shop/series/breaking-bad"))
             (snd (resolve_tmdb_tv_to_mlbd_url (Inputs.tv "Breaking Bad")
                     Inputs.breaking_bad_world 1 1))) as H
      by (vm_compute; tauto).
  split; [exact H |].
  exact (proj1 (immediate_acceptance_is_sound _ _ _ _ _ H)).
Defined.

Lemma score_card_href (nf nb : text) (season : Z) (host : text) (fs fs' : option Z)
  (link mlbd_title : text) (type_span : option text) (c : candidate) :
  score_card nf nb season host fs link mlbd_title type_span = Some (c, fs') ->
  href c = if startswith (T "http") link then link else host ++ link.
Proof.
  unfold score_card.
  destruct (season_step season (lower mlbd_title) (base_score nf nb mlbd_title) fs)
    as [[[[s m] p] f] |]; [| discriminate].
  intros H. apply (f_equal (option_map (fun x => href (fst x)))) in H.
  cbn [option_map fst href] in H. injection H as H. symmetry. exact H.
Qed.

Lemma score_card_href_http (nf nb : text) (season : Z) (fs fs' : option Z)
  (link mlbd_title : text) (type_span : option text) (c : candidate) :
  score_card nf nb season last_host fs link mlbd_title type_span = Some (c, fs') ->
  is_http (href c).
Proof.
  intros H. rewrite (score_card_href _ _ _ _ _ _ _ _ _ _ H). unfold is_http.
  destruct (startswith (T "http") link) eqn:E; [exact E | reflexivity].
Qed.

(** X17: a link returned by the resolver is always absolute: it starts with
    [http], because a relative link of a listing is prefixed with a mirror's
    address before it is kept. *)
Theorem resolved_link_is_absolute (data : tv_data) (w : world) (season episode : Z)
  (u : text) :
  fst (resolve_tmdb_tv_to_mlbd_url data w season episode) = Some u ->
  startswith (T "http") u = true.
Proof.
  set (P := fun st : state =>
              Forall (fun c => is_http (href c)) (candidates st)
              /\ forall bo, best_overall st = Some bo -> is_http (href bo)).
  set (S := fun (r : option text) (ev : list event) =>
              forall v, r = Some v -> is_http v).
  assert (forall e st, P st -> P (emit e st)) as Hemit by (intros e st H; exact H).
  unfold resolve_tmdb_tv_to_mlbd_url.
  destruct (tmdb_title_of data) as [| t0 title]; [discriminate |].
  pose proof (query_loop_holds P S (normalize_title (t0 :: title))
                (normalize_title (base_title (t0 :: title))) season w) as Hloop.
  assert (holds P S (query_loop w (normalize_title (t0 :: title))
                       (normalize_title (base_title (t0 :: title))) season init_state
                       (query_variants (t0 :: title)))) as H.
  { apply Hloop.
    - intros st c [Hc Hb] _. unfold card_step.
      destruct (card_a c) as [a |]; [| split; [split; assumption | reflexivity]].
      destruct (match a_href a with Some h => h | None => [] end) as [| l0 lk];
        [split; [split; assumption | reflexivity] |].
      destruct (score_card _ _ _ _ _ _ _ _) as [[cand fs] |] eqn:Esc;
        [| intros v Hv; discriminate Hv].
      pose proof (score_card_href_http _ _ _ _ _ _ _ _ _ Esc) as Hh.
      assert (Forall (fun c => is_http (href c)) (candidates st ++ [cand])) as Hall
          by (apply Forall_app; split; [exact Hc | constructor; [exact Hh | constructor]]).
      destruct (candidates st ++ [cand]) as [| c0 cs];
        [split; [split; [constructor | exact Hb] | reflexivity] |].
      rewrite <- (sort_candidates_perm (c0 :: cs)) in Hall.
      destruct (sort_candidates (c0 :: cs)) as [| best rest]; [discriminate |].
      cbn [soup candidates fs_local best_overall log].
      assert (is_http (href best)) as Hbest by (inversion Hall; assumption).
      destruct (is_series best && Qgeb (score best) (double 0.65)).
      + intros v Hv. injection Hv as <-. exact Hbest.
      + destruct (replaces best (best_overall st)).
        * split; [| reflexivity]. split; [exact Hall |].
          cbn [best_overall]. intros bo Hbo. injection Hbo as <-. exact Hbest.
        * split; [| reflexivity]. split; [exact Hall | exact Hb].
    - intros q st h Hst. unfold host_step.
      destruct (w h q) as [| sc cards]; [exact Hst |].
      destruct (sc =? 200)%Z; [| exact Hst].
      destruct Hst as [_ Hb]. split; [constructor | exact Hb].
    - intros q st Hst. exact Hst.
    - intros st _ _ v Hv. discriminate Hv.
    - split; [constructor | discriminate].
  }
  destruct (query_loop _ _ _ _ _ _) as [st | r ev].
  - destruct H as [_ Hb]. unfold finish.
    destruct (best_overall st) as [bo |]; [| discriminate].
    destruct (Qltb (score bo) (double 0.50)); cbn [fst]; intros Hu; injection Hu as <-;
      exact (Hb bo eq_refl).
  - cbn [fst]. exact (H u).
Qed.

Lemma resolved_link_is_absolute_witness :
  fst (resolve_tmdb_tv_to_mlbd_url (Inputs.tv "Dark") Inputs.weak_world 1 1)
  = Some (T "https://movielinkbd.shop/movie/zebra")
  /\ startswith (T "http") (T "https://movielinkbd.shop/movie/zebra") = true.
Proof.
  assert (fst (resolve_tmdb_tv_to_mlbd_url (Inputs.tv "Dark") Inputs.weak_world 1 1)
          = Some (T "https://movielinkbd.shop/movie/zebra")) as H
      by (vm_compute; reflexivity).
  split; [exact H |].
  exact (resolved_link_is_absolute _ _ _ _ _ H).
Defined.

Lemma card_step_fetched (nf nb : text) (season : Z) (st : state) (c : card) :
  fetched (log_of (card_step nf nb season st c)) = fetched (log st).
Proof.
  unfold card_step.
  destruct (card_a c) as [a |]; [| reflexivity].
  destruct (match a_href a with Some h => h | None => [] end) as [| l0 lk]; [reflexivity |].
  destruct (score_card _ _ _ _ _ _ _ _) as [[cand fs] |];
    [| cbn [log_of]; rewrite fetched_app; cbn [fetched]; apply app_nil_r].
  destruct (candidates st ++ [cand]) as [| c0 cs].
  - cbn [log_of emit log]. rewrite fetched_app. cbn [fetched]. apply app_nil_r.
  - destruct (sort_candidates (c0 :: cs)) as [| best rest].
    + cbn [log_of]. rewrite fetched_app. cbn [fetched]. apply app_nil_r.
    + cbn [soup candidates fs_local best_overall log].
      destruct (is_series best && Qgeb (score best) (double 0.65));
        [| destruct (replaces best (best_overall st))];
        cbn [log_of log]; rewrite ?fetched_app; cbn [fetched]; rewrite ?app_nil_r;
        reflexivity.
Qed.

Lemma card_loop_fetched (nf nb : text) (season : Z) (cards : list card) (st : state) :
  fetched (log_of (card_loop nf nb season st cards)) = fetched (log st).
Proof.
  revert st. induction cards as [| c cards IH]; intros st; [reflexivity |].
  cbn [card_loop]. pose proof (card_step_fetched nf nb season st c) as Hc.
  destruct (card_step nf nb season st c) as [st' | r ev]; [| exact Hc].
  rewrite IH. exact Hc.
Qed.

Lemma host_step_fetched (w : world) (q : text) (st : state) (h : text) :
  fetched (log (host_step w q st h)) = fetched (log st) ++ [(h, q)].
Proof.
  unfold host_step.
  destruct (w h q) as [| sc cards]; [| destruct (sc =? 200)%Z];
    cbn [emit log]; rewrite ?fetched_app; cbn [fetched]; rewrite ?app_nil_r; reflexivity.
Qed.

Lemma query_step_fetched (w : world) (nf nb : text) (season : Z) (st : state) (q : text) :
  fetched (log_of (query_step w nf nb season st q)) = fetched (log st) ++ both_mirrors q.
Proof.
  unfold query_step, search_hosts, both_mirrors. cbn [fold_left map].
  set (st2 := host_step w q (host_step w q (emit (ESearching q) st) _) _).
  assert (fetched (log st2)
          = fetched (log st) ++ [(T "https://moviexp.movielinkbd.sbs", q);
                                 (T "https://movielinkbd.shop", q)]) as H2.
  { unfold st2. rewrite !host_step_fetched. cbn [emit log].
    rewrite fetched_app. cbn [fetched]. rewrite app_nil_r, <- app_assoc. reflexivity. }
  unfold search_hosts. cbn [map].
  destruct (soup st2) as [cards |].
  - rewrite card_loop_fetched. exact H2.
  - cbn [log_of]. rewrite fetched_app. cbn [fetched]. rewrite app_nil_r. exact H2.
Qed.

Lemma query_loop_fetched (w : world) (nf nb : text) (season : Z) (qs : list text) :
  forall st, exists k,
    fetched (log_of (query_loop w nf nb season st qs))
    = fetched (log st) ++ flat_map both_mirrors (firstn k qs).
Proof.
  induction qs as [| q qs IH]; intros st.
  - exists 0%nat. cbn. rewrite app_nil_r. reflexivity.
  - cbn [query_loop]. pose proof (query_step_fetched w nf nb season st q) as Hq.
    destruct (query_step w nf nb season st q) as [st' | r ev].
    + destruct (IH st') as [k Hk]. exists (Datatypes.S k). rewrite Hk.
      cbn [log_of] in Hq. rewrite Hq. cbn [firstn flat_map].
      rewrite <- app_assoc. reflexivity.
    + exists 1%nat. cbn [log_of firstn flat_map] in *. rewrite Hq.
      rewrite app_nil_r. reflexivity.
Qed.

(** X18: the search requests of a run are exactly, for the first one or two
    query variants in order, one request to each of the two mirrors in their
    fixed order; nothing else is ever requested, and never more than four
    pages. *)
Theorem requests_follow_the_variants (data : tv_data) (w : world) (season episode : Z) :
  (exists k,
     fetched (snd (resolve_tmdb_tv_to_mlbd_url data w season episode))
     = flat_map both_mirrors (firstn k (query_variants (tmdb_title_of data))))
  /\ (length (fetched (snd (resolve_tmdb_tv_to_mlbd_url data w season episode))) <= 4)%nat.
Proof.
  assert (exists k,
     fetched (snd (resolve_tmdb_tv_to_mlbd_url data w season episode))
     = flat_map both_mirrors (firstn k (query_variants (tmdb_title_of data)))) as H.
  { unfold resolve_tmdb_tv_to_mlbd_url.
    destruct (tmdb_title_of data) as [| t0 title]; [exists 0%nat; reflexivity |].
    destruct (query_loop_fetched w (normalize_title (t0 :: title))
                (normalize_title (base_title (t0 :: title))) season
                (query_variants (t0 :: title)) init_state) as [k Hk].
    exists k. destruct (query_loop _ _ _ _ _ _) as [st | r ev].
    - cbn [log_of] in Hk. unfold finish.
      destruct (best_overall st) as [bo |]; [destruct (Qltb (score bo) (double 0.50)) |];
        cbn [snd]; rewrite fetched_app; cbn [fetched]; rewrite app_nil_r; exact Hk.
    - exact Hk. }
  split; [exact H |].
  destruct H as [k ->].
  assert (length (query_variants (tmdb_title_of data)) <= 2)%nat as Hl.
  { unfold query_variants.
    etransitivity; [apply length_filter | cbn [length]; lia]. }
  assert (forall l : list text, length (flat_map both_mirrors l) = (2 * length l)%nat) as Hf.
  { induction l as [| q l IH]; [reflexivity |].
    cbn [flat_map]. rewrite length_app, IH. cbn [both_mirrors search_hosts map length]. lia. }
  rewrite Hf, length_firstn. lia.
Qed.

(** ** The gate page *)

Lemma startswith_app_long (p x y : text) :
  (length p <= length x)%nat -> startswith p (x ++ y) = startswith p x.
Proof.
  revert x. induction p as [| a p IH]; intros x Hl; [destruct x; reflexivity |].
  destruct x as [| b x]; [cbn in Hl; lia |].
  cbn [app startswith]. rewrite IH; [reflexivity | cbn [length] in Hl; lia].
Qed.

Lemma startswith_app_self (p y : text) : startswith p (p ++ y) = true.
Proof.
  induction p as [| a p IH]; [destruct y; reflexivity |].
  cbn [app startswith]. rewrite IH, andb_true_r. apply ascii_eqb_eq. reflexivity.
Qed.

Lemma startswith_prefix_of (p b x : text) :
  startswith p b = true -> startswith p (b ++ x) = true.
Proof.
  revert b. induction p as [| a p IH]; intros b H; [destruct (b ++ x); reflexivity |].
  destruct b as [| c b]; [discriminate H |].
  cbn [app startswith] in *. apply andb_true_iff in H. destruct H as [H1 H2].
  rewrite H1, (IH b H2). reflexivity.
Qed.

Lemma contains_app_self (p x y : text) : contains p (x ++ p ++ y) = true.
Proof.
  induction x as [| c x IH].
  - cbn [app]. destruct (p ++ y) eqn:E; cbn [contains]; rewrite <- E, startswith_app_self;
      reflexivity.
  - cbn [app contains]. rewrite IH. apply orb_true_r.
Qed.

Lemma contains_false_here (p s : text) : contains p s = false -> startswith p s = false.
Proof.
  destruct s; cbn [contains]; intros H; apply orb_false_iff in H; tauto.
Qed.

Lemma contains_false_tail (p : text) (c : ascii) (s : text) :
  contains p (c :: s) = false -> contains p s = false.
Proof. cbn [contains]. intros H. apply orb_false_iff in H. tauto. Qed.

Lemma split_no_sep (sep s : text) :
  contains sep s = false ->
  forall n cur, (length s <= n)%nat -> split_sep_go n sep cur s = [rev cur ++ s].
Proof.
  intros H. induction s as [| c s IH]; intros n cur Hn.
  - destruct n; cbn [split_sep_go]; rewrite app_nil_r; reflexivity.
  - destruct n as [| n]; [cbn in Hn; lia |].
    cbn [split_sep_go]. rewrite (contains_false_here _ _ H).
    rewrite (IH (contains_false_tail _ _ _ H) n (c :: cur)) by (cbn [length] in Hn; lia).
    cbn [rev]. rewrite <- app_assoc. reflexivity.
Qed.

Lemma split_at_first_url (pre u : text) :
  contains (T "url=") (pre ++ T "url") = false ->
  contains (T "url=") u = false ->
  forall n cur, (length (pre ++ T "url=" ++ u) <= n)%nat ->
  split_sep_go n (T "url=") cur (pre ++ T "url=" ++ u) = [rev cur ++ pre; u].
Proof.
  intros Hpre Hu. induction pre as [| c pre IH]; intros n cur Hn.
  - destruct n as [| n]; [cbn in Hn; lia |].
    cbn [app]. change (T "url=" ++ u) with ("u"%char :: T "rl=" ++ u).
    cbn [split_sep_go]. change ("u"%char :: T "rl=" ++ u) with (T "url=" ++ u).
    rewrite startswith_app_self.
    change (skipn (length (T "url=")) (T "url=" ++ u)) with u.
    rewrite (split_no_sep _ _ Hu n []); [rewrite app_nil_r; reflexivity |].
    rewrite !length_app in Hn. change (length (T "url=")) with 4%nat in Hn. lia.
  - destruct n as [| n]; [cbn in Hn; lia |].
    cbn [app split_sep_go].
    assert (startswith (T "url=") (c :: pre ++ T "url=" ++ u) = false) as ->.
    { change (T "url=") with (T "url" ++ T "=") at 2.
      rewrite <- app_assoc, app_assoc.
      change (c :: (pre ++ T "url") ++ T "=" ++ u) with ((c :: pre ++ T "url") ++ T "=" ++ u).
      rewrite startswith_app_long.
      - apply contains_false_here. exact Hpre.
      - cbn [length]. rewrite length_app. cbn. lia. }
    rewrite (IH (contains_false_tail _ _ _ Hpre) n (c :: cur))
      by (cbn [app length] in Hn; lia).
    cbn [rev]. rewrite <- app_assoc. reflexivity.
Qed.

(** X19: the target of a meta-refresh is what follows the first [url=]: for
    a [content] attribute made of a prefix, [url=] and a target, where [url=]
    occurs neither earlier nor inside the target, the target is read back
    unchanged. *)
Theorem meta_refresh_target_read_back (page : Gate.gate_page) (pre u : text) :
  Gate.meta_refresh page = Some (Some (pre ++ T "url=" ++ u)) ->
  contains (T "url=") (pre ++ T "url") = false ->
  contains (T "url=") u = false ->
  Gate.meta_target page = Some u.
Proof.
  intros Hm Hpre Hu. unfold Gate.meta_target. rewrite Hm. cbn [default from_option id].
  rewrite contains_app_self. unfold split_sep.
  rewrite (split_at_first_url pre u Hpre Hu) by lia. reflexivity.
Qed.

Lemma meta_refresh_target_read_back_witness :
  Gate.meta_refresh Inputs.refresh_gate = Some (Some (T "0;" ++ T "url=" ++ T "/watch/abc"))
  /\ contains (T "url=") (T "0;" ++ T "url") = false
  /\ contains (T "url=") (T "/watch/abc") = false
  /\ Gate.meta_target Inputs.refresh_gate = Some (T "/watch/abc").
Proof.
  split; [reflexivity |]. split; [reflexivity |]. split; [reflexivity |].
  apply (meta_refresh_target_read_back Inputs.refresh_gate (T "0;") (T "/watch/abc"));
    reflexivity.
Defined.

Lemma absolute_is_http (base_host watch_url : text) :
  is_http base_host -> is_http (Gate.absolute base_host watch_url).
Proof.
  unfold is_http, Gate.absolute. intros H.
  destruct (startswith (T "http") watch_url) eqn:E; [exact E |].
  apply startswith_prefix_of. exact H.
Qed.

(** X20: the stream scrape is only ever started on an absolute URL: whatever
    the gate page holds, the URL handed over by the movie path starts with
    [http], and so does the one of the series path when the series page's own
    address does. *)
Theorem gate_hands_over_absolute_url (base_host : text) (page : Gate.gate_page) (u : text) :
  (Gate.movie_gate page = Gate.ScrapeVideoPage u -> startswith (T "http") u = true)
  /\ (startswith (T "http") base_host = true ->
      Gate.series_gate base_host page = Gate.ScrapeVideoPage u ->
      startswith (T "http") u = true).
Proof.
  split.
  - unfold Gate.movie_gate. destruct (negb (Gate.status_code page =? 200)%Z);
      [discriminate |]. cbv zeta.
    match goal with |- (if ?b then _ else _) = _ -> _ => destruct b end;
      [discriminate |].
    intros H. injection H as <-. apply absolute_is_http. reflexivity.
  - intros Hb. unfold Gate.series_gate.
    destruct (negb (Gate.status_code page =? 200)%Z); [discriminate |]. cbv zeta.
    match goal with |- (if ?b then _ else _) = _ -> _ => destruct b end;
      [discriminate |].
    intros H. injection H as <-. apply absolute_is_http. exact Hb.
Qed.

Lemma gate_hands_over_absolute_url_witness :
  (exists u, Gate.movie_gate Inputs.refresh_gate = Gate.ScrapeVideoPage u
             /\ startswith (T "http") u = true)
  /\ (exists u, startswith (T "http") (T "https://h.example") = true
                /\ Gate.series_gate (T "https://h.example") Inputs.refresh_gate
                   = Gate.ScrapeVideoPage u
                /\ startswith (T "http") u = true).
Proof.
  split.
  - eexists. split; [vm_compute; reflexivity |].
    apply (proj1 (gate_hands_over_absolute_url [] Inputs.refresh_gate _)).
    vm_compute; reflexivity.
  - eexists. split; [reflexivity |]. split; [vm_compute; reflexivity |].
    apply (proj2 (gate_hands_over_absolute_url (T "https://h.example")
                    Inputs.refresh_gate _));
      vm_compute; reflexivity.
Defined.

(** ** The series landing page *)

Lemma contains_of_longer (p q s : text) :
  contains (p ++ q) s = true -> contains p s = true.
Proof.
  induction s as [| c s IH]; cbn [contains]; intros H.
  - rewrite orb_false_r in *. destruct p; [reflexivity | destruct (p ++ q); discriminate H].
  - apply orb_true_iff in H. destruct H as [H | H].
    + assert (startswith p (c :: s) = true) as ->; [| reflexivity].
      clear IH. revert H. generalize (c :: s). induction p as [| a p IHp]; intros l H;
        [destruct l; reflexivity |].
      destruct l as [| b l]; [discriminate H |].
      cbn [app startswith] in *. apply andb_true_iff in H. destruct H as [H1 H2].
      rewrite H1, (IHp l H2). reflexivity.
    + rewrite (IH H). apply orb_true_r.
Qed.

(** X21: the requested season plays no part in the choice of the watch
    trigger: with the same page and episode, any two seasons lead to the
    same gate address (an episode token alone qualifies a trigger). *)
Theorem trigger_choice_ignores_season (base_host : text) (season season' episode : Z)
  (els : list Landing.element) :
  Landing.best_getwatch base_host season episode els
  = Landing.best_getwatch base_host season' episode els.
Proof.
  unfold Landing.best_getwatch.
  assert (Landing.triggers season episode els = Landing.triggers season' episode els) as ->;
    [| reflexivity].
  unfold Landing.triggers. induction els as [| e els IH]; [reflexivity |].
  cbn [omap list_omap]. rewrite IH.
  assert (Landing.trigger_of season episode e = Landing.trigger_of season' episode e) as ->;
    [| reflexivity].
  unfold Landing.trigger_of. destruct (Landing.getwatch_of e); [| reflexivity].
  destruct (Landing.any_token (Landing.season_tokens season) (Landing.block_text e)),
    (Landing.any_token (Landing.season_tokens season') (Landing.block_text e)),
    (Landing.any_token (Landing.episode_tokens episode) (Landing.block_text e));
    reflexivity.
Qed.

(** X22: the language weight of a trigger is one of 0, 1, 3, 4, 5, 7 and 8:
    the entries "Bangla Dubbed" (index 2) and "Hindi Dubbed" (index 6) of the
    priority list are never the first match, since "Bangla" and "Hindi" come
    before them and are found wherever they are. *)
Theorem lang_weight_values (block : text) :
  In (Landing.lang_weight block) [0; 1; 3; 4; 5; 7; 8]%nat.
Proof.
  unfold Landing.lang_weight, Landing.lang_priority.
  cbn [map Landing.first_token_index length].
  destruct (contains (lower (T "Bangla")) block) eqn:E0; [cbn; tauto |].
  destruct (contains (lower (T "বাংলা")) block) eqn:E1; [cbn; tauto |].
  destruct (contains (lower (T "Bangla Dubbed")) block) eqn:E2.
  { exfalso. change (lower (T "Bangla Dubbed")) with (lower (T "Bangla") ++ T " dubbed") in E2.
    rewrite (contains_of_longer _ _ _ E2) in E0. discriminate E0. }
  destruct (contains (lower (T "BD")) block) eqn:E3; [cbn; tauto |].
  destruct (contains (lower (T "Hindi")) block) eqn:E4; [cbn; tauto |].
  destruct (contains (lower (T "हिंदी")) block) eqn:E5; [cbn; tauto |].
  destruct (contains (lower (T "Hindi Dubbed")) block) eqn:E6.
  { exfalso. change (lower (T "Hindi Dubbed")) with (lower (T "Hindi") ++ T " dubbed") in E6.
    rewrite (contains_of_longer _ _ _ E6) in E4. discriminate E4. }
  destruct (contains (lower (T "English")) block) eqn:E7; cbn; tauto.
Qed.

Lemma insert_by_weight_length (c : Landing.trigger) (l : list Landing.trigger) :
  length (Landing.insert_by_weight c l) = Datatypes.S (length l).
Proof.
  induction l as [| d l IH]; [reflexivity |].
  cbn [Landing.insert_by_weight]. destruct (Landing.weight d <? Landing.weight c)%nat;
    cbn [length]; [rewrite IH |]; reflexivity.
Qed.

Lemma sort_by_weight_head (l : list Landing.trigger) :
  forall best rest, Landing.sort_by_weight l = best :: rest ->
  exists l1 l2,
    l = l1 ++ best :: l2
    /\ (forall d, In d l1 -> (Landing.weight best < Landing.weight d)%nat)
    /\ (forall d, In d l2 -> (Landing.weight best <= Landing.weight d)%nat).
Proof.
  induction l as [| x l IH]; intros best rest Hs; [discriminate Hs |].
  cbn [Landing.sort_by_weight fold_right] in Hs. fold (Landing.sort_by_weight l) in Hs.
  destruct (Landing.sort_by_weight l) as [| b' rest'] eqn:El.
  - assert (l = []) as ->.
    { destruct l as [| y l]; [reflexivity |]. exfalso.
      cbn [Landing.sort_by_weight fold_right] in El.
      apply (f_equal (@length _)) in El. rewrite insert_by_weight_length in El.
      discriminate El. }
    cbn in Hs. injection Hs as <- <-. exists [], []. split; [reflexivity |].
    split; intros d [].
  - destruct (IH b' rest' eq_refl) as (l1 & l2 & -> & H1 & H2).
    cbn [Landing.insert_by_weight] in Hs.
    destruct (Landing.weight b' <? Landing.weight x)%nat eqn:E.
    + injection Hs as <- <-. apply Nat.ltb_lt in E.
      exists (x :: l1), l2. split; [reflexivity |]. split; [| exact H2].
      intros d [<- | Hd]; [exact E | apply H1; exact Hd].
    + injection Hs as <- <-. apply Nat.ltb_ge in E.
      exists [], (l1 ++ b' :: l2). split; [reflexivity |]. split; [intros d [] |].
      intros d Hd. apply in_app_iff in Hd. destruct Hd as [Hd | [<- | Hd]].
      * specialize (H1 d Hd). lia.
      * exact E.
      * specialize (H2 d Hd). lia.
Qed.

(** X23: among the qualifying triggers of a page the one followed has the
    smallest language weight, and of several with that weight the first in
    document order. *)
Theorem followed_trigger_is_first_of_least_weight (base_host : text) (season episode : Z)
  (els : list Landing.element) (u : text) :
  Landing.best_getwatch base_host season episode els = Some u ->
  exists l1 best l2,
    Landing.triggers season episode els = l1 ++ best :: l2
    /\ u = Gate.absolute base_host (Landing.getwatch best)
    /\ (forall d, In d l1 -> (Landing.weight best < Landing.weight d)%nat)
    /\ (forall d, In d l2 -> (Landing.weight best <= Landing.weight d)%nat).
Proof.
  unfold Landing.best_getwatch.
  destruct (Landing.sort_by_weight (Landing.triggers season episode els))
    as [| best rest] eqn:Es; [discriminate |].
  intros H. injection H as <-.
  destruct (sort_by_weight_head _ best rest Es) as (l1 & l2 & Hl & H1 & H2).
  exists l1, best, l2. auto.
Qed.

Lemma followed_trigger_is_first_of_least_weight_witness :
  Landing.best_getwatch (T "https://b.example") 1 1 LandingInputs.two_languages
  = Some (T "https://b.example/getWatch/bn")
  /\ exists l1 best l2,
    Landing.triggers 1 1 LandingInputs.two_languages = l1 ++ best :: l2
    /\ T "https://b.example/getWatch/bn"
       = Gate.absolute (T "https://b.example") (Landing.getwatch best)
    /\ (forall d, In d l1 -> (Landing.weight best < Landing.weight d)%nat)
    /\ (forall d, In d l2 -> (Landing.weight best <= Landing.weight d)%nat).
Proof.
  assert (Landing.best_getwatch (T "https://b.example") 1 1 LandingInputs.two_languages
          = Some (T "https://b.example/getWatch/bn")) as H by (vm_compute; reflexivity).
  split; [exact H |].
  exact (followed_trigger_is_first_of_least_weight _ _ _ _ _ H).
Defined.

(** ** The movie landing page *)

Lemma filter_none (A : Type) (p : A -> bool) (l : list A) :
  Forall (fun x => p x = false) l -> List.filter p l = [].
Proof.
  induction 1 as [| x l Hx _ IH]; [reflexivity |].
  cbn [List.filter]. rewrite Hx. exact IH.
Qed.

(** X24: an anchor whose [href] holds [/getWatch/] is followed before
    anything else: the gate link of the movie page is the [href] of the
    first such anchor in document order, whatever buttons or handlers come
    before it. *)
Theorem first_gate_anchor_is_followed (l1 l2 : list MovieLanding.element)
  (e : MovieLanding.element) :
  MovieLanding.selects (MovieLanding.TagAttrContains (T "a") true (T "/getWatch/")) e = true ->
  Forall (fun d => MovieLanding.selects
                     (MovieLanding.TagAttrContains (T "a") true (T "/getWatch/")) d = false)
         l1 ->
  exists h, MovieLanding.el_href e = Some h
            /\ head (MovieLanding.watch_links (l1 ++ e :: l2)) = Some h.
Proof.
  intros He Hl1.
  assert (exists h, MovieLanding.el_href e = Some h /\ contains (T "/getWatch/") h = true)
    as (h & Hh & Hc).
  { cbn [MovieLanding.selects] in He. apply andb_true_iff in He. destruct He as [_ He].
    destruct (MovieLanding.el_href e) as [h |]; [eauto | discriminate He]. }
  exists h. split; [exact Hh |].
  unfold MovieLanding.watch_links, MovieLanding.watch_selectors. cbn [flat_map].
  unfold MovieLanding.select at 1. rewrite List.filter_app, (filter_none _ _ _ Hl1).
  cbn [app List.filter]. rewrite He. cbn [flat_map].
  unfold MovieLanding.link_of at 1. rewrite Hh. cbn [default from_option id].
  rewrite Hc. reflexivity.
Qed.

Lemma first_gate_anchor_is_followed_witness :
  MovieLanding.selects (MovieLanding.TagAttrContains (T "a") true (T "/getWatch/"))
    (MovieLanding.MkElement (T "a") (Some (T "/getWatch/anchor")) None [] None) = true
  /\ head (MovieLanding.watch_links MovieInputs.button_then_anchor)
     = Some (T "/getWatch/anchor").
Proof.
  split; [reflexivity |].
  destruct (first_gate_anchor_is_followed
              [MovieLanding.MkElement (T "button") None (Some (T "go('/getWatch/btn')")) [] None]
              []
              (MovieLanding.MkElement (T "a") (Some (T "/getWatch/anchor")) None [] None)
              eq_refl) as (h & Hh & Hhead).
  - constructor; [reflexivity | constructor].
  - injection Hh as <-. exact Hhead.
Defined.

Lemma link_of_none (e : MovieLanding.element) :
  contains (T "/getWatch/") (default [] (MovieLanding.el_href e)) = false ->
  contains (T "/getWatch/") (default [] (MovieLanding.el_onclick e)) = false ->
  MovieLanding.link_of e = [].
Proof. intros H1 H2. unfold MovieLanding.link_of. rewrite H1, H2. reflexivity. Qed.

Lemma flat_map_nil (A B : Type) (f : A -> list B) (l : list A) :
  Forall (fun x => f x = []) l -> flat_map f l = [].
Proof.
  induction 1 as [| x l Hx _ IH]; [reflexivity |].
  cbn [flat_map]. rewrite Hx, IH. reflexivity.
Qed.

(** X25: a movie page on which no element carries [/getWatch/] in its
    [href] or in its [onclick] handler ends in the failure "No watch button
    found on movie page", without any request for a gate page: links to
    [/watch/] pages and elements picked by class or id alone do not count. *)
Theorem no_gate_link_no_request (els : list MovieLanding.element)
  (fetch : text -> option Gate.gate_page) :
  Forall (fun e =>
            contains (T "/getWatch/") (default [] (MovieLanding.el_href e)) = false
            /\ contains (T "/getWatch/") (default [] (MovieLanding.el_onclick e)) = false)
         els ->
  MovieLanding.scrape_movie_page_for_watch_url (Some els) fetch
  = Gate.Failure (T "No watch button found on movie page").
Proof.
  intros H. unfold MovieLanding.scrape_movie_page_for_watch_url.
  assert (MovieLanding.watch_links els = []) as ->; [| reflexivity].
  unfold MovieLanding.watch_links. apply flat_map_nil.
  rewrite Forall_forall. intros s _. apply flat_map_nil.
  rewrite Forall_forall in *. intros e He.
  unfold MovieLanding.select in He. apply list_elem_of_In, List.filter_In in He.
  destruct He as [He _]. apply list_elem_of_In in He.
  destruct (H e He) as [H1 H2]. apply link_of_none; assumption.
Qed.

Lemma no_gate_link_no_request_witness :
  Forall (fun e =>
            contains (T "/getWatch/") (default [] (MovieLanding.el_href e)) = false
            /\ contains (T "/getWatch/") (default [] (MovieLanding.el_onclick e)) = false)
         MovieInputs.watch_link_only
  /\ MovieLanding.scrape_movie_page_for_watch_url (Some MovieInputs.watch_link_only)
       (fun _ => None)
     = Gate.Failure (T "No watch button found on movie page").
Proof.
  assert (Forall (fun e =>
            contains (T "/getWatch/") (default [] (MovieLanding.el_href e)) = false
            /\ contains (T "/getWatch/") (default [] (MovieLanding.el_onclick e)) = false)
         MovieInputs.watch_link_only) as H
      by (constructor; [split; reflexivity | constructor]).
  split; [exact H |].
  exact (no_gate_link_no_request _ (fun _ => None) H).
Defined.

(** X26: the movie path asks for the gate page at an absolute address only:
    two ways of answering requests that agree on every address starting with
    [http] give the same outcome, and a gate link that is relative is asked
    for on the fixed host. *)
Theorem gate_request_is_absolute (landing : option (list MovieLanding.element))
  (fetch fetch' : text -> option Gate.gate_page) :
  (forall u, startswith (T "http") u = true -> fetch u = fetch' u) ->
  MovieLanding.scrape_movie_page_for_watch_url landing fetch
  = MovieLanding.scrape_movie_page_for_watch_url landing fetch'.
Proof.
  intros H. unfold MovieLanding.scrape_movie_page_for_watch_url.
  destruct landing as [els |]; [| reflexivity].
  destruct (MovieLanding.watch_links els) as [| g rest]; [reflexivity |].
  rewrite (H (if startswith (T "http") g then g else T "https://playk8.movielinkbd.sbs" ++ g));
    [reflexivity |].
  destruct (startswith (T "http") g) eqn:E; [exact E | reflexivity].
Qed.

Lemma gate_request_is_absolute_witness :
  (forall u, startswith (T "http") u = true
             -> MovieInputs.answers_relative u = MovieInputs.answers_nothing u)
  /\ MovieLanding.scrape_movie_page_for_watch_url (Some MovieInputs.button_then_anchor)
       MovieInputs.answers_relative
     = MovieLanding.scrape_movie_page_for_watch_url (Some MovieInputs.button_then_anchor)
         MovieInputs.answers_nothing.
Proof.
  assert (forall u, startswith (T "http") u = true
                    -> MovieInputs.answers_relative u = MovieInputs.answers_nothing u) as H.
  { intros u Hu. unfold MovieInputs.answers_relative, MovieInputs.answers_nothing.
    rewrite Hu. reflexivity. }
  split; [exact H |].
  exact (gate_request_is_absolute (Some MovieInputs.button_then_anchor) _ _ H).
Defined.

(** ** Proxies *)

Lemma startswith_skipn (q p : text) :
  startswith q p = true -> q ++ skipn (length q) p = p.
Proof.
  revert p. induction q as [| a q IH]; intros p H; [reflexivity |].
  destruct p as [| b p]; [discriminate H |].
  cbn [startswith] in H. apply andb_true_iff in H. destruct H as [H1 H2].
  apply ascii_eqb_eq in H1. subst b. cbn [app length skipn]. rewrite (IH p H2). reflexivity.
Qed.

(** X27: the proxy list never holds an empty entry, an entry with white
    space around it, or an entry starting with [socks], and it has at most 50
    entries; a request that raised gives the empty list. *)
Theorem proxy_list_is_clean (response_text : option text) :
  (length (Proxy.get_proxy_list response_text) <= 50)%nat
  /\ Forall (fun p => p <> [] /\ strip p = p /\ startswith (T "socks") p = false)
            (Proxy.get_proxy_list response_text).
Proof.
  destruct response_text as [body |]; [| split; [cbn; lia | constructor]].
  cbn [Proxy.get_proxy_list]. unfold Proxy.proxies_of_text. split.
  - rewrite length_firstn. lia.
  - rewrite Forall_forall. intros p Hp. apply list_elem_of_In in Hp.
    apply (In_firstn_In _ _ _) in Hp || idtac.
    assert (In p (List.filter (fun p => negb (startswith (T "socks") p))
                    (map strip (List.filter (fun line => negb (text_eqb (strip line) []))
                                            (split_sep [Proxy.newline] (strip body))))))
      as Hin.
    { revert Hp. generalize 50%nat. generalize (List.filter (fun p => negb (startswith (T "socks") p))
                    (map strip (List.filter (fun line => negb (text_eqb (strip line) []))
                                            (split_sep [Proxy.newline] (strip body))))).
      intros l n. revert l. induction n as [| n IH]; intros l Hl; [destruct Hl |].
      destruct l as [| x l]; [destruct Hl |].
      cbn [firstn] in Hl. destruct Hl as [<- | Hl]; [left; reflexivity | right; auto]. }
    apply List.filter_In in Hin. destruct Hin as [Hin Hs].
    apply in_map_iff in Hin. destruct Hin as (line & <- & Hline).
    apply List.filter_In in Hline. destruct Hline as [_ Hne].
    split; [| split].
    + intros E. rewrite E in Hne. discriminate Hne.
    + apply strip_strip.
    + apply negb_true_iff in Hs. exact Hs.
Qed.

(** X28: the address a proxy is used under always starts with [http://];
    a proxy that is listed with that prefix is used as it is, and
    normalizing an address twice changes nothing. *)
Theorem proxy_address_is_normal (proxy : text) :
  startswith (T "http://") (Proxy.proxy_address proxy) = true
  /\ (startswith (T "http://") proxy = true -> Proxy.proxy_address proxy = proxy)
  /\ Proxy.proxy_address (Proxy.proxy_address proxy) = Proxy.proxy_address proxy.
Proof.
  assert (forall p, startswith (T "http://") (Proxy.proxy_address p) = true) as H1
      by (intros p; unfold Proxy.proxy_address; apply startswith_app_self).
  assert (forall p, startswith (T "http://") p = true -> Proxy.proxy_address p = p) as H2.
  { intros p Hp. unfold Proxy.proxy_address. rewrite Hp.
    exact (startswith_skipn (T "http://") p Hp). }
  split; [apply H1 |]. split; [apply H2 |]. apply H2, H1.
Qed.

Lemma proxy_address_is_normal_witness :
  startswith (T "http://") (T "http://10.0.0.1:8080") = true
  /\ Proxy.proxy_address (T "http://10.0.0.1:8080") = T "http://10.0.0.1:8080".
Proof.
  split; [reflexivity |].
  destruct (proxy_address_is_normal (T "http://10.0.0.1:8080")) as (_ & H & _).
  apply H. reflexivity.
Defined.

Lemma try_proxies_usable (via : text -> option Proxy.response) (ps : list text)
  (r : Proxy.response) :
  Proxy.try_proxies via ps = Some r -> Proxy.usable r = true.
Proof.
  induction ps as [| p ps IH]; [discriminate |].
  cbn [Proxy.try_proxies]. destruct (via (Proxy.proxy_address p)) as [r' |]; [| exact IH].
  destruct (Proxy.usable r') eqn:E; [| exact IH].
  intros H. injection H as <-. exact E.
Qed.

(** X29: the request helper hands back a response only if its status is 200
    and its text is longer than 1000 characters; a direct response of that
    kind is handed back as it is, whatever the proxies say; without any
    proxy in the list the fallback gives nothing. *)
Theorem fallback_returns_usable_responses_only (direct : option Proxy.response)
  (proxy_list_text : option text) (sample : list text -> list text)
  (via : text -> option Proxy.response) :
  (forall r,
     Proxy.make_request_with_proxy_fallback direct proxy_list_text sample via = Some r ->
     Proxy.status_code r = 200%Z /\ (1000 < Proxy.text_length r)%nat)
  /\ (forall r, direct = Some r -> Proxy.usable r = true ->
      Proxy.make_request_with_proxy_fallback direct proxy_list_text sample via = Some r)
  /\ (Proxy.get_proxy_list proxy_list_text = [] ->
      (forall r, direct = Some r -> Proxy.usable r = false) ->
      Proxy.make_request_with_proxy_fallback direct proxy_list_text sample via = None).
Proof.
  assert (forall r, Proxy.usable r = true ->
                    Proxy.status_code r = 200%Z /\ (1000 < Proxy.text_length r)%nat) as Hu.
  { intros r H. unfold Proxy.usable in H. apply andb_true_iff in H. destruct H as [H1 H2].
    apply Z.eqb_eq in H1. apply Nat.ltb_lt in H2. auto. }
  unfold Proxy.make_request_with_proxy_fallback.
  split; [| split].
  - intros r H. apply Hu.
    assert (match Proxy.get_proxy_list proxy_list_text with
            | [] => None
            | p :: ps => Proxy.try_proxies via (sample (p :: ps))
            end = Some r -> Proxy.usable r = true) as Hf.
    { destruct (Proxy.get_proxy_list proxy_list_text) as [| p ps]; [discriminate |].
      apply try_proxies_usable. }
    destruct direct as [r0 |]; [| exact (Hf H)].
    destruct (Proxy.usable r0) eqn:E; [| exact (Hf H)].
    injection H as <-. exact E.
  - intros r -> Hr. rewrite Hr. reflexivity.
  - intros Hl Hd. rewrite Hl. destruct direct as [r0 |]; [| reflexivity].
    rewrite (Hd r0 eq_refl). reflexivity.
Qed.

Lemma fallback_returns_usable_responses_only_witness :
  Proxy.usable ProxyInputs.full_page = true
  /\ Proxy.make_request_with_proxy_fallback (Some ProxyInputs.full_page)
       (Some ProxyInputs.proxy_listing) id (fun _ => Some ProxyInputs.block_page)
     = Some ProxyInputs.full_page
  /\ Proxy.get_proxy_list None = []
  /\ Proxy.make_request_with_proxy_fallback (Some ProxyInputs.block_page) None id
       (fun _ => Some ProxyInputs.full_page)
     = None.
Proof.
  split; [reflexivity |]. split.
  - destruct (fallback_returns_usable_responses_only (Some ProxyInputs.full_page)
                (Some ProxyInputs.proxy_listing) id (fun _ => Some ProxyInputs.block_page))
      as (_ & H & _).
    apply H; reflexivity.
  - split; [reflexivity |].
    destruct (fallback_returns_usable_responses_only (Some ProxyInputs.block_page)
                None id (fun _ => Some ProxyInputs.full_page))
      as (_ & _ & H).
    apply H; [reflexivity |].
    intros r Hr. injection Hr as <-. reflexivity.
Defined.
